(** * musicbox1: the generative music engine (src/musicEngine.ts)

    A shallow embedding of the engine and of the properties its
    specification states about it.

    Numbers.  JavaScript numbers are modelled as exact rationals [Q];
    [Math.floor] and [Math.ceil] are [Qfloor] and [Qceiling].  The
    transcendental functions the engine calls ([Math.log], [Math.pow])
    are supplied by the platform (class [Platform] below).  The
    rationals have no rounding, no infinity and no [NaN]: the functions
    whose result depends on these are given a second time, over the
    IEEE 754 doubles of the kernel, in the module [Double].

    Effects.  The engine is a mutable object that talks to the Web Audio
    backend.  A [World] is the engine's fields together with the state of
    the backend; backend calls and callbacks are recorded, newest first,
    in a command log.  Methods are computations in a state-and-exception
    monad [M] over worlds. *)

From Stdlib Require Import ZArith QArith Qround List String Ascii Bool Lia Lqa.
From Stdlib Require PrimFloat FloatOps FloatAxioms Uint63.
Import ListNotations.

Open Scope string_scope.
Open Scope list_scope.
Open Scope Q_scope.

(* ================================================================= *)
(** ** JavaScript helpers *)

(** [Math.max(a, b)] and [Math.min(a, b)] on numbers. *)
Definition Math_max (a b : Q) : Q := if Qle_bool a b then b else a.
Definition Math_min (a b : Q) : Q := if Qle_bool a b then a else b.

(** [Math.floor(x)] and [Math.ceil(x)], as numbers. *)
Definition Math_floor (x : Q) : Q := inject_Z (Qfloor x).
Definition Math_ceil (x : Q) : Q := inject_Z (Qceiling x).

(** [arr.length] as a number. *)
Definition js_length {A} (l : list A) : Q := inject_Z (Z.of_nat (List.length l)).

(** [arr[i]] for an integer-valued number [i]; [None] is [undefined]. *)
Definition js_index {A} (l : list A) (i : Z) : option A :=
  if (i <? 0)%Z then None else nth_error l (Z.to_nat i).

(** [x || d] on a possibly undefined number: [undefined] and [0] are
    falsy. *)
Definition js_or (v : option Q) (d : Q) : Q :=
  match v with
  | Some x => if Qeq_bool x 0 then d else x
  | None => d
  end.

(** The number of iterations of [for (let i = 0; i < n; i++)]. *)
Definition for_count (n : Q) : nat := Z.to_nat (Qceiling n).

(** [s.replace(/[TD]$/, '')]: drop one final [T] or [D]. *)
Definition is_TD (c : ascii) : bool :=
  (Ascii.eqb c "T"%char || Ascii.eqb c "D"%char)%bool.

Fixpoint replace_TD_suffix (s : string) : string :=
  match s with
  | EmptyString => EmptyString
  | String c EmptyString => if is_TD c then EmptyString else s
  | String c rest => String c (replace_TD_suffix rest)
  end.

(** [s.slice(-1)]: the last character, as a string. *)
Fixpoint slice_last (s : string) : string :=
  match s with
  | EmptyString => EmptyString
  | String c EmptyString => s
  | String _ rest => slice_last rest
  end.

(** The property names every object literal inherits from
    [Object.prototype]; their values are functions or accessors, not
    numbers. *)
Definition Object_prototype_keys : list string :=
  [ "constructor"; "hasOwnProperty"; "isPrototypeOf"; "propertyIsEnumerable";
    "toLocaleString"; "toString"; "valueOf"; "__proto__";
    "__defineGetter__"; "__defineSetter__";
    "__lookupGetter__"; "__lookupSetter__" ]%string.

(** Property lookup [obj[key]] among the own properties of an object
    literal with number values.  For a key of [Object_prototype_keys]
    the lookup of the code finds the inherited property instead; this
    function is used for the other keys only. *)
Fixpoint js_get (obj : list (string * Q)) (key : string) : option Q :=
  match obj with
  | [] => None
  | (k, v) :: rest => if String.eqb k key then Some v else js_get rest key
  end.

(* ================================================================= *)
(** ** Constants and parameter records *)

Definition DEFAULT_BPM : Q := 45.
Definition DEFAULT_MEAN_NOTES_PER_BAR : Q := 6.
Definition MAX_VOICES : nat := 32.
Definition OCTAVE_MIN : Q := 4.
Definition OCTAVE_MAX : Q := 7.
Definition BARS_PER_CHANGE : Q := 4.

Record EnvelopeParams := {
  attack : Q;
  decay : Q;
  sustain : Q;
  release : Q
}.

Record VibratoParams := {
  vibratoRate : Q;
  vibratoDepth : Q
}.

Record TremoloParams := {
  tremoloRate : Q;
  tremoloDepth : Q
}.

(** [MusicalDuration] is a union of string literals; values are strings. *)
Definition MusicalDuration := string.

Definition MUSICAL_DURATIONS : list MusicalDuration :=
  [ "1/1"; "1/1D"; "1/1T";
    "1/2"; "1/2D"; "1/2T";
    "1/4"; "1/4D"; "1/4T";
    "1/8"; "1/8D"; "1/8T";
    "1/16"; "1/16D"; "1/16T";
    "1/32"; "1/32D"; "1/32T" ].

(** The six undecorated durations. *)
Definition BASE_DURATIONS : list MusicalDuration :=
  [ "1/1"; "1/2"; "1/4"; "1/8"; "1/16"; "1/32" ].

Inductive DelayFilterType := lowpass | bandpass | highpass.

Record DelayParams := {
  enabled : bool;
  duration : MusicalDuration;
  feedback : Q;
  mix : Q;
  filterType : DelayFilterType;
  filterFrequency : Q;
  filterResonance : Q;
  filterOrder : Q   (* 6 | 12 | 24 *)
}.

Record SynthParams := {
  envelope : EnvelopeParams;
  vibrato : VibratoParams;
  tremolo : TremoloParams;
  delay : DelayParams;
  maxNoteDuration : Q
}.

Definition DEFAULT_SYNTH_PARAMS : SynthParams := {|
  envelope := {| attack := 0.01; decay := 0.1; sustain := 0.8; release := 1.8 |};
  vibrato := {| vibratoRate := 4.8; vibratoDepth := 0.003 |};
  tremolo := {| tremoloRate := 2.1; tremoloDepth := 0.25 |};
  delay := {| enabled := false; duration := "1/4"; feedback := 0.4; mix := 0.3;
              filterType := lowpass; filterFrequency := 2000;
              filterResonance := 1.0; filterOrder := 12 |};
  maxNoteDuration := 2.4
|}.

(** [Partial<SynthParams>]: every group is optional. *)
Record PartialSynthParams := {
  p_envelope : option EnvelopeParams;
  p_vibrato : option VibratoParams;
  p_tremolo : option TremoloParams;
  p_delay : option DelayParams;
  p_maxNoteDuration : option Q
}.

(* ================================================================= *)
(** ** musicalDurationToSeconds *)

Definition baseValues (wholeNote : Q) : list (string * Q) :=
  [ ("1/1", wholeNote);
    ("1/2", wholeNote / 2);
    ("1/4", wholeNote / 4);
    ("1/8", wholeNote / 8);
    ("1/16", wholeNote / 16);
    ("1/32", wholeNote / 32) ].

Definition musicalDurationToSeconds (duration : MusicalDuration) (bpm : Q) : Q :=
  let beatSeconds := 60 / bpm in
  let wholeNote := beatSeconds * 4 in
  let base := replace_TD_suffix duration in
  let modifier := slice_last duration in
  let value := js_or (js_get (baseValues wholeNote) base) (wholeNote / 4) in
  if String.eqb modifier "T" then value * (2 / 3)
  else if String.eqb modifier "D" then value * 1.5
  else value.

(* ================================================================= *)
(** ** What the engine imports

    [./pcs12] and [./pcsGraphData.json] and the transcendental functions
    of [Math] are taken as parameters. *)

Class Platform := {
  (** the class [Pcs12] with the three members the engine uses *)
  Pcs12 : Type;
  Pcs12_fromBinaryString : string -> Pcs12;
  asSequence : Pcs12 -> list Z;
  Pcs12_toString : Pcs12 -> string;
  (** the precomputed graph: node strings and neighbour lists *)
  pcsGraphData_nodes : list string;
  pcsGraphData_adjacency : list (list Z);
  (** [Math.log(x)] and [Math.pow(b, x)] *)
  Math_log : Q -> Q;
  Math_pow : Q -> Q -> Q
}.

(* ================================================================= *)
(** ** The Web Audio backend *)

(** Audio nodes and timers are named by the order of their creation. *)
Definition NodeId := nat.
Definition TimerId := nat.

Inductive AudioParam := frequency_param | Q_param | gain_param | delayTime_param.

(** The engine holds at most one [AudioContext]; its state and clock
    belong to the backend. *)
Inductive AudioContext := the_audioContext.
Inductive ContextState := suspended | running | closed.

(** Calls on the backend and on the callbacks the application installed.
    [CallTriggerRandomNote] marks the scheduler's call of
    [triggerRandomNote], with the onset time it passes. *)
Inductive Command :=
| NewAudioContext
| ResumeContext
| SuspendContext
| CreateGain (n : NodeId)
| CreateOscillator (n : NodeId)
| CreateDelay (n : NodeId) (maxDelayTime : Q)
| CreateBiquadFilter (n : NodeId)
| CreateConvolver (n : NodeId)
| SetOscillatorSine (n : NodeId)
| SetFilterType (n : NodeId) (t : DelayFilterType)
| SetValue (n : NodeId) (p : AudioParam) (v : Q)
| SetValueAtTime (n : NodeId) (p : AudioParam) (v t : Q)
| LinearRampToValueAtTime (n : NodeId) (p : AudioParam) (v t : Q)
| SetTargetAtTime (n : NodeId) (p : AudioParam) (v t timeConstant : Q)
| SetImpulseBuffer (n : NodeId)
| Connect (src dst : NodeId)
| ConnectParam (src dst : NodeId) (p : AudioParam)
| ConnectDestination (src : NodeId)
| Disconnect (n : NodeId)
| StartAt (n : NodeId) (when : Q)
| StopNow (n : NodeId)
| StopAt (n : NodeId) (when : Q)
| SetTimeout (id : TimerId) (ms : Q)
| ClearTimeout (id : TimerId)
| MediaSessionSetup
| MediaSessionPlaybackState (playing : bool)
| ChordChange (chord : string)
| NoteTriggered (pitchClass : Z)
| PlayStateChange (playing : bool)
| CallTriggerRandomNote (whenTime : Q).

Record Backend := {
  currentTime : Q;               (* audioContext.currentTime *)
  contextState : ContextState;   (* audioContext.state *)
  randomSource : nat -> Q;       (* the values Math.random() returns *)
  randomPos : nat;               (* how many have been drawn *)
  nextNodeId : NodeId;
  nextTimerId : TimerId;
  hasMediaSession : bool;        (* 'mediaSession' in navigator *)
  contextError : option string;  (* what new AudioContext() throws, if it does *)
  resumeError : option string;   (* what audioContext.resume() rejects with, if it does *)
  canCreateReverb : bool;        (* the impulse buffer can be built *)
  impulseDraws : nat;            (* Math.random() calls of the impulse *)
  log : list Command             (* newest first *)
}.

Definition set_log (l : list Command) (b : Backend) : Backend :=
  {| currentTime := currentTime b; contextState := contextState b;
     randomSource := randomSource b; randomPos := randomPos b;
     nextNodeId := nextNodeId b; nextTimerId := nextTimerId b;
     hasMediaSession := hasMediaSession b;
     contextError := contextError b; resumeError := resumeError b;
     canCreateReverb := canCreateReverb b; impulseDraws := impulseDraws b;
     log := l |}.

Definition set_randomPos (n : nat) (b : Backend) : Backend :=
  {| currentTime := currentTime b; contextState := contextState b;
     randomSource := randomSource b; randomPos := n;
     nextNodeId := nextNodeId b; nextTimerId := nextTimerId b;
     hasMediaSession := hasMediaSession b;
     contextError := contextError b; resumeError := resumeError b;
     canCreateReverb := canCreateReverb b; impulseDraws := impulseDraws b;
     log := log b |}.

Definition set_nextNodeId (n : NodeId) (b : Backend) : Backend :=
  {| currentTime := currentTime b; contextState := contextState b;
     randomSource := randomSource b; randomPos := randomPos b;
     nextNodeId := n; nextTimerId := nextTimerId b;
     hasMediaSession := hasMediaSession b;
     contextError := contextError b; resumeError := resumeError b;
     canCreateReverb := canCreateReverb b; impulseDraws := impulseDraws b;
     log := log b |}.

Definition set_nextTimerId (n : TimerId) (b : Backend) : Backend :=
  {| currentTime := currentTime b; contextState := contextState b;
     randomSource := randomSource b; randomPos := randomPos b;
     nextNodeId := nextNodeId b; nextTimerId := n;
     hasMediaSession := hasMediaSession b;
     contextError := contextError b; resumeError := resumeError b;
     canCreateReverb := canCreateReverb b; impulseDraws := impulseDraws b;
     log := log b |}.

Definition set_contextState (s : ContextState) (b : Backend) : Backend :=
  {| currentTime := currentTime b; contextState := s;
     randomSource := randomSource b; randomPos := randomPos b;
     nextNodeId := nextNodeId b; nextTimerId := nextTimerId b;
     hasMediaSession := hasMediaSession b;
     contextError := contextError b; resumeError := resumeError b;
     canCreateReverb := canCreateReverb b; impulseDraws := impulseDraws b;
     log := log b |}.

(** The clock is advanced by the backend, between calls of the engine. *)
Definition set_currentTime (t : Q) (b : Backend) : Backend :=
  {| currentTime := t; contextState := contextState b;
     randomSource := randomSource b; randomPos := randomPos b;
     nextNodeId := nextNodeId b; nextTimerId := nextTimerId b;
     hasMediaSession := hasMediaSession b;
     contextError := contextError b; resumeError := resumeError b;
     canCreateReverb := canCreateReverb b; impulseDraws := impulseDraws b;
     log := log b |}.

(* ================================================================= *)
(** ** The engine's data *)

Record Voice := {
  oscillator : option NodeId;
  gainNode : option NodeId;
  startTime : Q;
  endTime : Q
}.

(** class PcsRelationGraph; [currentIndex = None] is [undefined]. *)
Record PcsRelationGraph `{Platform} := {
  nodes : list Pcs12;
  adjacency : list (list Z);
  currentIndex : option Z
}.

(** class MusicEngine.  An optional callback is [true] when the
    application has installed it. *)
Record Engine `{Platform} := {
  audioContext : option AudioContext;
  masterGain : option NodeId;
  reverbNode : option NodeId;
  delayNode : option NodeId;
  delayFeedbackGain : option NodeId;
  delayFilters : list NodeId;
  delayDryGain : option NodeId;
  delayWetGain : option NodeId;
  delayInputGain : option NodeId;
  isPlaying : bool;
  pcsGraph : PcsRelationGraph;
  activePitchClasses : list Z;
  voices : list Voice;
  nextNoteTime : Q;
  nextGraphHopTime : Q;
  schedulerId : option TimerId;
  synthParams : SynthParams;
  bpm : Q;
  meanNotesPerBar : Q;
  onChordChange : bool;
  onNoteTriggered : bool;
  onPlayStateChange : bool
}.

Definition set_audioContext `{Platform} v (e : Engine) : Engine :=
  {| audioContext := v; masterGain := masterGain e;
     reverbNode := reverbNode e; delayNode := delayNode e;
     delayFeedbackGain := delayFeedbackGain e;
     delayFilters := delayFilters e; delayDryGain := delayDryGain e;
     delayWetGain := delayWetGain e; delayInputGain := delayInputGain e;
     isPlaying := isPlaying e; pcsGraph := pcsGraph e;
     activePitchClasses := activePitchClasses e; voices := voices e;
     nextNoteTime := nextNoteTime e; nextGraphHopTime := nextGraphHopTime e;
     schedulerId := schedulerId e; synthParams := synthParams e;
     bpm := bpm e; meanNotesPerBar := meanNotesPerBar e;
     onChordChange := onChordChange e; onNoteTriggered := onNoteTriggered e;
     onPlayStateChange := onPlayStateChange e |}.

Definition set_masterGain `{Platform} v (e : Engine) : Engine :=
  {| audioContext := audioContext e; masterGain := v;
     reverbNode := reverbNode e; delayNode := delayNode e;
     delayFeedbackGain := delayFeedbackGain e;
     delayFilters := delayFilters e; delayDryGain := delayDryGain e;
     delayWetGain := delayWetGain e; delayInputGain := delayInputGain e;
     isPlaying := isPlaying e; pcsGraph := pcsGraph e;
     activePitchClasses := activePitchClasses e; voices := voices e;
     nextNoteTime := nextNoteTime e; nextGraphHopTime := nextGraphHopTime e;
     schedulerId := schedulerId e; synthParams := synthParams e;
     bpm := bpm e; meanNotesPerBar := meanNotesPerBar e;
     onChordChange := onChordChange e; onNoteTriggered := onNoteTriggered e;
     onPlayStateChange := onPlayStateChange e |}.

Definition set_reverbNode `{Platform} v (e : Engine) : Engine :=
  {| audioContext := audioContext e; masterGain := masterGain e;
     reverbNode := v; delayNode := delayNode e;
     delayFeedbackGain := delayFeedbackGain e;
     delayFilters := delayFilters e; delayDryGain := delayDryGain e;
     delayWetGain := delayWetGain e; delayInputGain := delayInputGain e;
     isPlaying := isPlaying e; pcsGraph := pcsGraph e;
     activePitchClasses := activePitchClasses e; voices := voices e;
     nextNoteTime := nextNoteTime e; nextGraphHopTime := nextGraphHopTime e;
     schedulerId := schedulerId e; synthParams := synthParams e;
     bpm := bpm e; meanNotesPerBar := meanNotesPerBar e;
     onChordChange := onChordChange e; onNoteTriggered := onNoteTriggered e;
     onPlayStateChange := onPlayStateChange e |}.

Definition set_delayNode `{Platform} v (e : Engine) : Engine :=
  {| audioContext := audioContext e; masterGain := masterGain e;
     reverbNode := reverbNode e; delayNode := v;
     delayFeedbackGain := delayFeedbackGain e;
     delayFilters := delayFilters e; delayDryGain := delayDryGain e;
     delayWetGain := delayWetGain e; delayInputGain := delayInputGain e;
     isPlaying := isPlaying e; pcsGraph := pcsGraph e;
     activePitchClasses := activePitchClasses e; voices := voices e;
     nextNoteTime := nextNoteTime e; nextGraphHopTime := nextGraphHopTime e;
     schedulerId := schedulerId e; synthParams := synthParams e;
     bpm := bpm e; meanNotesPerBar := meanNotesPerBar e;
     onChordChange := onChordChange e; onNoteTriggered := onNoteTriggered e;
     onPlayStateChange := onPlayStateChange e |}.

Definition set_delayFeedbackGain `{Platform} v (e : Engine) : Engine :=
  {| audioContext := audioContext e; masterGain := masterGain e;
     reverbNode := reverbNode e; delayNode := delayNode e;
     delayFeedbackGain := v; delayFilters := delayFilters e;
     delayDryGain := delayDryGain e; delayWetGain := delayWetGain e;
     delayInputGain := delayInputGain e; isPlaying := isPlaying e;
     pcsGraph := pcsGraph e; activePitchClasses := activePitchClasses e;
     voices := voices e; nextNoteTime := nextNoteTime e;
     nextGraphHopTime := nextGraphHopTime e; schedulerId := schedulerId e;
     synthParams := synthParams e; bpm := bpm e;
     meanNotesPerBar := meanNotesPerBar e; onChordChange := onChordChange e;
     onNoteTriggered := onNoteTriggered e;
     onPlayStateChange := onPlayStateChange e |}.

Definition set_delayFilters `{Platform} v (e : Engine) : Engine :=
  {| audioContext := audioContext e; masterGain := masterGain e;
     reverbNode := reverbNode e; delayNode := delayNode e;
     delayFeedbackGain := delayFeedbackGain e; delayFilters := v;
     delayDryGain := delayDryGain e; delayWetGain := delayWetGain e;
     delayInputGain := delayInputGain e; isPlaying := isPlaying e;
     pcsGraph := pcsGraph e; activePitchClasses := activePitchClasses e;
     voices := voices e; nextNoteTime := nextNoteTime e;
     nextGraphHopTime := nextGraphHopTime e; schedulerId := schedulerId e;
     synthParams := synthParams e; bpm := bpm e;
     meanNotesPerBar := meanNotesPerBar e; onChordChange := onChordChange e;
     onNoteTriggered := onNoteTriggered e;
     onPlayStateChange := onPlayStateChange e |}.

Definition set_delayDryGain `{Platform} v (e : Engine) : Engine :=
  {| audioContext := audioContext e; masterGain := masterGain e;
     reverbNode := reverbNode e; delayNode := delayNode e;
     delayFeedbackGain := delayFeedbackGain e;
     delayFilters := delayFilters e; delayDryGain := v;
     delayWetGain := delayWetGain e; delayInputGain := delayInputGain e;
     isPlaying := isPlaying e; pcsGraph := pcsGraph e;
     activePitchClasses := activePitchClasses e; voices := voices e;
     nextNoteTime := nextNoteTime e; nextGraphHopTime := nextGraphHopTime e;
     schedulerId := schedulerId e; synthParams := synthParams e;
     bpm := bpm e; meanNotesPerBar := meanNotesPerBar e;
     onChordChange := onChordChange e; onNoteTriggered := onNoteTriggered e;
     onPlayStateChange := onPlayStateChange e |}.

Definition set_delayWetGain `{Platform} v (e : Engine) : Engine :=
  {| audioContext := audioContext e; masterGain := masterGain e;
     reverbNode := reverbNode e; delayNode := delayNode e;
     delayFeedbackGain := delayFeedbackGain e;
     delayFilters := delayFilters e; delayDryGain := delayDryGain e;
     delayWetGain := v; delayInputGain := delayInputGain e;
     isPlaying := isPlaying e; pcsGraph := pcsGraph e;
     activePitchClasses := activePitchClasses e; voices := voices e;
     nextNoteTime := nextNoteTime e; nextGraphHopTime := nextGraphHopTime e;
     schedulerId := schedulerId e; synthParams := synthParams e;
     bpm := bpm e; meanNotesPerBar := meanNotesPerBar e;
     onChordChange := onChordChange e; onNoteTriggered := onNoteTriggered e;
     onPlayStateChange := onPlayStateChange e |}.

Definition set_delayInputGain `{Platform} v (e : Engine) : Engine :=
  {| audioContext := audioContext e; masterGain := masterGain e;
     reverbNode := reverbNode e; delayNode := delayNode e;
     delayFeedbackGain := delayFeedbackGain e;
     delayFilters := delayFilters e; delayDryGain := delayDryGain e;
     delayWetGain := delayWetGain e; delayInputGain := v;
     isPlaying := isPlaying e; pcsGraph := pcsGraph e;
     activePitchClasses := activePitchClasses e; voices := voices e;
     nextNoteTime := nextNoteTime e; nextGraphHopTime := nextGraphHopTime e;
     schedulerId := schedulerId e; synthParams := synthParams e;
     bpm := bpm e; meanNotesPerBar := meanNotesPerBar e;
     onChordChange := onChordChange e; onNoteTriggered := onNoteTriggered e;
     onPlayStateChange := onPlayStateChange e |}.

Definition set_isPlaying `{Platform} v (e : Engine) : Engine :=
  {| audioContext := audioContext e; masterGain := masterGain e;
     reverbNode := reverbNode e; delayNode := delayNode e;
     delayFeedbackGain := delayFeedbackGain e;
     delayFilters := delayFilters e; delayDryGain := delayDryGain e;
     delayWetGain := delayWetGain e; delayInputGain := delayInputGain e;
     isPlaying := v; pcsGraph := pcsGraph e;
     activePitchClasses := activePitchClasses e; voices := voices e;
     nextNoteTime := nextNoteTime e; nextGraphHopTime := nextGraphHopTime e;
     schedulerId := schedulerId e; synthParams := synthParams e;
     bpm := bpm e; meanNotesPerBar := meanNotesPerBar e;
     onChordChange := onChordChange e; onNoteTriggered := onNoteTriggered e;
     onPlayStateChange := onPlayStateChange e |}.

Definition set_pcsGraph `{Platform} v (e : Engine) : Engine :=
  {| audioContext := audioContext e; masterGain := masterGain e;
     reverbNode := reverbNode e; delayNode := delayNode e;
     delayFeedbackGain := delayFeedbackGain e;
     delayFilters := delayFilters e; delayDryGain := delayDryGain e;
     delayWetGain := delayWetGain e; delayInputGain := delayInputGain e;
     isPlaying := isPlaying e; pcsGraph := v;
     activePitchClasses := activePitchClasses e; voices := voices e;
     nextNoteTime := nextNoteTime e; nextGraphHopTime := nextGraphHopTime e;
     schedulerId := schedulerId e; synthParams := synthParams e;
     bpm := bpm e; meanNotesPerBar := meanNotesPerBar e;
     onChordChange := onChordChange e; onNoteTriggered := onNoteTriggered e;
     onPlayStateChange := onPlayStateChange e |}.

Definition set_activePitchClasses `{Platform} v (e : Engine) : Engine :=
  {| audioContext := audioContext e; masterGain := masterGain e;
     reverbNode := reverbNode e; delayNode := delayNode e;
     delayFeedbackGain := delayFeedbackGain e;
     delayFilters := delayFilters e; delayDryGain := delayDryGain e;
     delayWetGain := delayWetGain e; delayInputGain := delayInputGain e;
     isPlaying := isPlaying e; pcsGraph := pcsGraph e;
     activePitchClasses := v; voices := voices e;
     nextNoteTime := nextNoteTime e; nextGraphHopTime := nextGraphHopTime e;
     schedulerId := schedulerId e; synthParams := synthParams e;
     bpm := bpm e; meanNotesPerBar := meanNotesPerBar e;
     onChordChange := onChordChange e; onNoteTriggered := onNoteTriggered e;
     onPlayStateChange := onPlayStateChange e |}.

Definition set_voices `{Platform} v (e : Engine) : Engine :=
  {| audioContext := audioContext e; masterGain := masterGain e;
     reverbNode := reverbNode e; delayNode := delayNode e;
     delayFeedbackGain := delayFeedbackGain e;
     delayFilters := delayFilters e; delayDryGain := delayDryGain e;
     delayWetGain := delayWetGain e; delayInputGain := delayInputGain e;
     isPlaying := isPlaying e; pcsGraph := pcsGraph e;
     activePitchClasses := activePitchClasses e; voices := v;
     nextNoteTime := nextNoteTime e; nextGraphHopTime := nextGraphHopTime e;
     schedulerId := schedulerId e; synthParams := synthParams e;
     bpm := bpm e; meanNotesPerBar := meanNotesPerBar e;
     onChordChange := onChordChange e; onNoteTriggered := onNoteTriggered e;
     onPlayStateChange := onPlayStateChange e |}.

Definition set_nextNoteTime `{Platform} v (e : Engine) : Engine :=
  {| audioContext := audioContext e; masterGain := masterGain e;
     reverbNode := reverbNode e; delayNode := delayNode e;
     delayFeedbackGain := delayFeedbackGain e;
     delayFilters := delayFilters e; delayDryGain := delayDryGain e;
     delayWetGain := delayWetGain e; delayInputGain := delayInputGain e;
     isPlaying := isPlaying e; pcsGraph := pcsGraph e;
     activePitchClasses := activePitchClasses e; voices := voices e;
     nextNoteTime := v; nextGraphHopTime := nextGraphHopTime e;
     schedulerId := schedulerId e; synthParams := synthParams e;
     bpm := bpm e; meanNotesPerBar := meanNotesPerBar e;
     onChordChange := onChordChange e; onNoteTriggered := onNoteTriggered e;
     onPlayStateChange := onPlayStateChange e |}.

Definition set_nextGraphHopTime `{Platform} v (e : Engine) : Engine :=
  {| audioContext := audioContext e; masterGain := masterGain e;
     reverbNode := reverbNode e; delayNode := delayNode e;
     delayFeedbackGain := delayFeedbackGain e;
     delayFilters := delayFilters e; delayDryGain := delayDryGain e;
     delayWetGain := delayWetGain e; delayInputGain := delayInputGain e;
     isPlaying := isPlaying e; pcsGraph := pcsGraph e;
     activePitchClasses := activePitchClasses e; voices := voices e;
     nextNoteTime := nextNoteTime e; nextGraphHopTime := v;
     schedulerId := schedulerId e; synthParams := synthParams e;
     bpm := bpm e; meanNotesPerBar := meanNotesPerBar e;
     onChordChange := onChordChange e; onNoteTriggered := onNoteTriggered e;
     onPlayStateChange := onPlayStateChange e |}.

Definition set_schedulerId `{Platform} v (e : Engine) : Engine :=
  {| audioContext := audioContext e; masterGain := masterGain e;
     reverbNode := reverbNode e; delayNode := delayNode e;
     delayFeedbackGain := delayFeedbackGain e;
     delayFilters := delayFilters e; delayDryGain := delayDryGain e;
     delayWetGain := delayWetGain e; delayInputGain := delayInputGain e;
     isPlaying := isPlaying e; pcsGraph := pcsGraph e;
     activePitchClasses := activePitchClasses e; voices := voices e;
     nextNoteTime := nextNoteTime e; nextGraphHopTime := nextGraphHopTime e;
     schedulerId := v; synthParams := synthParams e; bpm := bpm e;
     meanNotesPerBar := meanNotesPerBar e; onChordChange := onChordChange e;
     onNoteTriggered := onNoteTriggered e;
     onPlayStateChange := onPlayStateChange e |}.

Definition set_synthParams `{Platform} v (e : Engine) : Engine :=
  {| audioContext := audioContext e; masterGain := masterGain e;
     reverbNode := reverbNode e; delayNode := delayNode e;
     delayFeedbackGain := delayFeedbackGain e;
     delayFilters := delayFilters e; delayDryGain := delayDryGain e;
     delayWetGain := delayWetGain e; delayInputGain := delayInputGain e;
     isPlaying := isPlaying e; pcsGraph := pcsGraph e;
     activePitchClasses := activePitchClasses e; voices := voices e;
     nextNoteTime := nextNoteTime e; nextGraphHopTime := nextGraphHopTime e;
     schedulerId := schedulerId e; synthParams := v; bpm := bpm e;
     meanNotesPerBar := meanNotesPerBar e; onChordChange := onChordChange e;
     onNoteTriggered := onNoteTriggered e;
     onPlayStateChange := onPlayStateChange e |}.

Definition set_bpm `{Platform} v (e : Engine) : Engine :=
  {| audioContext := audioContext e; masterGain := masterGain e;
     reverbNode := reverbNode e; delayNode := delayNode e;
     delayFeedbackGain := delayFeedbackGain e;
     delayFilters := delayFilters e; delayDryGain := delayDryGain e;
     delayWetGain := delayWetGain e; delayInputGain := delayInputGain e;
     isPlaying := isPlaying e; pcsGraph := pcsGraph e;
     activePitchClasses := activePitchClasses e; voices := voices e;
     nextNoteTime := nextNoteTime e; nextGraphHopTime := nextGraphHopTime e;
     schedulerId := schedulerId e; synthParams := synthParams e; bpm := v;
     meanNotesPerBar := meanNotesPerBar e; onChordChange := onChordChange e;
     onNoteTriggered := onNoteTriggered e;
     onPlayStateChange := onPlayStateChange e |}.

Definition set_meanNotesPerBar `{Platform} v (e : Engine) : Engine :=
  {| audioContext := audioContext e; masterGain := masterGain e;
     reverbNode := reverbNode e; delayNode := delayNode e;
     delayFeedbackGain := delayFeedbackGain e;
     delayFilters := delayFilters e; delayDryGain := delayDryGain e;
     delayWetGain := delayWetGain e; delayInputGain := delayInputGain e;
     isPlaying := isPlaying e; pcsGraph := pcsGraph e;
     activePitchClasses := activePitchClasses e; voices := voices e;
     nextNoteTime := nextNoteTime e; nextGraphHopTime := nextGraphHopTime e;
     schedulerId := schedulerId e; synthParams := synthParams e;
     bpm := bpm e; meanNotesPerBar := v; onChordChange := onChordChange e;
     onNoteTriggered := onNoteTriggered e;
     onPlayStateChange := onPlayStateChange e |}.

Record World `{Platform} := {
  eng : Engine;
  env : Backend
}.

(* ================================================================= *)
(** ** The monad of engine methods *)

Inductive Outcome (A : Type) :=
| Ok (a : A)
| Throw (error : string).
Arguments Ok {A} a.
Arguments Throw {A} error.

Definition M `{Platform} (A : Type) : Type := World -> Outcome A * World.

Definition ret `{Platform} {A} (a : A) : M A := fun w => (Ok a, w).

Definition bind `{Platform} {A B} (c : M A) (k : A -> M B) : M B :=
  fun w =>
    match c w with
    | (Ok a, w') => k a w'
    | (Throw e, w') => (Throw e, w')
    end.

Definition throw `{Platform} {A} (e : string) : M A := fun w => (Throw e, w).

(** [try { c } catch (e) { h e }] *)
Definition try_catch `{Platform} {A} (c : M A) (h : string -> M A) : M A :=
  fun w =>
    match c w with
    | (Ok a, w') => (Ok a, w')
    | (Throw e, w') => h e w'
    end.

Arguments ret {_ _} a w /.
Arguments bind {_ _ _} c k w /.
Arguments throw {_ _} e w /.
Arguments try_catch {_ _} c h w /.

Declare Scope engine_scope.
Delimit Scope engine_scope with engine.
Notation "x <- c ;; k" := (bind c (fun x => k))
  (at level 61, c at next level, right associativity) : engine_scope.
Notation "c ;; k" := (bind c (fun _ => k))
  (at level 61, right associativity) : engine_scope.
Open Scope engine_scope.

(** Reading and writing [this]. *)
Definition this `{Platform} {A} (f : Engine -> A) : M A :=
  fun w => (Ok (f (eng w)), w).

Definition update `{Platform} (f : Engine -> Engine) : M unit :=
  fun w => (Ok tt, {| eng := f (eng w); env := env w |}).

(** Reading and writing the backend. *)
Definition backend `{Platform} {A} (f : Backend -> A) : M A :=
  fun w => (Ok (f (env w)), w).

Definition update_backend `{Platform} (f : Backend -> Backend) : M unit :=
  fun w => (Ok tt, {| eng := eng w; env := f (env w) |}).

Definition emit `{Platform} (c : Command) : M unit :=
  update_backend (fun b => set_log (c :: log b) b).

Arguments this {_ _} f w /.
Arguments update {_} f w /.
Arguments backend {_ _} f w /.
Arguments update_backend {_} f w /.
Arguments emit {_} c w /.

(** [Math.random()] *)
Definition draw (b : Backend) : Q * Backend :=
  (randomSource b (randomPos b), set_randomPos (S (randomPos b)) b).

Definition Math_random `{Platform} : M Q :=
  fun w => let (u, b) := draw (env w) in (Ok u, {| eng := eng w; env := b |}).

(** A new node of the audio graph. *)
Definition new_node `{Platform} (create : NodeId -> Command) : M NodeId :=
  n <- backend nextNodeId ;;
  update_backend (set_nextNodeId (S n)) ;;
  emit (create n) ;;
  ret n.

(** [for (const x of l) { f x }] *)
Fixpoint for_of `{Platform} {A} (l : list A) (f : A -> M unit) : M unit :=
  match l with
  | [] => ret tt
  | x :: rest => f x ;; for_of rest f
  end.

(** [if (x) { f x }] on a possibly null reference. *)
Definition when_some `{Platform} {A} (x : option A) (f : A -> M unit) : M unit :=
  match x with
  | Some a => f a
  | None => ret tt
  end.

(** [a < b] on numbers. *)
Definition js_lt (a b : Q) : bool := negb (Qle_bool b a).

Definition set_envelope (x : EnvelopeParams) (s : SynthParams) : SynthParams :=
  {| envelope := x; vibrato := vibrato s; tremolo := tremolo s;
     delay := delay s; maxNoteDuration := maxNoteDuration s |}.

Definition set_vibrato (x : VibratoParams) (s : SynthParams) : SynthParams :=
  {| envelope := envelope s; vibrato := x; tremolo := tremolo s;
     delay := delay s; maxNoteDuration := maxNoteDuration s |}.

Definition set_tremolo (x : TremoloParams) (s : SynthParams) : SynthParams :=
  {| envelope := envelope s; vibrato := vibrato s; tremolo := x;
     delay := delay s; maxNoteDuration := maxNoteDuration s |}.

Definition set_delay (x : DelayParams) (s : SynthParams) : SynthParams :=
  {| envelope := envelope s; vibrato := vibrato s; tremolo := tremolo s;
     delay := x; maxNoteDuration := maxNoteDuration s |}.

Definition set_maxNoteDuration (x : Q) (s : SynthParams) : SynthParams :=
  {| envelope := envelope s; vibrato := vibrato s; tremolo := tremolo s;
     delay := delay s; maxNoteDuration := x |}.

Section EngineMethods.
Context {P : Platform}.

(* ================================================================= *)
(** ** class PcsRelationGraph *)

(** [Math.floor(Math.random() * n)] for the draw [u]. *)
Definition random_index (u : Q) (n : Q) : Z := Qfloor (u * n).

(** The constructor draws the initial index. *)
Definition PcsRelationGraph_new (b : Backend) : PcsRelationGraph * Backend :=
  let ns := map Pcs12_fromBinaryString pcsGraphData_nodes in
  let (u, b') := draw b in
  ({| nodes := ns;
      adjacency := pcsGraphData_adjacency;
      currentIndex := Some (random_index u (js_length ns)) |}, b').

Definition current (g : PcsRelationGraph) : option Pcs12 :=
  match currentIndex g with
  | Some i => js_index (nodes g) i
  | None => None
  end.

Definition set_currentIndex (i : option Z) (g : PcsRelationGraph) : PcsRelationGraph :=
  {| nodes := nodes g; adjacency := adjacency g; currentIndex := i |}.

(** [advance()].  When [this.adjacency[this.currentIndex]] is undefined,
    reading its [length] throws. *)
Definition advance (g : PcsRelationGraph) (b : Backend)
  : Outcome PcsRelationGraph * Backend :=
  if (List.length (nodes g) =? 0)%nat then (Ok g, b)
  else
    match
      match currentIndex g with
      | Some i => js_index (adjacency g) i
      | None => None
      end
    with
    | None => (Throw "TypeError", b)
    | Some neighbors =>
        if (0 <? List.length neighbors)%nat then
          let (u, b') := draw b in
          (Ok (set_currentIndex
                 (js_index neighbors (random_index u (js_length neighbors))) g),
           b')
        else
          let (u, b') := draw b in
          (Ok (set_currentIndex
                 (Some (random_index u (js_length (nodes g)))) g),
           b')
    end.

(* ================================================================= *)
(** ** class MusicEngine: timing *)

Definition sixteenthSeconds (e : Engine) : Q := (60 / bpm e) / 4.

Definition barSeconds (e : Engine) : Q := 4 * (60 / bpm e).

Definition lambda (e : Engine) : Q := meanNotesPerBar e / barSeconds e.

Definition quantizeToSixteenth (e : Engine) (time : Q) : Q :=
  Math_ceil (time / sixteenthSeconds e) * sixteenthSeconds e.

Definition setLambda (meanNotesPerBar : Q) : M unit :=
  update (set_meanNotesPerBar meanNotesPerBar).

Definition setBpm (bpm : Q) : M unit :=
  update (set_bpm (Math_max 20 (Math_min 300 bpm))).

Definition getBpm : M Q := this bpm.

Definition getIsPlaying : M bool := this isPlaying.

Definition getSynthParams : M SynthParams := this synthParams.

Definition generateExponentialDelay : M Q :=
  u <- Math_random ;;
  l <- this lambda ;;
  ret (- Math_log (1 - u) / l).

Definition scheduleNextNote (currentTime : Q) : M unit :=
  d <- generateExponentialDelay ;;
  let deltaSeconds := Math_max 0.01 d in
  let target := currentTime + deltaSeconds in
  update (fun e => set_nextNoteTime (quantizeToSixteenth e target) e).

(* ================================================================= *)
(** ** class MusicEngine: media session and pitch classes *)

Definition setupMediaSession (b : Backend) : Backend :=
  if hasMediaSession b then set_log (MediaSessionSetup :: log b) b else b.

Definition updateMediaSessionState : M unit :=
  has <- backend hasMediaSession ;;
  if has : bool then
    playing <- this isPlaying ;;
    emit (MediaSessionPlaybackState playing)
  else ret tt.

(** The constructor and the field initialisers. *)
Definition MusicEngine_new (b : Backend) : World :=
  let (g, b') := PcsRelationGraph_new b in
  {| eng := {| audioContext := None; masterGain := None; reverbNode := None;
               delayNode := None; delayFeedbackGain := None;
               delayFilters := []; delayDryGain := None;
               delayWetGain := None; delayInputGain := None;
               isPlaying := false; pcsGraph := g;
               activePitchClasses := []; voices := [];
               nextNoteTime := 0; nextGraphHopTime := 0;
               schedulerId := None; synthParams := DEFAULT_SYNTH_PARAMS;
               bpm := DEFAULT_BPM;
               meanNotesPerBar := DEFAULT_MEAN_NOTES_PER_BAR;
               onChordChange := false; onNoteTriggered := false;
               onPlayStateChange := false |};
     env := setupMediaSession b' |}.

(** [this.pcsGraph.advance()] *)
Definition pcsGraph_advance : M unit :=
  fun w =>
    match advance (pcsGraph (eng w)) (env w) with
    | (Ok g, b) => (Ok tt, {| eng := set_pcsGraph g (eng w); env := b |})
    | (Throw e, b) => (Throw e, {| eng := eng w; env := b |})
    end.

(** [current()] of an empty graph is undefined, and calling
    [asSequence] on it throws. *)
Definition refreshPitchClasses : M unit :=
  g <- this pcsGraph ;;
  match current g with
  | None => throw "TypeError"
  | Some pcs =>
      update (set_activePitchClasses (asSequence pcs)) ;;
      cb <- this onChordChange ;;
      if cb : bool then emit (ChordChange (Pcs12_toString pcs)) else ret tt
  end.

(* ================================================================= *)
(** ** class MusicEngine: the delay effect *)

(** [param.setTargetAtTime(v, this.audioContext.currentTime, tc)] *)
Definition setTargetAtTime (n : NodeId) (p : AudioParam) (v tc : Q) : M unit :=
  now <- backend currentTime ;;
  emit (SetTargetAtTime n p v now tc).

(** The loop that creates the filter stages and pushes them on
    [this.delayFilters]. *)
Fixpoint createFilters (count : nat) (type : DelayFilterType)
    (frequency resonance : Q) : M unit :=
  match count with
  | O => ret tt
  | S k =>
      filter <- new_node CreateBiquadFilter ;;
      emit (SetFilterType filter type) ;;
      emit (SetValue filter frequency_param frequency) ;;
      emit (SetValue filter Q_param resonance) ;;
      update (fun e => set_delayFilters (delayFilters e ++ [filter]) e) ;;
      createFilters k type frequency resonance
  end.

(** [filters[i].connect(filters[i + 1])] for [i < filters.length - 1]. *)
Fixpoint connectCascade (filters : list NodeId) : M unit :=
  match filters with
  | a :: (b :: _) as rest => emit (Connect a b) ;; connectCascade rest
  | _ => ret tt
  end.

(** delayNode -> filters -> feedbackGain & wetGain *)
Definition connectFilters (delayNode feedbackGain wetGain : NodeId) : M unit :=
  filters <- this delayFilters ;;
  match filters with
  | first :: _ =>
      emit (Connect delayNode first) ;;
      connectCascade filters ;;
      let lastFilter := last filters first in
      emit (Connect lastFilter feedbackGain) ;;
      emit (Connect lastFilter wetGain)
  | [] =>
      emit (Connect delayNode feedbackGain) ;;
      emit (Connect delayNode wetGain)
  end.

Definition recreateDelayFilterChain (type : DelayFilterType)
    (frequency resonance numFilters : Q) : M unit :=
  ctx <- this audioContext ;;
  dn <- this delayNode ;;
  fb <- this delayFeedbackGain ;;
  wet <- this delayWetGain ;;
  match ctx, dn, fb, wet with
  | Some _, Some dn, Some fb, Some wet =>
      old <- this delayFilters ;;
      for_of old (fun filter => emit (Disconnect filter)) ;;
      update (set_delayFilters []) ;;
      createFilters (for_count numFilters) type frequency resonance ;;
      emit (Disconnect dn) ;;
      connectFilters dn fb wet
  | _, _, _, _ => ret tt
  end.

Definition updateDelayFilters (type : DelayFilterType)
    (frequency resonance order : Q) : M unit :=
  ctx <- this audioContext ;;
  match ctx with
  | None => ret tt
  | Some _ =>
      let numFilters := order / 6 in
      filters <- this delayFilters ;;
      if negb (Qeq_bool (js_length filters) numFilters) then
        recreateDelayFilterChain type frequency resonance numFilters
      else
        for_of filters (fun filter =>
          emit (SetFilterType filter type) ;;
          setTargetAtTime filter frequency_param frequency 0.05 ;;
          setTargetAtTime filter Q_param resonance 0.05)
  end.

Definition updateDelayParams : M unit :=
  ctx <- this audioContext ;;
  match ctx with
  | None => ret tt
  | Some _ =>
      d <- this (fun e => delay (synthParams e)) ;;
      dn <- this delayNode ;;
      when_some dn (fun n =>
        tempo <- this bpm ;;
        let delaySeconds := musicalDurationToSeconds (duration d) tempo in
        setTargetAtTime n delayTime_param delaySeconds 0.05) ;;
      fb <- this delayFeedbackGain ;;
      when_some fb (fun n =>
        setTargetAtTime n gain_param
          (if enabled d then Math_min (feedback d) 0.95 else 0) 0.05) ;;
      dry <- this delayDryGain ;;
      wet <- this delayWetGain ;;
      match dry, wet with
      | Some dry, Some wet =>
          setTargetAtTime dry gain_param
            (1 - (if enabled d then mix d else 0)) 0.05 ;;
          setTargetAtTime wet gain_param (if enabled d then mix d else 0) 0.05
      | _, _ => ret tt
      end ;;
      updateDelayFilters (filterType d) (filterFrequency d)
        (filterResonance d) (filterOrder d)
  end.

(** [Partial<SynthParams>] carries whole groups, so the spread
    [{ ...old, ...new }] of a group is the new group. *)
Definition setSynthParams (params : PartialSynthParams) : M unit :=
  when_some (p_envelope params) (fun x =>
    update (fun e => set_synthParams (set_envelope x (synthParams e)) e)) ;;
  when_some (p_vibrato params) (fun x =>
    update (fun e => set_synthParams (set_vibrato x (synthParams e)) e)) ;;
  when_some (p_tremolo params) (fun x =>
    update (fun e => set_synthParams (set_tremolo x (synthParams e)) e)) ;;
  when_some (p_delay params) (fun x =>
    update (fun e => set_synthParams (set_delay x (synthParams e)) e) ;;
    updateDelayParams) ;;
  when_some (p_maxNoteDuration params) (fun x =>
    update (fun e => set_synthParams (set_maxNoteDuration x (synthParams e)) e)).

Definition createDelayMixNode : M (option NodeId) :=
  ctx <- this audioContext ;;
  dry <- this delayDryGain ;;
  wet <- this delayWetGain ;;
  match ctx, dry, wet with
  | Some _, Some dry, Some wet =>
      mixNode <- new_node CreateGain ;;
      emit (SetValue mixNode gain_param 1.0) ;;
      emit (Connect dry mixNode) ;;
      emit (Connect wet mixNode) ;;
      ret (Some mixNode)
  | _, _, _ => ret None
  end.

Definition createDelayEffect : M unit :=
  ctx <- this audioContext ;;
  mg <- this masterGain ;;
  match ctx, mg with
  | Some _, Some mg =>
      d <- this (fun e => delay (synthParams e)) ;;
      tempo <- this bpm ;;
      let delaySeconds := musicalDurationToSeconds (duration d) tempo in
      dn <- new_node (fun n => CreateDelay n 5.0) ;;
      update (set_delayNode (Some dn)) ;;
      emit (SetValue dn delayTime_param delaySeconds) ;;
      fb <- new_node CreateGain ;;
      update (set_delayFeedbackGain (Some fb)) ;;
      emit (SetValue fb gain_param
              (if enabled d then Math_min (feedback d) 0.95 else 0)) ;;
      dry <- new_node CreateGain ;;
      update (set_delayDryGain (Some dry)) ;;
      wet <- new_node CreateGain ;;
      update (set_delayWetGain (Some wet)) ;;
      emit (SetValue dry gain_param (1 - (if enabled d then mix d else 0))) ;;
      emit (SetValue wet gain_param (if enabled d then mix d else 0)) ;;
      inp <- new_node CreateGain ;;
      update (set_delayInputGain (Some inp)) ;;
      emit (SetValue inp gain_param 1.0) ;;
      let numFilters := filterOrder d / 6 in
      update (set_delayFilters []) ;;
      createFilters (for_count numFilters) (filterType d)
        (filterFrequency d) (filterResonance d) ;;
      emit (Connect mg dry) ;;
      emit (Connect mg inp) ;;
      emit (Connect inp dn) ;;
      connectFilters dn fb wet ;;
      emit (Connect fb inp)
  | _, _ => ret tt
  end.

(** The reverb.  The samples of the impulse response are not modelled:
    building it makes [impulseDraws] calls of [Math.random()], and a
    failure is caught and yields [null]. *)
Definition createSimpleReverb : M (option NodeId) :=
  ctx <- this audioContext ;;
  match ctx with
  | None => ret None
  | Some _ =>
      try_catch
        (convolver <- new_node CreateConvolver ;;
         ok <- backend canCreateReverb ;;
         if ok : bool then
           update_backend (fun b => set_randomPos (randomPos b + impulseDraws b) b) ;;
           emit (SetImpulseBuffer convolver) ;;
           ret (Some convolver)
         else throw "Failed to create reverb")
        (fun _ => ret None)
  end.

(* ================================================================= *)
(** ** class MusicEngine: voices *)

Definition midiToFreq (midi : Q) : Q := 440 * Math_pow 2 ((midi - 69) / 12).

(** The callback of [this.voices.filter]: a finished voice is
    disconnected and dropped. *)
Definition keepVoice (now : Q) (voice : Voice) : M bool :=
  if js_lt (endTime voice) (now - 0.5) then
    when_some (oscillator voice) (fun o => emit (Disconnect o)) ;;
    when_some (gainNode voice) (fun g => emit (Disconnect g)) ;;
    ret false
  else ret true.

Fixpoint filterVoices (now : Q) (vs : list Voice) : M (list Voice) :=
  match vs with
  | [] => ret []
  | voice :: rest =>
      keep <- keepVoice now voice ;;
      rest' <- filterVoices now rest ;;
      ret (if keep : bool then voice :: rest' else rest')
  end.

Definition cleanupOldVoices : M unit :=
  ctx <- this audioContext ;;
  match ctx with
  | None => ret tt
  | Some _ =>
      now <- backend currentTime ;;
      vs <- this voices ;;
      kept <- filterVoices now vs ;;
      update (set_voices kept)
  end.

(** Silencing a voice:
    [if (v.oscillator) { v.oscillator.stop(); v.oscillator.disconnect(); }
     if (v.gainNode) { v.gainNode.disconnect(); }].
    The surrounding [try] guards calls that do not throw on nodes the
    engine has started. *)
Definition silenceVoice (voice : Voice) : M unit :=
  when_some (oscillator voice) (fun o =>
    emit (StopNow o) ;;
    emit (Disconnect o)) ;;
  when_some (gainNode voice) (fun g => emit (Disconnect g)).

(** [this.voices.shift()] and the release of the voice it returns. *)
Definition evictOldest : M unit :=
  vs <- this voices ;;
  match vs with
  | [] => ret tt
  | oldest :: rest =>
      update (set_voices rest) ;;
      silenceVoice oldest
  end.

(** "Limit active voices" *)
Definition limitVoices : M unit :=
  vs <- this voices ;;
  if (MAX_VOICES <=? List.length vs)%nat then evictOldest else ret tt.

(** The rest of [triggerNote]: the nodes of the new voice, their
    schedule, and the tracking of the voice. *)
Definition synthesizeVoice (mg : NodeId) (frequency when duration : Q) : M unit :=
  adsr <- this (fun e => envelope (synthParams e)) ;;
  vib <- this (fun e => vibrato (synthParams e)) ;;
  trem <- this (fun e => tremolo (synthParams e)) ;;
  (* main oscillator *)
  oscillator <- new_node CreateOscillator ;;
  emit (SetOscillatorSine oscillator) ;;
  emit (SetValueAtTime oscillator frequency_param frequency when) ;;
  (* vibrato *)
  vibratoLFO <- new_node CreateOscillator ;;
  vibratoGain <- new_node CreateGain ;;
  emit (SetOscillatorSine vibratoLFO) ;;
  emit (SetValueAtTime vibratoLFO frequency_param (vibratoRate vib) when) ;;
  emit (SetValueAtTime vibratoGain gain_param
          (frequency * vibratoDepth vib) when) ;;
  emit (Connect vibratoLFO vibratoGain) ;;
  emit (ConnectParam vibratoGain oscillator frequency_param) ;;
  (* tremolo *)
  tremoloLFO <- new_node CreateOscillator ;;
  tremoloGain <- new_node CreateGain ;;
  tremoloDepthNode <- new_node CreateGain ;;
  emit (SetOscillatorSine tremoloLFO) ;;
  emit (SetValueAtTime tremoloLFO frequency_param (tremoloRate trem) when) ;;
  emit (SetValueAtTime tremoloGain gain_param
          (1 - tremoloDepth trem / 2) when) ;;
  emit (SetValueAtTime tremoloDepthNode gain_param
          (tremoloDepth trem / 2) when) ;;
  emit (Connect tremoloLFO tremoloDepthNode) ;;
  (* envelope *)
  envelopeGain <- new_node CreateGain ;;
  emit (SetValueAtTime envelopeGain gain_param 0 when) ;;
  let peakTime := when + attack adsr in
  let decayEndTime := peakTime + decay adsr in
  let releaseStartTime := when + duration in
  let releaseEndTime := releaseStartTime + release adsr in
  emit (LinearRampToValueAtTime envelopeGain gain_param 0.3 peakTime) ;;
  emit (LinearRampToValueAtTime envelopeGain gain_param
          (0.3 * sustain adsr) decayEndTime) ;;
  emit (SetValueAtTime envelopeGain gain_param
          (0.3 * sustain adsr) releaseStartTime) ;;
  emit (LinearRampToValueAtTime envelopeGain gain_param 0 releaseEndTime) ;;
  (* oscillator -> envelope -> tremolo mix -> master *)
  emit (Connect oscillator envelopeGain) ;;
  emit (Connect envelopeGain tremoloGain) ;;
  emit (ConnectParam tremoloDepthNode tremoloGain gain_param) ;;
  emit (Connect tremoloGain mg) ;;
  emit (StartAt oscillator when) ;;
  emit (StartAt vibratoLFO when) ;;
  emit (StartAt tremoloLFO when) ;;
  emit (StopAt oscillator (releaseEndTime + 0.1)) ;;
  emit (StopAt vibratoLFO (releaseEndTime + 0.1)) ;;
  emit (StopAt tremoloLFO (releaseEndTime + 0.1)) ;;
  (* track the voice *)
  update (fun e =>
    set_voices (voices e ++
                [ {| oscillator := Some oscillator;
                     gainNode := Some envelopeGain;
                     startTime := when;
                     endTime := releaseEndTime |} ]) e).

Definition triggerNote (frequency when duration : Q) : M unit :=
  ctx <- this audioContext ;;
  mg <- this masterGain ;;
  match ctx, mg with
  | Some _, Some mg =>
      cleanupOldVoices ;;
      limitVoices ;;
      synthesizeVoice mg frequency when duration
  | _, _ => ret tt
  end.

(** A draw of [Math.random()] lies in [0, 1), so the index into
    [activePitchClasses] is in range; an index out of range would give
    an undefined pitch class, a frequency that is not a number, and a
    [TypeError] from the oscillator. *)
Definition triggerRandomNote (whenTime : Q) : M unit :=
  pcs <- this activePitchClasses ;;
  if (List.length pcs =? 0)%nat then ret tt
  else
    u1 <- Math_random ;;
    match js_index pcs (random_index u1 (js_length pcs)) with
    | None => throw "TypeError"
    | Some pitchClass =>
        u2 <- Math_random ;;
        let octave :=
          OCTAVE_MIN + Math_floor (u2 * (OCTAVE_MAX - OCTAVE_MIN + 1)) in
        let midi := octave * 12 + inject_Z pitchClass in
        let frequency := midiToFreq midi in
        u3 <- Math_random ;;
        maxDuration <- this (fun e => maxNoteDuration (synthParams e)) ;;
        let duration := maxDuration * (0.5 + u3 * 0.5) in
        triggerNote frequency whenTime duration ;;
        cb <- this onNoteTriggered ;;
        if cb : bool then emit (NoteTriggered pitchClass) else ret tt
    end.

(* ================================================================= *)
(** ** class MusicEngine: the scheduler *)

(** The [while] loop of the scheduler; [remaining] is
    [3 - notesTriggered]. *)
Fixpoint noteLoop (remaining : nat) (currentTime lookAhead : Q) : M unit :=
  match remaining with
  | O => ret tt
  | S k =>
      next <- this nextNoteTime ;;
      if Qle_bool next (currentTime + lookAhead) then
        let noteTime := Math_max next (currentTime + 0.02) in
        emit (CallTriggerRandomNote noteTime) ;;
        triggerRandomNote noteTime ;;
        next' <- this nextNoteTime ;;
        scheduleNextNote next' ;;
        noteLoop k currentTime lookAhead
      else ret tt
  end.

(** [window.setTimeout(() => this.scheduler(), ms)] *)
Definition setTimeout (ms : Q) : M TimerId :=
  id <- backend nextTimerId ;;
  update_backend (set_nextTimerId (S id)) ;;
  emit (SetTimeout id ms) ;;
  ret id.

Definition scheduler : M unit :=
  playing <- this isPlaying ;;
  ctx <- this audioContext ;;
  match playing, ctx with
  | true, Some _ =>
      currentTime <- backend currentTime ;;
      let lookAhead := 0.2 in
      hop <- this nextGraphHopTime ;;
      (if Qle_bool (hop - lookAhead) currentTime then
         pcsGraph_advance ;;
         refreshPitchClasses ;;
         update (fun e =>
           set_nextGraphHopTime
             (nextGraphHopTime e + barSeconds e * BARS_PER_CHANGE) e)
       else ret tt) ;;
      noteLoop 3 currentTime lookAhead ;;
      id <- setTimeout 50 ;;
      update (set_schedulerId (Some id))
  | _, _ => ret tt
  end.

(* ================================================================= *)
(** ** class MusicEngine: start, stop, toggle *)

(** [if (this.x) { try { this.x.disconnect(); } catch (e) {} this.x = null; }] *)
Definition releaseNode (field : Engine -> option NodeId)
    (clear : Engine -> Engine) : M unit :=
  x <- this field ;;
  when_some x (fun n => emit (Disconnect n) ;; update clear).

(** [stop()], statement by statement. *)
Definition stop : M unit :=
  update (set_isPlaying false) ;;
  (id <- this schedulerId ;;
   when_some id (fun id =>
     emit (ClearTimeout id) ;;
     update (set_schedulerId None))) ;;
  (vs <- this voices ;;
   for_of vs silenceVoice) ;;
  update (set_voices []) ;;
  releaseNode masterGain (set_masterGain None) ;;
  releaseNode delayNode (set_delayNode None) ;;
  releaseNode delayFeedbackGain (set_delayFeedbackGain None) ;;
  releaseNode delayDryGain (set_delayDryGain None) ;;
  releaseNode delayWetGain (set_delayWetGain None) ;;
  releaseNode delayInputGain (set_delayInputGain None) ;;
  (filters <- this delayFilters ;;
   for_of filters (fun filter => emit (Disconnect filter))) ;;
  update (set_delayFilters []) ;;
  releaseNode reverbNode (set_reverbNode None) ;;
  (ctx <- this audioContext ;;
   st <- backend contextState ;;
   match ctx, st with
   | Some _, running => emit SuspendContext
   | _, _ => ret tt
   end) ;;
  updateMediaSessionState ;;
  (cb <- this onPlayStateChange ;;
   if cb : bool then emit (PlayStateChange false) else ret tt).

(** [new AudioContext()] and [await this.audioContext.resume()].  The
    code names no error: when the platform throws in one of the two
    calls ([contextError], [resumeError] of the backend), the exception
    is the platform's. *)
Definition acquireContext : M unit :=
  ctx <- this audioContext ;;
  match ctx with
  | Some _ => ret tt
  | None =>
      failure <- backend contextError ;;
      match failure with
      | None =>
          emit NewAudioContext ;;
          update (set_audioContext (Some the_audioContext))
      | Some e => throw e
      end
  end ;;
  st <- backend contextState ;;
  match st with
  | suspended =>
      failure <- backend resumeError ;;
      match failure with
      | None =>
          emit ResumeContext ;;
          update_backend (set_contextState running)
      | Some e => throw e
      end
  | _ => ret tt
  end.

(** The effect chain: master gain, delay, reverb and the path to the
    destination. *)
Definition buildAudioChain : M unit :=
  mg <- new_node CreateGain ;;
  update (set_masterGain (Some mg)) ;;
  emit (SetValue mg gain_param 0.5) ;;
  createDelayEffect ;;
  rv <- createSimpleReverb ;;
  update (set_reverbNode rv) ;;
  dry <- this delayDryGain ;;
  wet <- this delayWetGain ;;
  signalSource <-
    match dry, wet with
    | Some _, Some _ => createDelayMixNode
    | _, _ => ret (Some mg)
    end ;;
  match rv, signalSource with
  | Some rv, Some src =>
      dryGain <- new_node CreateGain ;;
      wetGain <- new_node CreateGain ;;
      emit (SetValue dryGain gain_param 0.7) ;;
      emit (SetValue wetGain gain_param 0.3) ;;
      emit (Connect src dryGain) ;;
      emit (Connect src rv) ;;
      emit (Connect rv wetGain) ;;
      emit (ConnectDestination dryGain) ;;
      emit (ConnectDestination wetGain)
  | None, Some src => emit (ConnectDestination src)
  | _, None => ret tt
  end.

(** "Set initial timing". *)
Definition setInitialTiming : M unit :=
  startTime <- backend currentTime ;;
  update (set_nextNoteTime (startTime + 0.1)) ;;
  update (fun e =>
    set_nextGraphHopTime (startTime + barSeconds e * BARS_PER_CHANGE) e) ;;
  scheduleNextNote startTime.

(** The body of [start()] up to, and without, its last statement
    [this.scheduler()]. *)
Definition startUp : M unit :=
  acquireContext ;;
  buildAudioChain ;;
  refreshPitchClasses ;;
  setInitialTiming ;;
  update (set_isPlaying true) ;;
  updateMediaSessionState ;;
  cb <- this onPlayStateChange ;;
  if cb : bool then emit (PlayStateChange true) else ret tt.

Definition start : M unit :=
  playing <- this isPlaying ;;
  if playing : bool then ret tt
  else
    try_catch
      (startUp ;; scheduler)
      (fun error => stop ;; throw error).

Definition toggle : M unit :=
  playing <- this isPlaying ;;
  if playing : bool then stop else start.

End EngineMethods.

(* ================================================================= *)
(** ** A platform and worlds to run the engine on *)

(** Pitch-class sets as the list of their members; the nodes of the
    graph data are binary strings whose character [i] tells whether
    pitch class [i] is present. *)
Fixpoint membersFrom (i : Z) (s : string) : list Z :=
  match s with
  | EmptyString => []
  | String c rest =>
      if Ascii.eqb c "1"%char then i :: membersFrom (i + 1) rest
      else membersFrom (i + 1) rest
  end.

(** Rational stand-ins for the transcendental functions: [x - 1] agrees
    with the logarithm at [1], and the integer power with the power
    function at integer exponents. *)
Definition exampleLog (x : Q) : Q := x - 1.
Definition examplePow (b x : Q) : Q := Qpower b (Qfloor x).

(** Two nodes, a C major triad and a C minor triad, each the other's
    neighbour. *)
Definition examplePlatform : Platform := {|
  Pcs12 := list Z;
  Pcs12_fromBinaryString := membersFrom 0;
  asSequence := fun s => s;
  Pcs12_toString := fun _ => "pcs";
  pcsGraphData_nodes := [ "100010010000"; "100100010000" ];
  pcsGraphData_adjacency := [ [1%Z]; [0%Z] ];
  Math_log := exampleLog;
  Math_pow := examplePow
|}.

(** The same with an empty graph. *)
Definition emptyPlatform : Platform := {|
  Pcs12 := list Z;
  Pcs12_fromBinaryString := membersFrom 0;
  asSequence := fun s => s;
  Pcs12_toString := fun _ => "pcs";
  pcsGraphData_nodes := [];
  pcsGraphData_adjacency := [];
  Math_log := exampleLog;
  Math_pow := examplePow
|}.

(** A backend whose clock reads [now] and whose random source always
    returns [u]. *)
Definition exampleBackend (now u : Q) : Backend := {|
  currentTime := now;
  contextState := suspended;
  randomSource := fun _ => u;
  randomPos := 0%nat;
  nextNodeId := 0%nat;
  nextTimerId := 0%nat;
  hasMediaSession := true;
  contextError := None;
  resumeError := None;
  canCreateReverb := true;
  impulseDraws := 0%nat;
  log := []
|}.

(** A freshly constructed engine. *)
Definition freshWorld (now u : Q) : @World examplePlatform :=
  @MusicEngine_new examplePlatform (exampleBackend now u).

(** A freshly constructed engine over the empty graph. *)
Definition emptyWorld (now u : Q) : @World emptyPlatform :=
  @MusicEngine_new emptyPlatform (exampleBackend now u).

(** The state a computation leaves, and its outcome. *)
Definition after `{Platform} {A} (c : M A) (w : World) : World := snd (c w).
Definition outcome `{Platform} {A} (c : M A) (w : World) : Outcome A := fst (c w).

(** [c] run [n] times. *)
Fixpoint repeatM `{Platform} (n : nat) (c : M unit) : M unit :=
  match n with
  | O => ret tt
  | S k => c ;; repeatM k c
  end.

(** The engine of [freshWorld] once [start()] has prepared playback. *)
Definition startedWorld (now u : Q) : @World examplePlatform :=
  after (@startUp examplePlatform) (freshWorld now u).

(** A pool of 32 voices that all sound until 2.82 s, at clock time 0. *)
Definition fullWorld : @World examplePlatform :=
  after (repeatM 32 (@triggerNote examplePlatform 440 0.02 1))
    (startedWorld 0 0).

(** A pool of 32 voices at clock time 10: the second one was short and
    finished at 2.82 s, all others sound until 101.82 s. *)
Definition staleWorld : @World examplePlatform :=
  let w := after (@triggerNote examplePlatform 440 0.02 100 ;;
                  @triggerNote examplePlatform 440 0.02 1 ;;
                  repeatM 30 (@triggerNote examplePlatform 440 0.02 100))
             (startedWorld 0 0) in
  {| eng := eng w; env := set_currentTime 10 (env w) |}.

(** Whether the log holds a [stop()] call on the oscillator [o]. *)
Definition stopped_in_log (o : NodeId) (l : list Command) : bool :=
  existsb (fun c => match c with
                    | StopNow n => Nat.eqb n o
                    | _ => false
                    end) l.

(** "b clamped to the range [lo, hi]". *)
Definition clamp (lo hi b : Q) : Q :=
  if js_lt b lo then lo else if js_lt hi b then hi else b.

(** [x] is a whole multiple of [step]. *)
Definition multiple_of (step x : Q) : Prop :=
  exists k : Z, x == inject_Z k * step.

(** Spec-side vocabulary for the graph. *)
Definition valid_index `{Platform} (g : PcsRelationGraph) : Prop :=
  exists i, currentIndex g = Some i /\
            (0 <= i < Z.of_nat (List.length (nodes g)))%Z.

(** The data is well formed: one neighbour list per node, and every
    neighbour is the index of a node. *)
Definition well_formed `{Platform} (g : PcsRelationGraph) : Prop :=
  List.length (adjacency g) = List.length (nodes g) /\
  forall neighbors v, In neighbors (adjacency g) -> In v neighbors ->
    (0 <= v < Z.of_nat (List.length (nodes g)))%Z.

(** [Math.floor(u * n)] hits the index [k] exactly on the interval
    [[k/n, (k+1)/n)]: the [n] indices get intervals of equal length. *)
Definition equal_shares (u : Q) (n : nat) : Prop :=
  forall k : Z, (0 <= k < Z.of_nat n)%Z ->
    (random_index u (inject_Z (Z.of_nat n)) = k <->
     inject_Z k / inject_Z (Z.of_nat n) <= u /\
     u < inject_Z (k + 1) / inject_Z (Z.of_nat n)).

(** The Stopped state of an engine: not playing, no timer, no tracked
    voice, no effect node; everything else as it was. *)
Definition stopped `{Platform} (e : Engine) : Engine :=
  {| audioContext := audioContext e; masterGain := None; reverbNode := None;
     delayNode := None; delayFeedbackGain := None; delayFilters := [];
     delayDryGain := None; delayWetGain := None; delayInputGain := None;
     isPlaying := false; pcsGraph := pcsGraph e;
     activePitchClasses := activePitchClasses e; voices := [];
     nextNoteTime := nextNoteTime e; nextGraphHopTime := nextGraphHopTime e;
     schedulerId := None; synthParams := synthParams e; bpm := bpm e;
     meanNotesPerBar := meanNotesPerBar e; onChordChange := onChordChange e;
     onNoteTriggered := onNoteTriggered e;
     onPlayStateChange := onPlayStateChange e |}.

(** The commands of releasing a node and of silencing a voice, newest
    first. *)
Definition release_cmds (x : option NodeId) : list Command :=
  match x with
  | Some n => [Disconnect n]
  | None => []
  end.

Definition silence_cmds (v : Voice) : list Command :=
  (release_cmds (gainNode v) ++
   match oscillator v with
   | Some o => [Disconnect o; StopNow o]
   | None => []
   end)%list.

(** Everything [stop()] sends to the backend and to the callbacks,
    newest first. *)
Definition stop_commands `{Platform} (e : Engine) (b : Backend) : list Command :=
  ((if onPlayStateChange e then [PlayStateChange false] else []) ++
   (if hasMediaSession b then [MediaSessionPlaybackState false] else []) ++
   match audioContext e, contextState b with
   | Some _, running => [SuspendContext]
   | _, _ => []
   end ++
   release_cmds (reverbNode e) ++
   map Disconnect (rev (delayFilters e)) ++
   release_cmds (delayInputGain e) ++
   release_cmds (delayWetGain e) ++
   release_cmds (delayDryGain e) ++
   release_cmds (delayFeedbackGain e) ++
   release_cmds (delayNode e) ++
   release_cmds (masterGain e) ++
   flat_map silence_cmds (rev (voices e)) ++
   match schedulerId e with
   | Some id => [ClearTimeout id]
   | None => []
   end)%list.

(** [c] returns normally, changes the engine by [f] and logs [g], which
    does not depend on what was logged before. *)
Definition step `{Platform} (c : M unit) (f : Engine -> Engine)
    (g : Engine -> Backend -> list Command) : Prop :=
  (forall e l b, g e (set_log l b) = g e b) /\
  forall w, c w = (Ok tt, {| eng := f (eng w);
                             env := set_log (g (eng w) (env w) ++ log (env w))
                                      (env w) |}).

(** The world [w] with [cmds] logged. *)
Definition logged `{Platform} (cmds : list Command) (w : World) : World :=
  {| eng := eng w; env := set_log (cmds ++ log (env w)) (env w) |}.

(** A voice [cleanupOldVoices] keeps at clock time [now], and the
    commands of dropping one it does not keep. *)
Definition alive (now : Q) (v : Voice) : bool :=
  negb (js_lt (endTime v) (now - 0.5)).

Definition cleanup_cmds (now : Q) (v : Voice) : list Command :=
  if alive now v then []
  else (release_cmds (gainNode v) ++ release_cmds (oscillator v))%list.

Definition newVoice (n : NodeId) (when duration rel : Q) : Voice :=
  {| oscillator := Some n;
     gainNode := Some (6 + n)%nat;
     startTime := when;
     endTime := when + duration + rel |}.

Definition voice_commands (sp : SynthParams) (mg n : NodeId)
    (frequency when duration : Q) : list Command :=
  let oscillator := n in
  let vibratoLFO := (1 + n)%nat in
  let vibratoGain := (2 + n)%nat in
  let tremoloLFO := (3 + n)%nat in
  let tremoloGain := (4 + n)%nat in
  let tremoloDepthNode := (5 + n)%nat in
  let envelopeGain := (6 + n)%nat in
  let adsr := envelope sp in
  let releaseEndTime := when + duration + release adsr in
  rev
    [ CreateOscillator oscillator;
      SetOscillatorSine oscillator;
      SetValueAtTime oscillator frequency_param frequency when;
      CreateOscillator vibratoLFO;
      CreateGain vibratoGain;
      SetOscillatorSine vibratoLFO;
      SetValueAtTime vibratoLFO frequency_param (vibratoRate (vibrato sp)) when;
      SetValueAtTime vibratoGain gain_param
        (frequency * vibratoDepth (vibrato sp)) when;
      Connect vibratoLFO vibratoGain;
      ConnectParam vibratoGain oscillator frequency_param;
      CreateOscillator tremoloLFO;
      CreateGain tremoloGain;
      CreateGain tremoloDepthNode;
      SetOscillatorSine tremoloLFO;
      SetValueAtTime tremoloLFO frequency_param (tremoloRate (tremolo sp)) when;
      SetValueAtTime tremoloGain gain_param
        (1 - tremoloDepth (tremolo sp) / 2) when;
      SetValueAtTime tremoloDepthNode gain_param
        (tremoloDepth (tremolo sp) / 2) when;
      Connect tremoloLFO tremoloDepthNode;
      CreateGain envelopeGain;
      SetValueAtTime envelopeGain gain_param 0 when;
      LinearRampToValueAtTime envelopeGain gain_param 0.3 (when + attack adsr);
      LinearRampToValueAtTime envelopeGain gain_param (0.3 * sustain adsr)
        (when + attack adsr + decay adsr);
      SetValueAtTime envelopeGain gain_param (0.3 * sustain adsr)
        (when + duration);
      LinearRampToValueAtTime envelopeGain gain_param 0 releaseEndTime;
      Connect oscillator envelopeGain;
      Connect envelopeGain tremoloGain;
      ConnectParam tremoloDepthNode tremoloGain gain_param;
      Connect tremoloGain mg;
      StartAt oscillator when;
      StartAt vibratoLFO when;
      StartAt tremoloLFO when;
      StopAt oscillator (releaseEndTime + 0.1);
      StopAt vibratoLFO (releaseEndTime + 0.1);
      StopAt tremoloLFO (releaseEndTime + 0.1) ].

(** Partial updates that carry a delay group only. *)
Definition delayUpdate (d : DelayParams) : PartialSynthParams :=
  {| p_envelope := None; p_vibrato := None; p_tremolo := None;
     p_delay := Some d; p_maxNoteDuration := None |}.

Definition steepDelay : DelayParams :=
  {| enabled := true; duration := "1/8"; feedback := 0.25; mix := 0.4;
     filterType := lowpass; filterFrequency := 1000; filterResonance := 1.0;
     filterOrder := 24 |}.

Definition highpassDelay : DelayParams :=
  {| enabled := false; duration := "1/4"; feedback := 0.4; mix := 0.3;
     filterType := highpass; filterFrequency := 500; filterResonance := 2;
     filterOrder := 12 |}.

(** The commands of building the filter stages [n], ..., [n + count - 1],
    of chaining a cascade and of wiring it between the delay line and
    the feedback and wet gains; newest first. *)
Definition filter_cmds (type : DelayFilterType) (frequency resonance : Q)
    (n : NodeId) (count : nat) : list Command :=
  flat_map (fun filter =>
              [ SetValue filter Q_param resonance;
                SetValue filter frequency_param frequency;
                SetFilterType filter type;
                CreateBiquadFilter filter ])
           (rev (seq n count)).

Fixpoint cascade_cmds (filters : list NodeId) : list Command :=
  match filters with
  | a :: (b :: _) as rest => cascade_cmds rest ++ [Connect a b]
  | _ => []
  end.

Definition connect_cmds (delayNode feedbackGain wetGain : NodeId)
    (filters : list NodeId) : list Command :=
  match filters with
  | first :: _ =>
      [ Connect (last filters first) wetGain;
        Connect (last filters first) feedbackGain ] ++
      cascade_cmds filters ++ [Connect delayNode first]
  | [] => [ Connect delayNode wetGain; Connect delayNode feedbackGain ]
  end.

(** The commands of retuning the stages in place at clock time [now]. *)
Definition retune_cmds (type : DelayFilterType) (frequency resonance now : Q)
    (filters : list NodeId) : list Command :=
  flat_map (fun filter =>
              [ SetTargetAtTime filter Q_param resonance now 0.05;
                SetTargetAtTime filter frequency_param frequency now 0.05;
                SetFilterType filter type ])
           (rev filters).

(** The smoothed updates of delay time, feedback and dry/wet mix. *)
Definition delay_param_cmds `{Platform} (e : Engine) (now : Q) : list Command :=
  let d := delay (synthParams e) in
  match delayDryGain e, delayWetGain e with
  | Some dry, Some wet =>
      [ SetTargetAtTime wet gain_param (if enabled d then mix d else 0) now 0.05;
        SetTargetAtTime dry gain_param
          (1 - (if enabled d then mix d else 0)) now 0.05 ]
  | _, _ => []
  end ++
  match delayFeedbackGain e with
  | Some n =>
      [ SetTargetAtTime n gain_param
          (if enabled d then Math_min (feedback d) 0.95 else 0) now 0.05 ]
  | None => []
  end ++
  match delayNode e with
  | Some n =>
      [ SetTargetAtTime n delayTime_param
          (musicalDurationToSeconds (duration d) (bpm e)) now 0.05 ]
  | None => []
  end.

(** The parameters after a partial update. *)
Definition merge_params (p : PartialSynthParams) (s : SynthParams) : SynthParams :=
  let s1 := match p_envelope p with Some x => set_envelope x s | None => s end in
  let s2 := match p_vibrato p with Some x => set_vibrato x s1 | None => s1 end in
  let s3 := match p_tremolo p with Some x => set_tremolo x s2 | None => s2 end in
  let s4 := match p_delay p with Some x => set_delay x s3 | None => s3 end in
  match p_maxNoteDuration p with Some x => set_maxNoteDuration x s4 | None => s4 end.

(** Everything a delay update sends to the backend when it rebuilds
    the cascade with [k] stages from node [n] on, and when it retunes
    the stages in place; newest first.  [e] is the engine with the
    merged parameters. *)
Definition rebuild_cmds `{Platform} (e : Engine) (now : Q) (dn fb wet : NodeId)
    (n : NodeId) (k : nat) : list Command :=
  let d := delay (synthParams e) in
  connect_cmds dn fb wet (seq n k) ++
  Disconnect dn ::
  filter_cmds (filterType d) (filterFrequency d) (filterResonance d) n k ++
  map Disconnect (rev (delayFilters e)) ++
  delay_param_cmds e now.

Definition retune_all_cmds `{Platform} (e : Engine) (now : Q) : list Command :=
  let d := delay (synthParams e) in
  retune_cmds (filterType d) (filterFrequency d) (filterResonance d) now
    (delayFilters e) ++
  delay_param_cmds e now.

(** The number of filter stages of a filter order, and the orders the
    engine supports. *)
Definition stage_count (order : Q) : nat := for_count (order / 6).

Definition supported_order (order : Q) : Prop :=
  order == 6 \/ order == 12 \/ order == 24.

(** The delay effect is built and its cascade has the stage count of
    the current filter order. *)
Definition chain_built `{Platform} (w : World) : Prop :=
  exists ctx dn fb wet,
    audioContext (eng w) = Some ctx /\
    delayNode (eng w) = Some dn /\
    delayFeedbackGain (eng w) = Some fb /\
    delayWetGain (eng w) = Some wet /\
    js_length (delayFilters (eng w))
      == filterOrder (delay (synthParams (eng w))) / 6.

(** Everything [createDelayEffect] sends to the backend when the first
    node it creates is [n]; newest first. *)
Definition delay_effect_cmds `{Platform} (e : Engine) (mg n : NodeId)
  : list Command :=
  let d := delay (synthParams e) in
  let dn := n in
  let fb := (1 + n)%nat in
  let dry := (2 + n)%nat in
  let wet := (3 + n)%nat in
  let inp := (4 + n)%nat in
  let k := stage_count (filterOrder d) in
  (Connect fb inp ::
   connect_cmds dn fb wet (seq (5 + n)%nat k) ++
   [ Connect inp dn; Connect mg inp; Connect mg dry ]) ++
  filter_cmds (filterType d) (filterFrequency d) (filterResonance d)
    (5 + n)%nat k ++
  [ SetValue inp gain_param 1.0;
    CreateGain inp;
    SetValue wet gain_param (if enabled d then mix d else 0);
    SetValue dry gain_param (1 - (if enabled d then mix d else 0));
    CreateGain wet;
    CreateGain dry;
    SetValue fb gain_param (if enabled d then Math_min (feedback d) 0.95 else 0);
    CreateGain fb;
    SetValue dn delayTime_param (musicalDurationToSeconds (duration d) (bpm e));
    CreateDelay dn 5.0 ].

(** The connections among [cmds] wire [filters] as a cascade between
    the delay node and the two gains: the delay node feeds the first
    stage, every stage feeds the next one, and the last stage feeds the
    feedback gain and the wet gain; without stages the delay node feeds
    the two gains directly. *)
Definition cascade_wired (dn fb wet : NodeId) (filters : list NodeId)
    (cmds : list Command) : Prop :=
  (forall first, hd_error filters = Some first -> In (Connect dn first) cmds) /\
  (forall i a b,
     nth_error filters i = Some a -> nth_error filters (S i) = Some b ->
     In (Connect a b) cmds) /\
  (forall l, nth_error filters (Nat.pred (List.length filters)) = Some l ->
     In (Connect l fb) cmds /\ In (Connect l wet) cmds) /\
  (filters = [] -> In (Connect dn fb) cmds /\ In (Connect dn wet) cmds).

Definition is_connect (c : Command) : bool :=
  match c with
  | Connect _ _ => true
  | _ => false
  end.

(** Commands that retune a node without touching the graph. *)
Definition is_tuning (c : Command) : bool :=
  match c with
  | SetTargetAtTime _ _ _ _ _ | SetFilterType _ _ => true
  | _ => false
  end.

(* ================================================================= *)
(** * Vocabulary of the scheduling claims *)

(** The onset times the scheduler passed to [triggerRandomNote], read
    off a log: newest first, and in the order of the calls. *)
Fixpoint onsetsOf (l : list Command) : list Q :=
  match l with
  | [] => []
  | CallTriggerRandomNote t :: rest => t :: onsetsOf rest
  | _ :: rest => onsetsOf rest
  end.

Definition onsetTimes `{Platform} (w : World) : list Q :=
  rev (onsetsOf (log (env w))).

Definition is_onset (c : Command) : bool :=
  match c with
  | CallTriggerRandomNote _ => true
  | _ => false
  end.

(** What a method that neither schedules nor reads the clock leaves
    alone: tempo, note rate, play state, the scheduled times, the clock,
    the random source and the onsets logged so far. *)
Definition steady `{Platform} (w w' : World) : Prop :=
  bpm (eng w') = bpm (eng w) /\
  meanNotesPerBar (eng w') = meanNotesPerBar (eng w) /\
  isPlaying (eng w') = isPlaying (eng w) /\
  nextNoteTime (eng w') = nextNoteTime (eng w) /\
  currentTime (env w') = currentTime (env w) /\
  randomSource (env w') = randomSource (env w) /\
  onsetsOf (log (env w')) = onsetsOf (log (env w)).

Definition steady_frame `{Platform} {A} (c : M A) : Prop :=
  forall w, steady w (after c w).

(** The timer fires when the clock reads [clock]. *)
Definition tick `{Platform} (clock : Q) : M unit :=
  update_backend (set_currentTime clock) ;; scheduler.

(** A session of live playback: [start()], whose last statement is the
    first run of the scheduler, and then the runs of the scheduler at
    the clock readings [clocks]. *)
Definition session `{Platform} (clocks : list Q) : M unit :=
  start ;; for_of clocks tick.

(** The playback clock never runs backwards. *)
Fixpoint clock_advances (now : Q) (clocks : list Q) : Prop :=
  match clocks with
  | [] => True
  | c :: rest => now <= c /\ clock_advances c rest
  end.

(** A list of times in which no time is followed by a smaller one,
    resp. by a larger one. *)
Fixpoint non_decreasing (l : list Q) : Prop :=
  match l with
  | [] => True
  | a :: rest => (forall b, In b rest -> a <= b) /\ non_decreasing rest
  end.

Fixpoint non_increasing (l : list Q) : Prop :=
  match l with
  | [] => True
  | a :: rest => (forall b, In b rest -> b <= a) /\ non_increasing rest
  end.

(** An onset as the scheduler computes it: the scheduled grid time [g],
    or 20 ms after the clock reading [c] of the run when that is later. *)
Definition scheduled (grid : Q) (clocks : list Q) (onset : Q) : Prop :=
  exists g c, multiple_of grid g /\ In c clocks /\
              onset = Math_max g (c + 0.02).

(** [g'] is a next note time that [scheduleNextNote(g)] stores: the
    quantized time of [g] plus a drawn exponential delay, the delay
    being at least 10 ms. *)
Definition rescheduled `{Platform} (e : Engine) (draws : nat -> Q) (g g' : Q)
  : Prop :=
  exists k : nat,
    g' = quantizeToSixteenth e
           (g + Math_max 0.01 (- Math_log (1 - draws k) / lambda e)).

(** The note loop of one scheduler run at the clock reading [c]:
    [run_onsets e draws c n g os r] says that the run, entered with
    [nextNoteTime = g] and [n] more notes allowed, passes the onsets
    [os] to [triggerRandomNote], in this order.  The loop ends when
    three notes are triggered or when the next note time is more than
    200 ms ahead of the clock, and [r] is then the [nextNoteTime] it
    leaves; otherwise it triggers the note at [Math.max(g, c + 0.02)],
    where [g] is a grid time, and reschedules from [g].  When
    [triggerRandomNote] throws, the run ends with that onset and [r] is
    [None]. *)
Inductive run_onsets `{Platform} (e : Engine) (draws : nat -> Q) (c : Q)
  : nat -> Q -> list Q -> option Q -> Prop :=
| run_full (g : Q) : run_onsets e draws c 0 g [] (Some g)
| run_ahead (n : nat) (g : Q) :
    c + 0.2 < g -> run_onsets e draws c n g [] (Some g)
| run_note (n : nat) (g g1 : Q) (os : list Q) (r : option Q) :
    g <= c + 0.2 ->
    multiple_of (sixteenthSeconds e) g ->
    rescheduled e draws g g1 ->
    run_onsets e draws c n g1 os r ->
    run_onsets e draws c (S n) g (Math_max g (c + 0.02) :: os) r
| run_thrown (n : nat) (g : Q) :
    g <= c + 0.2 ->
    multiple_of (sixteenthSeconds e) g ->
    run_onsets e draws c (S n) g [Math_max g (c + 0.02)] None.

(** A computation returned normally. *)
Definition returned {A} (o : Outcome A) : bool :=
  match o with
  | Ok _ => true
  | Throw _ => false
  end.

(** The scheduler runs of a session, one at each clock reading of
    [clocks]: each run allows three notes and starts from the next
    note time the run before it left.  A session in which every run
    returns normally has the index [true].  A run that throws is the
    last one: either its chord change threw, before any note, or
    [triggerRandomNote] threw. *)
Inductive session_runs `{Platform} (e : Engine) (draws : nat -> Q)
  : Q -> list Q -> list Q -> bool -> Prop :=
| runs_end (g : Q) : session_runs e draws g [] [] true
| runs_next (g c : Q) (clocks os : list Q) (g' : Q) (rest : list Q)
    (ok : bool) :
    run_onsets e draws c 3 g os (Some g') ->
    session_runs e draws g' clocks rest ok ->
    session_runs e draws g (c :: clocks) (os ++ rest) ok
| runs_hop_thrown (g c : Q) (clocks : list Q) :
    session_runs e draws g (c :: clocks) [] false
| runs_note_thrown (g c : Q) (clocks os : list Q) :
    run_onsets e draws c 3 g os None ->
    session_runs e draws g (c :: clocks) os false.

(** The parameters of a session are those of [e] and [draws], and the
    next note time is on the grid of [e]. *)
Definition on_course `{Platform} (e : Engine) (draws : nat -> Q) (w : World)
  : Prop :=
  bpm (eng w) = bpm e /\
  meanNotesPerBar (eng w) = meanNotesPerBar e /\
  randomSource (env w) = draws /\
  multiple_of (sixteenthSeconds e) (nextNoteTime (eng w)).

(** The invariant of a session at tempo [tempo] over the clock readings
    [clocks]. *)
Definition session_inv `{Platform} (tempo : Q) (clocks : list Q) (w : World)
  : Prop :=
  bpm (eng w) = tempo /\
  In (currentTime (env w)) clocks /\
  non_increasing (onsetsOf (log (env w))) /\
  Forall (scheduled (60 / tempo / 4) clocks) (onsetsOf (log (env w))) /\
  (isPlaying (eng w) = true ->
   multiple_of (60 / tempo / 4) (nextNoteTime (eng w)) /\
   forall o, In o (onsetsOf (log (env w))) ->
     o <= Math_max (nextNoteTime (eng w)) (currentTime (env w) + 0.02)).

(* ================================================================= *)
(** * Vocabulary of the engine's invariants *)

(** [c], run in the world [w], keeps the invariant [I]. *)
Definition keeps `{Platform} {A} (I : World -> Prop) (c : M A) (w : World) : Prop :=
  I w -> I (after c w).

(** What the methods of the engine leave alone.  The tempo is that of
    [e0]; under [pool] the voice list is within the pool, under
    [playing] the play state is that of [e0], under [chain] the audio
    context and the nodes of the effect chain are those of [e0], under
    [armed] a timer id is stored. *)
Definition settled `{Platform} (pool playing chain armed : Prop) (e0 : Engine)
    (w : World) : Prop :=
  bpm (eng w) = bpm e0 /\
  (pool -> (List.length (voices (eng w)) <= MAX_VOICES)%nat) /\
  (playing -> isPlaying (eng w) = isPlaying e0) /\
  (chain ->
   audioContext (eng w) = audioContext e0 /\
   masterGain (eng w) = masterGain e0 /\
   delayNode (eng w) = delayNode e0 /\
   delayFeedbackGain (eng w) = delayFeedbackGain e0 /\
   delayDryGain (eng w) = delayDryGain e0 /\
   delayWetGain (eng w) = delayWetGain e0 /\
   delayInputGain (eng w) = delayInputGain e0) /\
  (armed -> schedulerId (eng w) <> None).

(** The effect chain of a running engine: the audio context, the master
    gain and the five nodes of the delay line. *)
Definition chain_present `{Platform} (e : Engine) : Prop :=
  audioContext e <> None /\
  masterGain e <> None /\
  delayNode e <> None /\
  delayFeedbackGain e <> None /\
  delayDryGain e <> None /\
  delayWetGain e <> None /\
  delayInputGain e <> None.

(** The application installs the three callbacks by assignment. *)
Definition install_callbacks `{Platform} (chord note play : bool) (e : Engine)
  : Engine :=
  {| audioContext := audioContext e; masterGain := masterGain e;
     reverbNode := reverbNode e; delayNode := delayNode e;
     delayFeedbackGain := delayFeedbackGain e;
     delayFilters := delayFilters e; delayDryGain := delayDryGain e;
     delayWetGain := delayWetGain e; delayInputGain := delayInputGain e;
     isPlaying := isPlaying e; pcsGraph := pcsGraph e;
     activePitchClasses := activePitchClasses e; voices := voices e;
     nextNoteTime := nextNoteTime e; nextGraphHopTime := nextGraphHopTime e;
     schedulerId := schedulerId e; synthParams := synthParams e;
     bpm := bpm e; meanNotesPerBar := meanNotesPerBar e;
     onChordChange := chord; onNoteTriggered := note;
     onPlayStateChange := play |}.

(** What can happen to an engine from outside: a call of one of its
    public methods, the assignment of its callbacks, the timer that
    [scheduler] set firing, and the playback clock moving on. *)
Inductive Op :=
| OpStart
| OpStop
| OpToggle
| OpSetBpm (bpm : Q)
| OpSetLambda (meanNotesPerBar : Q)
| OpSetSynthParams (params : PartialSynthParams)
| OpCallbacks (chord note play : bool)
| OpTimer
| OpClock (now : Q).

Definition perform `{Platform} (o : Op) : M unit :=
  match o with
  | OpStart => start
  | OpStop => stop
  | OpToggle => toggle
  | OpSetBpm b => setBpm b
  | OpSetLambda m => setLambda m
  | OpSetSynthParams p => setSynthParams p
  | OpCallbacks chord note play => update (install_callbacks chord note play)
  | OpTimer => scheduler
  | OpClock now => update_backend (set_currentTime now)
  end.

(** The world after a sequence of events; an exception ends the event
    that raised it and leaves the world as it is then. *)
Fixpoint run_ops `{Platform} (ops : list Op) (w : World) : World :=
  match ops with
  | [] => w
  | o :: rest => run_ops rest (after (perform o) w)
  end.

(** The invariant of the engine between events. *)
Definition engine_inv `{Platform} (w : World) : Prop :=
  (List.length (voices (eng w)) <= MAX_VOICES)%nat /\
  20 <= bpm (eng w) /\ bpm (eng w) <= 300 /\
  (isPlaying (eng w) = false -> eng w = stopped (eng w)) /\
  (isPlaying (eng w) = true ->
   chain_present (eng w) /\ schedulerId (eng w) <> None).

(** The engine is [e0] but for its voice list and its next note time:
    all that triggering and scheduling notes may change. *)
Definition only_notes `{Platform} (e0 : Engine) (w : World) : Prop :=
  exists vs t, eng w = set_nextNoteTime t (set_voices vs e0).

(** The chord change of the scheduler. *)
Definition graphHop `{Platform} : M unit :=
  pcsGraph_advance ;;
  refreshPitchClasses ;;
  update (fun e =>
    set_nextGraphHopTime (nextGraphHopTime e + barSeconds e * BARS_PER_CHANGE) e).

(** An onset lies in the window of a scheduler run at clock time [c]:
    from 20 ms to 200 ms ahead. *)
Definition in_window (c o : Q) : Prop := c + 0.02 <= o /\ o <= c + 0.2.

(** [c], run in the world [w], keeps the invariant [I] and returns
    normally. *)
Definition runs `{Platform} {A} (I : World -> Prop) (c : M A) (w : World) : Prop :=
  I w -> I (after c w) /\ exists a, outcome c w = Ok a.

(** An invariant that reads only the graph and the random source. *)
Definition graph_inv `{Platform} (J : PcsRelationGraph -> (nat -> Q) -> Prop)
    (w : World) : Prop :=
  J (pcsGraph (eng w)) (randomSource (env w)).

(** The graph has a node, its adjacency data is well formed, the
    current index is valid, and every draw of [Math.random()] lies in
    [0, 1). *)
Definition playable_graph `{Platform} (g : PcsRelationGraph) (draws : nat -> Q)
  : Prop :=
  nodes g <> [] /\
  well_formed g /\
  valid_index g /\
  forall k, 0 <= draws k /\ draws k < 1.

Definition playable `{Platform} (w : World) : Prop :=
  graph_inv playable_graph w.

(** The precomputed graph data has a node, one neighbour list per node,
    and only indices of nodes as neighbours. *)
Definition data_well_formed `{Platform} : Prop :=
  pcsGraphData_nodes <> [] /\
  List.length pcsGraphData_adjacency = List.length pcsGraphData_nodes /\
  forall neighbors v, In neighbors pcsGraphData_adjacency -> In v neighbors ->
    (0 <= v < Z.of_nat (List.length pcsGraphData_nodes))%Z.


(** The nodes a list of commands connects to the destination of the
    context; newest first. *)
Definition destination_inputs (cmds : list Command) : list NodeId :=
  flat_map (fun c => match c with
                     | ConnectDestination n => [n]
                     | _ => []
                     end) cmds.

(** The commands of the output stage of [start()], newest first, when
    the convolver is [rv] and the nodes after it are the mix node, the
    dry gain and the wet gain. *)
Definition output_cmds (reverb : bool) (dry wet rv : NodeId) : list Command :=
  let mixNode := (1 + rv)%nat in
  let dryGain := (2 + rv)%nat in
  let wetGain := (3 + rv)%nat in
  (if reverb then
     [ ConnectDestination wetGain;
       ConnectDestination dryGain;
       Connect rv wetGain;
       Connect mixNode rv;
       Connect mixNode dryGain;
       SetValue wetGain gain_param 0.3;
       SetValue dryGain gain_param 0.7;
       CreateGain wetGain;
       CreateGain dryGain ]
   else [ ConnectDestination mixNode ]) ++
  [ Connect wet mixNode;
    Connect dry mixNode;
    SetValue mixNode gain_param 1.0;
    CreateGain mixNode ] ++
  (if reverb then [ SetImpulseBuffer rv; CreateConvolver rv ]
   else [ CreateConvolver rv ]).

(** A backend on which [new AudioContext()] throws, here an error
    named [NotSupportedError], and a freshly constructed engine on
    it. *)
Definition unsupportedBackend : Backend := {|
  currentTime := 0;
  contextState := suspended;
  randomSource := fun _ => 0;
  randomPos := 0%nat;
  nextNodeId := 0%nat;
  nextTimerId := 0%nat;
  hasMediaSession := true;
  contextError := Some "NotSupportedError"%string;
  resumeError := None;
  canCreateReverb := true;
  impulseDraws := 0%nat;
  log := []
|}.

Definition unsupportedWorld : @World examplePlatform :=
  @MusicEngine_new examplePlatform unsupportedBackend.

(** An update of the maximal note duration alone. *)
Definition durationUpdate (seconds : Q) : PartialSynthParams :=
  {| p_envelope := None; p_vibrato := None; p_tremolo := None;
     p_delay := None; p_maxNoteDuration := Some seconds |}.

(* ================================================================= *)
(** * The arithmetic of the code: IEEE 754 doubles

    The tempo setter and the quantization of note times, over the
    binary64 numbers of JavaScript.  The fields a method reads are
    parameters and the value it stores is the result. *)

Module Double.
Import PrimFloat SpecFloat FloatOps.
#[local] Open Scope float_scope.
#[local] Set Warnings "-inexact-float".

(** [Math.max(a, b)] and [Math.min(a, b)]: [NaN] if an argument is
    [NaN]; of two zeros [Math.max] prefers [+0] and [Math.min] [-0]. *)
Definition Math_max (a b : float) : float :=
  if is_nan a || is_nan b then nan
  else if a <? b then b
  else if b <? a then a
  else if get_sign a then b else a.

Definition Math_min (a b : float) : float :=
  if is_nan a || is_nan b then nan
  else if a <? b then a
  else if b <? a then b
  else if get_sign a then a else b.

(** The double of a whole number below 2^53. *)
Definition of_Z (n : Z) : float := of_uint63 (Uint63.of_Z n).

(** [Math.ceil(x)]: [NaN], the infinities, the zeros and the doubles
    without a fraction are returned as they are; otherwise [x] is
    [m * 2^e] with [e < 0], its ceiling is that of [m / 2^-e] for a
    positive [x] and minus the floor of [m / 2^-e] for a negative one
    ([-0] when that is zero). *)
Definition Math_ceil (x : float) : float :=
  match Prim2SF x with
  | S754_finite s m e =>
      if (0 <=? e)%Z then x
      else
        let d := (2 ^ (- e))%Z in
        if s then - of_Z (Z.pos m / d)
        else of_Z ((Z.pos m + d - 1) / d)
  | _ => x
  end.

(** [get sixteenthSeconds()], for the tempo [bpm]. *)
Definition sixteenthSeconds (bpm : float) : float := (60 / bpm) / 4.

(** [quantizeToSixteenth(time)] *)
Definition quantizeToSixteenth (bpm time : float) : float :=
  Math_ceil (time / sixteenthSeconds bpm) * sixteenthSeconds bpm.

(** [scheduleNextNote(currentTime)], for the value [delay] that
    [generateExponentialDelay()] returns: the next note time. *)
Definition scheduleNextNote (bpm currentTime delay : float) : float :=
  let deltaSeconds := Math_max 0.01 delay in
  let target := currentTime + deltaSeconds in
  quantizeToSixteenth bpm target.

(** [setBpm(bpm)]: the tempo it stores. *)
Definition setBpm (bpm : float) : float :=
  Math_max 20 (Math_min 300 bpm).

End Double.

(* ================================================================= *)
(** * Properties *)

(** Linear arithmetic over [Q] with divisions by constants. *)
Ltac qdiv_consts :=
  repeat match goal with
  | |- context [ / (?n # ?d) ] =>
      let r := eval compute in (/ (n # d)) in change (/ (n # d)) with r
  | H : context [ / (?n # ?d) ] |- _ =>
      let r := eval compute in (/ (n # d)) in change (/ (n # d)) with r in H
  end.
Ltac qlra := unfold Qdiv in *; qdiv_consts; lra.

Lemma Qle_bool_false (a b : Q) : Qle_bool a b = false <-> b < a.
Proof.
  split; intros E.
  - apply Qnot_le_lt. intros Hle. apply Qle_bool_iff in Hle. congruence.
  - destruct (Qle_bool a b) eqn:Hab; [|reflexivity].
    apply Qle_bool_iff in Hab. lra.
Qed.

Lemma js_lt_true (a b : Q) : js_lt a b = true <-> a < b.
Proof.
  unfold js_lt. rewrite negb_true_iff. apply Qle_bool_false.
Qed.

Lemma js_lt_false (a b : Q) : js_lt a b = false <-> b <= a.
Proof.
  unfold js_lt. rewrite negb_false_iff. apply Qle_bool_iff.
Qed.

Lemma Math_max_spec (a b : Q) :
  (a <= b /\ Math_max a b = b) \/ (b < a /\ Math_max a b = a).
Proof.
  unfold Math_max. destruct (Qle_bool a b) eqn:E.
  - left. split; [now apply Qle_bool_iff | reflexivity].
  - right. split; [now apply Qle_bool_false | reflexivity].
Qed.

Lemma Math_min_spec (a b : Q) :
  (a <= b /\ Math_min a b = a) \/ (b < a /\ Math_min a b = b).
Proof.
  unfold Math_min. destruct (Qle_bool a b) eqn:E.
  - left. split; [now apply Qle_bool_iff | reflexivity].
  - right. split; [now apply Qle_bool_false | reflexivity].
Qed.

Lemma Math_max_l (a b : Q) : a <= Math_max a b.
Proof. destruct (Math_max_spec a b) as [[? ->]|[? ->]]; lra. Qed.

Lemma Math_max_r (a b : Q) : b <= Math_max a b.
Proof. destruct (Math_max_spec a b) as [[? ->]|[? ->]]; lra. Qed.

(* ----------------------------------------------------------------- *)
(** ** Durations *)

Lemma js_or_Some (v d : Q) : ~ v == 0 -> js_or (Some v) d = v.
Proof.
  intros Hv. unfold js_or. destruct (Qeq_bool v 0) eqn:E; [|reflexivity].
  apply Qeq_bool_iff in E. contradiction.
Qed.

Lemma beat_pos (tempo : Q) : 0 < tempo -> 0 < 60 / tempo.
Proof.
  intros Hb. apply Qlt_shift_div_l; [exact Hb|]. lra.
Qed.

(** Evaluates [musicalDurationToSeconds] at a literal duration, given
    [0 < beat] for the abbreviation [beat] of [60 / bpm]. *)
Ltac duration_value :=
  unfold musicalDurationToSeconds;
  cbn [replace_TD_suffix slice_last is_TD js_get baseValues append
       String.eqb Ascii.eqb Bool.eqb orb];
  rewrite ?js_or_Some by (intro; qlra).

(** C4.  At every positive tempo a quarter note lasts [60/bpm] seconds
    and a whole note four times that, and for each of the six base
    durations the dotted variant is 1.5 times and the triplet variant
    2/3 of the base value. *)
Theorem musicalDurationToSeconds_table (tempo : Q) :
  0 < tempo ->
  musicalDurationToSeconds "1/4" tempo == 60 / tempo /\
  musicalDurationToSeconds "1/1" tempo == 4 * (60 / tempo) /\
  forall base, In base BASE_DURATIONS ->
    musicalDurationToSeconds (base ++ "D")%string tempo
      == 1.5 * musicalDurationToSeconds base tempo /\
    musicalDurationToSeconds (base ++ "T")%string tempo
      == (2 / 3) * musicalDurationToSeconds base tempo.
Proof.
  intros Hb. pose proof (beat_pos tempo Hb) as Hp.
  repeat split.
  - duration_value. qlra.
  - duration_value. qlra.
  - cbn [BASE_DURATIONS In] in H.
    repeat (destruct H as [<- | H]; [duration_value; qlra|]).
    contradiction.
  - cbn [BASE_DURATIONS In] in H.
    repeat (destruct H as [<- | H]; [duration_value; qlra|]).
    contradiction.
Qed.

Lemma musicalDurationToSeconds_table_witness :
  0 < 60 /\
  musicalDurationToSeconds "1/4" 60 == 60 / 60 /\
  musicalDurationToSeconds "1/1" 60 == 4 * (60 / 60) /\
  forall base, In base BASE_DURATIONS ->
    musicalDurationToSeconds (base ++ "D")%string 60
      == 1.5 * musicalDurationToSeconds base 60 /\
    musicalDurationToSeconds (base ++ "T")%string 60
      == (2 / 3) * musicalDurationToSeconds base 60.
Proof.
  split; [reflexivity | apply (musicalDurationToSeconds_table 60); reflexivity].
Defined.

(* ----------------------------------------------------------------- *)
(** ** Quantization *)

Lemma sixteenthSeconds_pos `{Platform} (e : Engine) :
  0 < bpm e -> 0 < sixteenthSeconds e.
Proof.
  intros Hb. pose proof (beat_pos _ Hb). unfold sixteenthSeconds. qlra.
Qed.

(** In the exact arithmetic of the rationals the quantized time is not
    before its input.  The order of the onsets is proved from this; in
    the arithmetic of doubles the product can round below the input. *)
Lemma ceil_times_ge (s t : Q) : 0 < s -> t <= Math_ceil (t / s) * s.
Proof.
  intros Hs. unfold Math_ceil.
  pose proof (Qle_ceiling (t / s)) as Hc.
  apply (Qmult_le_compat_r _ _ s) in Hc; [|lra].
  rewrite Qmult_comm, Qmult_div_r in Hc; [exact Hc | lra].
Qed.

Lemma quantize_ge `{Platform} (e : Engine) (t : Q) :
  0 < bpm e -> t <= quantizeToSixteenth e t.
Proof.
  intros Hb. apply ceil_times_ge, sixteenthSeconds_pos, Hb.
Qed.

Lemma quantize_multiple `{Platform} (e : Engine) (t : Q) :
  multiple_of (sixteenthSeconds e) (quantizeToSixteenth e t).
Proof.
  exists (Qceiling (t / sixteenthSeconds e)). reflexivity.
Qed.




Section DoubleQuantize.
Import PrimFloat.
#[local] Open Scope float_scope.
#[local] Set Warnings "-inexact-float".


End DoubleQuantize.

(* ----------------------------------------------------------------- *)
(** ** Tempo *)

Lemma clamp_max_min (lo hi b : Q) :
  lo <= hi -> Math_max lo (Math_min hi b) == clamp lo hi b.
Proof.
  intros Hlh. unfold clamp.
  destruct (js_lt b lo) eqn:E1; [apply js_lt_true in E1 | apply js_lt_false in E1];
    (destruct (js_lt hi b) eqn:E2;
       [apply js_lt_true in E2 | apply js_lt_false in E2]);
    destruct (Math_min_spec hi b) as [[? ->]|[? ->]];
    match goal with
    | |- Math_max ?x ?y == _ =>
        destruct (Math_max_spec x y) as [[? ->]|[? ->]]; lra
    end.
Qed.

Lemma clamp_bounds (lo hi b : Q) :
  lo <= hi -> lo <= clamp lo hi b /\ clamp lo hi b <= hi.
Proof.
  intros Hlh. unfold clamp.
  destruct (js_lt b lo) eqn:E1; [apply js_lt_true in E1 | apply js_lt_false in E1];
    (destruct (js_lt hi b) eqn:E2;
       [apply js_lt_true in E2 | apply js_lt_false in E2]); lra.
Qed.

(** Over the rationals [setBpm] stores its argument clamped to the
    range [20, 300], so the stored tempo lies in that range, and
    [getBpm] returns the stored tempo. *)
Theorem setBpm_clamps `{Platform} (w : World) (b : Q) :
  outcome (setBpm b) w = Ok tt /\
  bpm (eng (after (setBpm b) w)) == clamp 20 300 b /\
  20 <= bpm (eng (after (setBpm b) w)) /\
  bpm (eng (after (setBpm b) w)) <= 300 /\
  outcome getBpm (after (setBpm b) w) = Ok (bpm (eng (after (setBpm b) w))) /\
  after getBpm (after (setBpm b) w) = after (setBpm b) w.
Proof.
  assert (Hc : bpm (eng (after (setBpm b) w)) == clamp 20 300 b).
  { cbn. apply clamp_max_min. lra. }
  pose proof (clamp_bounds 20 300 b ltac:(lra)) as [Hlo Hhi].
  repeat split; try reflexivity; try exact Hc; rewrite Hc; assumption.
Qed.

(** *** The tempo setter over doubles *)

Section DoubleTempo.
Import PrimFloat SpecFloat FloatOps FloatAxioms.
#[local] Open Scope float_scope.

Lemma SFcompare_antisym (x y : spec_float) :
  SFcompare y x = option_map CompOpp (SFcompare x y).
Proof.
  destruct x as [sx|sx| |sx mx ex], y as [sy|sy| |sy my ey]; cbn;
    try reflexivity; try (destruct sx; reflexivity);
    try (destruct sy; reflexivity); try (destruct sx, sy; reflexivity).
  destruct sx, sy; cbn; try reflexivity;
    rewrite (Z.compare_antisym ex ey); destruct (ex ?= ey)%Z; cbn;
    try reflexivity;
    change (Pos.compare_cont Eq my mx) with (Pos.compare my mx);
    change (Pos.compare_cont Eq mx my) with (Pos.compare mx my);
    rewrite (Pos.compare_antisym mx my); destruct (mx ?= my)%positive;
    reflexivity.
Qed.

(** Two numbers, neither of them [NaN], compare. *)
Lemma SFcompare_numbers (x y : float) :
  is_nan x = false -> is_nan y = false ->
  exists c, SFcompare (Prim2SF x) (Prim2SF y) = Some c.
Proof.
  unfold is_nan. rewrite !eqb_spec. unfold SFeqb.
  destruct (Prim2SF x) as [sx|sx| |sx mx ex], (Prim2SF y) as [sy|sy| |sy my ey];
    cbn; intros Hx Hy; try discriminate; eexists; reflexivity.
Qed.

Lemma ltb_compare (x y : float) :
  (x <? y) = true <-> SFcompare (Prim2SF x) (Prim2SF y) = Some Lt.
Proof.
  rewrite ltb_spec. unfold SFltb.
  destruct (SFcompare (Prim2SF x) (Prim2SF y)) as [[]|]; split; congruence.
Qed.

Lemma leb_compare (x y : float) :
  (x <=? y) = true <->
  SFcompare (Prim2SF x) (Prim2SF y) = Some Lt \/
  SFcompare (Prim2SF x) (Prim2SF y) = Some Eq.
Proof.
  rewrite leb_spec. unfold SFleb.
  destruct (SFcompare (Prim2SF x) (Prim2SF y)) as [[]|]; split;
    intuition congruence.
Qed.

Lemma eqb_compare (x y : float) :
  (x =? y) = true <-> SFcompare (Prim2SF x) (Prim2SF y) = Some Eq.
Proof.
  rewrite eqb_spec. unfold SFeqb.
  destruct (SFcompare (Prim2SF x) (Prim2SF y)) as [[]|]; split; congruence.
Qed.

Lemma Math_min_300 (b : float) :
  is_nan b = false ->
  Double.Math_min 300 b = if 300 <? b then 300 else b.
Proof.
  intros Hb. unfold Double.Math_min. rewrite Hb.
  change (is_nan 300) with false. cbn [orb].
  destruct (300 <? b); [reflexivity|].
  destruct (b <? 300); [reflexivity|].
  change (get_sign 300) with false. reflexivity.
Qed.

Lemma Math_max_20 (m : float) :
  is_nan m = false ->
  Double.Math_max 20 m = if 20 <? m then m else 20.
Proof.
  intros Hm. unfold Double.Math_max. rewrite Hm.
  change (is_nan 20) with false. cbn [orb].
  destruct (20 <? m); [reflexivity|].
  destruct (m <? 20); [reflexivity|].
  change (get_sign 20) with false. reflexivity.
Qed.

Lemma SFcompare_above_finite (mc : positive) (ec : Z) (x : spec_float) :
  SFcompare (S754_finite false mc ec) x = Some Lt ->
  x = S754_infinity false \/
  exists m e, x = S754_finite false m e /\ (ec <= e)%Z.
Proof.
  destruct x as [s|s| |s m e]; cbn [SFcompare].
  - destruct s; discriminate.
  - destruct s; [discriminate | auto].
  - discriminate.
  - destruct s; [discriminate|].
    destruct (Z.compare_spec ec e) as [H|H|H]; intros Hc;
      try discriminate; right; exists m, e; split; try reflexivity; lia.
Qed.

Lemma SFcompare_below_finite (mc : positive) (ec : Z) (m : positive) (e : Z) :
  SFcompare (S754_finite false m e) (S754_finite false mc ec) = Some Lt ->
  (e <= ec)%Z.
Proof.
  cbn [SFcompare]. destruct (Z.compare_spec e ec) as [H|H|H]; intros Hc;
    try discriminate; lia.
Qed.

Lemma above_300_not_below_20 (b : float) :
  (300 <? b) = true -> (b <? 20) = false.
Proof.
  intros H300. destruct (b <? 20) eqn:H20; [|reflexivity].
  apply ltb_compare in H300. apply ltb_compare in H20. revert H300 H20.
  set (c300 := Prim2SF 300). vm_compute in c300. subst c300.
  set (c20 := Prim2SF 20). vm_compute in c20. subst c20.
  intros H300 H20. apply SFcompare_above_finite in H300.
  destruct H300 as [E | (m & e & E & He)]; rewrite E in H20.
  - discriminate H20.
  - apply SFcompare_below_finite in H20. lia.
Qed.

(** C10, at the input where the code leaves the claim.  [setBpm(NaN)]
    stores [NaN]: [Math.min(300, NaN)] and [Math.max(20, NaN)] are
    [NaN], so the stored tempo is not a number of the range [20, 300],
    and the sixteenth-note duration computed from it is [NaN] too. *)
Theorem setBpm_NaN_not_clamped :
  let stored := Double.setBpm nan in
  is_nan stored = true /\
  (20 <=? stored) = false /\
  (stored <=? 300) = false /\
  is_nan (Double.sixteenthSeconds stored) = true.
Proof. vm_compute. repeat split. Qed.

(** X26.  [setBpm] clamps every number: for every double [b] that is
    not [NaN], the infinities included, the stored tempo lies in the
    range [20, 300]; it is [b] when [b] lies in the range, 20 when [b]
    is below it and 300 when [b] is above it. *)
Theorem setBpm_clamps_numbers (b : float) :
  is_nan b = false ->
  let stored := Double.setBpm b in
  (20 <=? stored) = true /\ (stored <=? 300) = true /\
  ((20 <=? b) = true -> (b <=? 300) = true -> (stored =? b) = true) /\
  ((b <? 20) = true -> stored = 20) /\
  ((300 <? b) = true -> stored = 300).
Proof.
  intros Hb r. subst r. unfold Double.setBpm.
  rewrite (Math_min_300 b Hb).
  assert (Hbb : (b =? b) = true)
    by (unfold is_nan in Hb; now apply negb_false_iff in Hb).
  destruct (SFcompare_numbers 300 b eq_refl Hb) as [c1 H1].
  destruct (SFcompare_numbers 20 b eq_refl Hb) as [c2 H2].
  pose proof (SFcompare_antisym (Prim2SF 300) (Prim2SF b)) as A1.
  pose proof (SFcompare_antisym (Prim2SF 20) (Prim2SF b)) as A2.
  rewrite H1 in A1. rewrite H2 in A2. cbn [option_map] in A1, A2.
  destruct (300 <? b) eqn:E1.
  - rewrite (Math_max_20 300 eq_refl). change (20 <? 300) with true. cbv iota.
    apply ltb_compare in E1.
    split; [reflexivity|]. split; [reflexivity|]. split; [|split].
    + intros _ H. apply leb_compare in H. rewrite A1 in H.
      assert (c1 = Lt) by congruence. subst c1. cbn in H.
      destruct H; discriminate.
    + intros H. rewrite above_300_not_below_20 in H; [discriminate|].
      now apply ltb_compare.
    + reflexivity.
  - rewrite (Math_max_20 b Hb).
    assert (N1 : c1 <> Lt).
    { intros ->. apply ltb_compare in H1. congruence. }
    assert (L300 : (b <=? 300) = true).
    { apply leb_compare. rewrite A1. destruct c1; cbn; auto. congruence. }
    destruct (20 <? b) eqn:E2.
    + split; [apply leb_compare; left; now apply ltb_compare|].
      split; [exact L300|]. split; [intros _ _; exact Hbb|].
      split; [|discriminate].
      intros H. apply ltb_compare in H. apply ltb_compare in E2.
      rewrite A2 in H. assert (c2 = Lt) by congruence. subst c2.
      discriminate H.
    + split; [reflexivity|]. split; [reflexivity|]. split; [|split].
      * intros H _. apply leb_compare in H.
        destruct H as [H | H]; [apply ltb_compare in H; congruence|].
        now apply eqb_compare.
      * reflexivity.
      * discriminate.
Qed.

Lemma setBpm_clamps_numbers_witness :
  let b := infinity in
  is_nan b = false /\
  let stored := Double.setBpm b in
  (20 <=? stored) = true /\ (stored <=? 300) = true /\
  ((20 <=? b) = true -> (b <=? 300) = true -> (stored =? b) = true) /\
  ((b <? 20) = true -> stored = 20) /\
  ((300 <? b) = true -> stored = 300).
Proof.
  assert (H : is_nan infinity = false) by (vm_compute; reflexivity).
  exact (conj H (setBpm_clamps_numbers infinity H)).
Defined.

End DoubleTempo.

(* ----------------------------------------------------------------- *)
(** ** The relation graph *)

Lemma Qfloor_unique (x : Q) (k : Z) :
  inject_Z k <= x -> x < inject_Z (k + 1) -> Qfloor x = k.
Proof.
  intros Hlo Hhi.
  assert (H1 : (k <= Qfloor x)%Z).
  { rewrite <- (Qfloor_Z k). apply Qfloor_resp_le, Hlo. }
  assert (H2 : (Qfloor x < k + 1)%Z).
  { rewrite Zlt_Qlt. eapply Qle_lt_trans; [apply Qfloor_le | exact Hhi]. }
  lia.
Qed.

Lemma Qfloor_iff (x : Q) (k : Z) :
  Qfloor x = k <-> inject_Z k <= x /\ x < inject_Z (k + 1).
Proof.
  split.
  - intros <-. split; [apply Qfloor_le | apply Qlt_floor].
  - intros [Hlo Hhi]. now apply Qfloor_unique.
Qed.

Lemma inject_nat_pos (n : nat) : (0 < n)%nat -> 0 < inject_Z (Z.of_nat n).
Proof.
  intros Hn. change 0 with (inject_Z 0). rewrite <- Zlt_Qlt. lia.
Qed.

Lemma random_index_range (u : Q) (n : nat) :
  0 <= u -> u < 1 -> (0 < n)%nat ->
  (0 <= random_index u (inject_Z (Z.of_nat n)) < Z.of_nat n)%Z.
Proof.
  intros Hlo Hhi Hn. pose proof (inject_nat_pos n Hn) as Hp.
  unfold random_index. split.
  - change 0%Z with (Qfloor 0). apply Qfloor_resp_le.
    apply Qmult_le_0_compat; lra.
  - rewrite Zlt_Qlt. eapply Qle_lt_trans; [apply Qfloor_le|].
    rewrite <- (Qmult_1_l (inject_Z (Z.of_nat n))) at 2.
    apply Qmult_lt_compat_r; assumption.
Qed.

Lemma random_index_shares (u : Q) (n : nat) : (0 < n)%nat -> equal_shares u n.
Proof.
  intros Hn k Hk. pose proof (inject_nat_pos n Hn) as Hp.
  unfold random_index. rewrite Qfloor_iff.
  split; intros [Hlo Hhi]; split.
  - apply Qle_shift_div_r; assumption.
  - apply Qlt_shift_div_l; assumption.
  - apply (Qmult_le_compat_r _ _ (inject_Z (Z.of_nat n))) in Hlo; [|lra].
    rewrite (Qmult_comm (_ / _)), Qmult_div_r in Hlo; [exact Hlo | lra].
  - apply (Qmult_lt_compat_r _ _ (inject_Z (Z.of_nat n))) in Hhi; [|lra].
    rewrite (Qmult_comm (_ / _)), Qmult_div_r in Hhi; [exact Hhi | lra].
Qed.

Lemma js_index_Some {A} (l : list A) (i : Z) :
  (0 <= i < Z.of_nat (List.length l))%Z -> exists a, js_index l i = Some a /\ In a l.
Proof.
  intros Hi. unfold js_index.
  destruct (i <? 0)%Z eqn:E; [lia|].
  destruct (nth_error l (Z.to_nat i)) as [a|] eqn:Hn.
  - exists a. split; [reflexivity | eapply nth_error_In, Hn].
  - apply nth_error_None in Hn. lia.
Qed.

Lemma js_index_In {A} (l : list A) (i : Z) (a : A) :
  js_index l i = Some a -> In a l.
Proof.
  unfold js_index. destruct (i <? 0)%Z; [discriminate|].
  apply nth_error_In.
Qed.

Lemma valid_index_set `{Platform} (g : PcsRelationGraph) (i : Z) :
  (0 <= i < Z.of_nat (List.length (nodes g)))%Z ->
  valid_index (set_currentIndex (Some i) g).
Proof.
  intros Hi. exists i. split; [reflexivity | exact Hi].
Qed.

(** C2, as the code has it.  On a graph with at least one node and
    well-formed adjacency data, with a draw in [0, 1), the constructor
    and [advance()] leave [currentIndex] a valid index; when the current
    node has neighbours the new index is the neighbour at position
    [Math.floor(u * neighbors.length)], and otherwise it is
    [Math.floor(u * nodes.length)], which gives every node an interval
    of draws of the same length. *)
Theorem advance_in_range `{Platform} (g : PcsRelationGraph) (b : Backend) :
  let u := randomSource b (randomPos b) in
  0 <= u -> u < 1 ->
  nodes g <> [] -> well_formed g -> valid_index g ->
  (pcsGraphData_nodes <> [] -> valid_index (fst (PcsRelationGraph_new b))) /\
  exists g' i neighbors,
    advance g b = (Ok g', snd (draw b)) /\
    nodes g' = nodes g /\ adjacency g' = adjacency g /\
    valid_index g' /\
    currentIndex g = Some i /\
    js_index (adjacency g) i = Some neighbors /\
    (neighbors <> [] ->
       currentIndex g'
         = js_index neighbors (random_index u (js_length neighbors)) /\
       exists j, currentIndex g' = Some j /\ In j neighbors) /\
    (neighbors = [] ->
       currentIndex g' = Some (random_index u (js_length (nodes g))) /\
       equal_shares u (List.length (nodes g))).
Proof.
  intros u Hlo Hhi Hne [Hlen Hadj] [i [Hci Hi]].
  split.
  - intros Hdata. unfold PcsRelationGraph_new, draw. cbn.
    apply (valid_index_set
             {| nodes := map Pcs12_fromBinaryString pcsGraphData_nodes;
                adjacency := pcsGraphData_adjacency;
                currentIndex := None |}).
    cbn. apply random_index_range; [exact Hlo | exact Hhi |].
    rewrite length_map. destruct pcsGraphData_nodes; [contradiction | cbn; lia].
  - assert (Hn : (0 < List.length (nodes g))%nat).
    { destruct (nodes g); [contradiction | cbn; lia]. }
    destruct (js_index_Some (adjacency g) i) as [neighbors [Hnb Hin]];
      [rewrite Hlen; exact Hi|].
    unfold advance. rewrite Hci, Hnb.
    destruct (List.length (nodes g) =? 0)%nat eqn:E0;
      [apply Nat.eqb_eq in E0; lia|].
    destruct neighbors as [|n0 rest] eqn:En.
    + cbn. fold u.
      exists (set_currentIndex (Some (random_index u (js_length (nodes g)))) g),
        i, [].
      split; [reflexivity|]. split; [reflexivity|]. split; [reflexivity|].
      split; [apply valid_index_set, random_index_range; assumption|].
      split; [reflexivity|]. split; [first [reflexivity | assumption]|].
      split; [intros Hc; contradiction|].
      intros _. split; [reflexivity | apply random_index_shares, Hn].
    + rewrite <- En in *.
      assert (Hl : (0 < List.length neighbors)%nat) by (rewrite En; cbn; lia).
      destruct (0 <? List.length neighbors)%nat eqn:E1;
        [|apply Nat.ltb_ge in E1; lia].
      cbn. fold u.
      destruct (js_index_Some neighbors (random_index u (js_length neighbors)))
        as [j [Hj Hjin]];
        [apply random_index_range; assumption|].
      exists (set_currentIndex
                (js_index neighbors (random_index u (js_length neighbors))) g),
        i, neighbors.
      split; [reflexivity|]. split; [reflexivity|]. split; [reflexivity|].
      split; [rewrite Hj; apply valid_index_set; eapply Hadj; eassumption|].
      split; [reflexivity|]. split; [first [reflexivity | assumption]|].
      split.
      * intros _. split; [reflexivity|].
        exists j. split; [exact Hj | exact Hjin].
      * intros Hc. rewrite Hc in En. discriminate.
Qed.

Lemma advance_in_range_witness :
  let g := pcsGraph (eng (freshWorld 0 (1 # 2))) in
  let b := exampleBackend 0 (1 # 2) in
  let u := randomSource b (randomPos b) in
  (0 <= u /\ u < 1 /\ nodes g <> [] /\ well_formed g /\ valid_index g) /\
  (@pcsGraphData_nodes examplePlatform <> [] ->
   valid_index (fst (@PcsRelationGraph_new examplePlatform b))) /\
  exists g' i neighbors,
    advance g b = (Ok g', snd (draw b)) /\
    nodes g' = nodes g /\ adjacency g' = adjacency g /\
    valid_index g' /\
    currentIndex g = Some i /\
    js_index (adjacency g) i = Some neighbors /\
    (neighbors <> [] ->
       currentIndex g'
         = js_index neighbors (random_index u (js_length neighbors)) /\
       exists j, currentIndex g' = Some j /\ In j neighbors) /\
    (neighbors = [] ->
       currentIndex g' = Some (random_index u (js_length (nodes g))) /\
       equal_shares u (List.length (nodes g))).
Proof.
  assert (Hwf : well_formed (pcsGraph (eng (freshWorld 0 (1 # 2))))).
  { split; [reflexivity|].
    cbn. intros neighbors v [<- | [<- | []]] [<- | []]; lia. }
  assert (Hv : valid_index (pcsGraph (eng (freshWorld 0 (1 # 2))))).
  { exists 1%Z. split; [reflexivity | cbn; lia]. }
  cbv zeta. split.
  - split; [discriminate|]. split; [reflexivity|].
    split; [discriminate|]. split; [exact Hwf | exact Hv].
  - apply (@advance_in_range examplePlatform
             (pcsGraph (eng (freshWorld 0 (1 # 2))))
             (exampleBackend 0 (1 # 2)));
      [discriminate | reflexivity | discriminate | exact Hwf | exact Hv].
Defined.

(** C2 as stated fails for a graph without nodes: the constructor
    sets [currentIndex] to [Math.floor(u * 0) = 0], [advance()] returns
    at once, and no index into an empty node list is valid. *)
Lemma advance_zero_nodes :
  let g := pcsGraph (eng (emptyWorld 0 (1 # 2))) in
  let b := exampleBackend 0 (1 # 2) in
  nodes g = [] /\
  currentIndex g = Some 0%Z /\
  advance g b = (Ok g, b) /\
  ~ valid_index g /\
  ~ valid_index (fst (@PcsRelationGraph_new emptyPlatform b)).
Proof.
  cbv zeta. repeat split; try reflexivity.
  - intros [i [_ Hi]]. cbn in Hi. lia.
  - intros [i [_ Hi]]. cbn in Hi. lia.
Qed.

(* ----------------------------------------------------------------- *)
(** ** Triggering a note with no active pitch class *)

(** C7.  With an empty active pitch-class set [triggerRandomNote]
    returns normally and leaves the whole world as it was: the engine's
    fields (no voice is created), the backend (no node, no random draw)
    and the log (no note-triggered notification, no backend call). *)
Theorem triggerRandomNote_empty_noop `{Platform} (w : World) (whenTime : Q) :
  activePitchClasses (eng w) = [] ->
  triggerRandomNote whenTime w = (Ok tt, w).
Proof.
  intros Hempty. unfold triggerRandomNote, bind, this.
  rewrite Hempty. reflexivity.
Qed.

Lemma triggerRandomNote_empty_noop_witness :
  activePitchClasses (eng (freshWorld 0 0)) = [] /\
  triggerRandomNote 1 (freshWorld 0 0) = (Ok tt, freshWorld 0 0).
Proof.
  split; [reflexivity|].
  apply (triggerRandomNote_empty_noop (freshWorld 0 0) 1). reflexivity.
Defined.

(* ----------------------------------------------------------------- *)
(** ** Running computations *)

Section Running.
Context {P : Platform}.

Lemma logged_nil (w : World) : logged [] w = w.
Proof. destruct w as [e b]. destruct b. reflexivity. Qed.

Lemma logged_logged (a b : list Command) (w : World) :
  logged a (logged b w) = logged (a ++ b) w.
Proof. unfold logged. cbn. now rewrite app_assoc. Qed.

Lemma bind_run {A B} (c : M A) (k : A -> M B) (w : World) a w' :
  c w = (Ok a, w') -> bind c k w = k a w'.
Proof. intros Hc. cbn. now rewrite Hc. Qed.

Lemma bind_throws {A B} (c : M A) (k : A -> M B) (w : World) e w' :
  c w = (Throw e, w') -> bind c k w = (Throw e, w').
Proof. intros Hc. cbn. now rewrite Hc. Qed.

Lemma step_bind c1 c2 f1 f2 g1 g2 :
  step c1 f1 g1 -> step c2 f2 g2 ->
  step (c1 ;; c2) (fun e => f2 (f1 e))
    (fun e b => g2 (f1 e) b ++ g1 e b)%list.
Proof.
  intros [I1 H1] [I2 H2]. split.
  - intros e l b. now rewrite I1, I2.
  - intros w. rewrite (bind_run _ _ _ _ _ (H1 w)), H2. cbn.
    now rewrite I2, app_assoc.
Qed.

Lemma step_update f : step (update f) f (fun _ _ => []).
Proof. split; [reflexivity|]. intros [e b]. destruct b. reflexivity. Qed.

Lemma step_ext c f g f' g' :
  step c f g -> (forall e, f e = f' e) -> (forall e b, g e b = g' e b) ->
  step c f' g'.
Proof.
  intros [I H] Ef Eg. split.
  - intros e l b. now rewrite <- !Eg, I.
  - intros w. rewrite H, Ef, Eg. reflexivity.
Qed.

Lemma for_of_logged {A} (l : list A) (f : A -> M unit) (g : A -> list Command) :
  (forall x w, f x w = (Ok tt, logged (g x) w)) ->
  forall w, for_of l f w = (Ok tt, logged (flat_map g (rev l)) w).
Proof.
  intros Hf. induction l as [|x l IH]; intros w.
  - cbn. now rewrite logged_nil.
  - cbn [for_of]. rewrite (bind_run _ _ _ _ _ (Hf x w)), IH, logged_logged.
    cbn [rev]. rewrite flat_map_app. cbn. now rewrite app_nil_r.
Qed.

Lemma flat_map_singleton {A B} (f : A -> B) (l : list A) :
  flat_map (fun x => [f x]) l = map f l.
Proof. induction l as [|x l IH]; [reflexivity | cbn; now rewrite IH]. Qed.

Lemma silenceVoice_logged (v : Voice) (w : World) :
  silenceVoice v w = (Ok tt, logged (silence_cmds v) w).
Proof.
  destruct w as [e b]; destruct b.
  unfold silenceVoice, silence_cmds, release_cmds.
  destruct (oscillator v), (gainNode v); reflexivity.
Qed.

Lemma step_releaseNode field clear :
  (forall e, field e = None -> clear e = e) ->
  step (releaseNode field clear) clear (fun e _ => release_cmds (field e)).
Proof.
  intros Hc. split; [reflexivity|].
  intros [e b]. destruct b. unfold releaseNode. cbn.
  destruct (field e) eqn:E; cbn; [reflexivity|]. now rewrite (Hc _ E).
Qed.

Ltac destruct_scrutinee :=
  repeat match goal with
  | |- context [match ?x with _ => _ end] => is_var x; destruct x
  end.

Ltac release_step :=
  apply step_releaseNode; intros e E; destruct e; cbn in *; now subst.

(** [stop()] in closed form. *)
Lemma stop_runs : step stop stopped stop_commands.
Proof.
  unfold stop. eapply step_ext.
  - apply step_bind; [apply step_update|].
    eapply (step_bind _ _ (set_schedulerId None) _
             (fun e _ => match schedulerId e with
                         | Some id => [ClearTimeout id]
                         | None => []
                         end)).
    { split; [reflexivity|].
      intros [e b]; destruct b, e. cbn. destruct_scrutinee; reflexivity. }
    eapply (step_bind _ _ (fun e => e) _
             (fun e _ => flat_map silence_cmds (rev (voices e)))).
    { split; [reflexivity|].
      intros w. cbn. rewrite (for_of_logged _ _ _ silenceVoice_logged).
      reflexivity. }
    apply step_bind; [apply step_update|].
    do 6 (apply step_bind; [release_step|]).
    eapply (step_bind _ _ (fun e => e) _
             (fun e _ => map Disconnect (rev (delayFilters e)))).
    { split; [reflexivity|].
      intros w. cbn.
      rewrite (for_of_logged _ _ (fun x => [Disconnect x])); [|reflexivity].
      rewrite flat_map_singleton. reflexivity. }
    apply step_bind; [apply step_update|].
    apply step_bind; [release_step|].
    eapply (step_bind _ _ (fun e => e) _
             (fun e b => match audioContext e, contextState b with
                         | Some _, running => [SuspendContext]
                         | _, _ => []
                         end)).
    { split; [reflexivity|].
      intros [e b]; destruct b, e. cbn. destruct_scrutinee; reflexivity. }
    eapply (step_bind _ _ (fun e => e) _
             (fun e b => if hasMediaSession b
                         then [MediaSessionPlaybackState (isPlaying e)]
                         else [])).
    { split; [reflexivity|].
      intros [e b]; destruct b, e. unfold updateMediaSessionState. cbn.
      destruct_scrutinee; reflexivity. }
    instantiate (1 := fun e _ =>
      if onPlayStateChange e then [PlayStateChange false] else []).
    instantiate (1 := fun e => e).
    split; [reflexivity|].
    intros [e b]; destruct b, e. cbn. destruct_scrutinee; reflexivity.
  - intros e. destruct e. reflexivity.
  - intros e b. destruct e. unfold stop_commands. cbn.
    rewrite ?app_nil_r, <- ?app_assoc. cbn. rewrite ?app_nil_r. reflexivity.
Qed.

Ltac run_engine :=
  lazy [bind ret throw try_catch this update backend update_backend emit
        new_node when_some
        set_log set_nextNodeId set_randomPos set_nextTimerId set_contextState
        log nextNodeId eng env currentTime contextState randomSource randomPos
        nextTimerId hasMediaSession contextError resumeError canCreateReverb
        impulseDraws].

Lemma synthesizeVoice_run mg f t d (w : World) :
  synthesizeVoice mg f t d w =
  (Ok tt,
   {| eng := set_voices
               (voices (eng w) ++
                [newVoice (nextNodeId (env w)) t d
                   (release (envelope (synthParams (eng w))))]) (eng w);
      env := set_log (voice_commands (synthParams (eng w)) mg
                        (nextNodeId (env w)) f t d ++ log (env w))
               (set_nextNodeId (7 + nextNodeId (env w))%nat (env w)) |}).
Proof.
  unfold synthesizeVoice, voice_commands, newVoice. 
  run_engine. lazy [rev app Nat.add]. reflexivity.
Qed.

Lemma keepVoice_run now v (w : World) :
  keepVoice now v w = (Ok (alive now v), logged (cleanup_cmds now v) w).
Proof.
  unfold keepVoice, cleanup_cmds, alive.
  destruct (js_lt (endTime v) (now - 0.5)); cbn [negb].
  - destruct w as [e b]; destruct b.
    destruct (oscillator v), (gainNode v); reflexivity.
  - now rewrite logged_nil.
Qed.

Lemma filterVoices_run now vs (w : World) :
  filterVoices now vs w =
  (Ok (filter (alive now) vs), logged (flat_map (cleanup_cmds now) (rev vs)) w).
Proof.
  revert w. induction vs as [|v vs IH]; intros w.
  - cbn. now rewrite logged_nil.
  - cbn [filterVoices filter].
    rewrite (bind_run _ _ _ _ _ (keepVoice_run now v w)).
    rewrite (bind_run _ _ _ _ _ (IH _)).
    cbn [ret]. rewrite logged_logged.
    cbn [rev]. rewrite flat_map_app. cbn [flat_map]. now rewrite app_nil_r.
Qed.

Lemma cleanupOldVoices_run (w : World) ctx :
  audioContext (eng w) = Some ctx ->
  cleanupOldVoices w =
  (Ok tt,
   {| eng := set_voices (filter (alive (currentTime (env w))) (voices (eng w)))
               (eng w);
      env := set_log (flat_map (cleanup_cmds (currentTime (env w)))
                        (rev (voices (eng w))) ++ log (env w)) (env w) |}).
Proof.
  intros Hctx. unfold cleanupOldVoices. cbn [bind this]. rewrite Hctx.
  cbn [bind backend this]. rewrite filterVoices_run. reflexivity.
Qed.

Lemma limitVoices_below (w : World) :
  (List.length (voices (eng w)) < MAX_VOICES)%nat ->
  limitVoices w = (Ok tt, w).
Proof.
  intros Hlt. unfold limitVoices. cbn [bind this].
  apply Nat.leb_gt in Hlt. now rewrite Hlt.
Qed.

Lemma limitVoices_full (w : World) oldest rest :
  voices (eng w) = oldest :: rest ->
  (MAX_VOICES <= List.length (voices (eng w)))%nat ->
  limitVoices w =
  (Ok tt, logged (silence_cmds oldest)
            {| eng := set_voices rest (eng w); env := env w |}).
Proof.
  intros Hvs Hfull. unfold limitVoices, evictOldest. cbn [bind this].
  apply Nat.leb_le in Hfull. rewrite Hfull. cbn [bind this]. rewrite Hvs.
  cbn [bind update]. apply silenceVoice_logged.
Qed.

(** C8, as the code has it.  [triggerNote] keeps the list of tracked
    voices within [MAX_VOICES].  It first drops the voices that ended
    more than half a second ago; if [MAX_VOICES] voices are left, the
    oldest of them is stopped, disconnected and removed, and only then
    are the nodes of the new voice created and the voice tracked. *)
Theorem triggerNote_pool (w : World) (frequency when duration : Q) :
  (List.length (voices (eng w)) <= MAX_VOICES)%nat ->
  let now := currentTime (env w) in
  let kept := filter (alive now) (voices (eng w)) in
  let cleaned := flat_map (cleanup_cmds now) (rev (voices (eng w))) in
  let n := nextNodeId (env w) in
  let nv := newVoice n when duration (release (envelope (synthParams (eng w)))) in
  let w' := after (triggerNote frequency when duration) w in
  outcome (triggerNote frequency when duration) w = Ok tt /\
  (List.length (voices (eng w')) <= MAX_VOICES)%nat /\
  (audioContext (eng w) = None \/ masterGain (eng w) = None -> w' = w) /\
  forall ctx mg,
    audioContext (eng w) = Some ctx -> masterGain (eng w) = Some mg ->
    let cmds := voice_commands (synthParams (eng w)) mg n frequency when duration in
    ((List.length kept < MAX_VOICES)%nat ->
       voices (eng w') = kept ++ [nv] /\
       log (env w') = cmds ++ cleaned ++ log (env w)) /\
    ((List.length kept = MAX_VOICES)%nat ->
       exists oldest rest,
         kept = oldest :: rest /\
         voices (eng w') = rest ++ [nv] /\
         log (env w') = cmds ++ silence_cmds oldest ++ cleaned ++ log (env w)).
Proof.
  intros Hbound now kept cleaned n nv w'.
  assert (Hkept : (List.length kept <= MAX_VOICES)%nat).
  { unfold kept. etransitivity; [apply filter_length_le | exact Hbound]. }
  destruct (audioContext (eng w)) as [ctx|] eqn:Hctx;
    [destruct (masterGain (eng w)) as [mg|] eqn:Hmg|].
  2,3: (assert (Hw : triggerNote frequency when duration w = (Ok tt, w))
         by (unfold triggerNote; cbn [bind this]; rewrite Hctx, ?Hmg; reflexivity);
        subst w'; unfold after, outcome; rewrite Hw; cbn [fst snd];
        repeat split; try assumption; intros; discriminate).
  assert (Hrun : triggerNote frequency when duration w
                 = (cleanupOldVoices ;; limitVoices ;;
                    synthesizeVoice mg frequency when duration) w).
  { unfold triggerNote. cbn [bind this]. now rewrite Hctx, Hmg. }
  pose proof (cleanupOldVoices_run w ctx Hctx) as Hclean.
  fold now kept cleaned in Hclean.
  destruct (Nat.lt_ge_cases (List.length kept) MAX_VOICES) as [Hlt | Hge].
  - assert (Hw : triggerNote frequency when duration w =
      (Ok tt,
       {| eng := set_voices (kept ++ [nv]) (eng w);
          env := set_log (voice_commands (synthParams (eng w)) mg n frequency
                            when duration ++ cleaned ++ log (env w))
                   (set_nextNodeId (7 + n)%nat (env w)) |})).
    { rewrite Hrun, (bind_run _ _ _ _ _ Hclean).
      rewrite (bind_run _ _ _ _ _
                 (limitVoices_below
                    {| eng := set_voices kept (eng w);
                       env := set_log (cleaned ++ log (env w)) (env w) |} Hlt)).
      rewrite synthesizeVoice_run. reflexivity. }
    subst w'. unfold after, outcome. rewrite Hw. cbn [fst snd eng env voices set_voices log set_log].
    split; [reflexivity|]. split.
    { rewrite length_app. cbn. lia. }
    split; [intros [Hc | Hc]; congruence|].
    intros ctx' mg' _ Hmg'. assert (mg' = mg) by congruence. subst mg'.
    cbv zeta. split.
    + intros _. split; reflexivity.
    + intros He. lia.
  - assert (Hfull : List.length kept = MAX_VOICES) by lia.
    destruct kept as [|oldest rest] eqn:Ek; [discriminate|].
    assert (Hw : triggerNote frequency when duration w =
      (Ok tt,
       {| eng := set_voices (rest ++ [nv]) (eng w);
          env := set_log (voice_commands (synthParams (eng w)) mg n frequency
                            when duration ++ silence_cmds oldest ++ cleaned
                            ++ log (env w))
                   (set_nextNodeId (7 + n)%nat (env w)) |})).
    { rewrite Hrun, (bind_run _ _ _ _ _ Hclean).
      rewrite (bind_run _ _ _ _ _
                 (limitVoices_full
                    {| eng := set_voices (oldest :: rest) (eng w);
                       env := set_log (cleaned ++ log (env w)) (env w) |}
                    oldest rest eq_refl Hge)).
      rewrite synthesizeVoice_run. reflexivity. }
    subst w'. unfold after, outcome. rewrite Hw. cbn [fst snd eng env voices set_voices log set_log].
    split; [reflexivity|]. split.
    { rewrite length_app. cbn in Hfull |- *. lia. }
    split; [intros [Hc | Hc]; congruence|].
    intros ctx' mg' _ Hmg'. assert (mg' = mg) by congruence. subst mg'.
    cbv zeta. split.
    + intros Hlt. cbn in Hlt, Hfull. lia.
    + intros _. exists oldest, rest. repeat split; reflexivity.
Qed.

Lemma set_delayFilters_twice (a b : list NodeId) (e : Engine) :
  set_delayFilters a (set_delayFilters b e) = set_delayFilters a e.
Proof. reflexivity. Qed.

Lemma createFilters_run (count : nat) type frequency resonance (w : World) :
  createFilters count type frequency resonance w =
  (Ok tt,
   {| eng := set_delayFilters
               (delayFilters (eng w) ++ seq (nextNodeId (env w)) count) (eng w);
      env := set_log (filter_cmds type frequency resonance
                        (nextNodeId (env w)) count ++ log (env w))
               (set_nextNodeId (count + nextNodeId (env w))%nat (env w)) |}).
Proof.
  revert w. induction count as [|k IH]; intros w.
  - destruct w as [e b]; destruct e, b. cbn. rewrite app_nil_r. reflexivity.
  - cbn [createFilters].
    match goal with
    | |- bind ?c ?k1 w = _ =>
        assert (Hn : c w = (Ok (nextNodeId (env w)),
                            {| eng := eng w;
                               env := set_log (CreateBiquadFilter (nextNodeId (env w))
                                               :: log (env w))
                                        (set_nextNodeId (S (nextNodeId (env w)))
                                           (env w)) |}))
          by reflexivity;
        rewrite (bind_run _ _ _ _ _ Hn)
    end.
    cbn [bind emit update update_backend eng env]. rewrite IH.
    cbn [eng env delayFilters set_delayFilters nextNodeId set_nextNodeId set_log log].
    unfold filter_cmds. cbn [seq rev]. rewrite flat_map_app. cbn [flat_map].
    rewrite <- !app_assoc, Nat.add_succ_r. cbn [app]. reflexivity.
Qed.

Lemma connectCascade_run (filters : list NodeId) (w : World) :
  connectCascade filters w = (Ok tt, logged (cascade_cmds filters) w).
Proof.
  revert w. induction filters as [|a rest IH]; intros w.
  - cbn. now rewrite logged_nil.
  - destruct rest as [|b rest'].
    + cbn. now rewrite logged_nil.
    + cbn [connectCascade cascade_cmds].
      assert (He : emit (Connect a b) w = (Ok tt, logged [Connect a b] w))
        by reflexivity.
      rewrite (bind_run _ _ _ _ _ He), IH, logged_logged. reflexivity.
Qed.

Lemma connectFilters_run dn fb wet (w : World) :
  connectFilters dn fb wet w =
  (Ok tt, logged (connect_cmds dn fb wet (delayFilters (eng w))) w).
Proof.
  unfold connectFilters, connect_cmds. cbn [bind this].
  destruct (delayFilters (eng w)) as [|first rest] eqn:E.
  - reflexivity.
  - assert (He : emit (Connect dn first) w = (Ok tt, logged [Connect dn first] w))
      by reflexivity.
    rewrite (bind_run _ _ _ _ _ He).
    rewrite (bind_run _ _ _ _ _ (connectCascade_run _ _)).
    rewrite logged_logged. cbn [bind emit update_backend]. reflexivity.
Qed.

Lemma setTargetAtTime_run n p v tc (w : World) :
  setTargetAtTime n p v tc w =
  (Ok tt, logged [SetTargetAtTime n p v (currentTime (env w)) tc] w).
Proof. reflexivity. Qed.

Lemma for_of_logged_at {A} (now : Q) (l : list A) (f : A -> M unit)
    (g : A -> list Command) :
  (forall x w, currentTime (env w) = now -> f x w = (Ok tt, logged (g x) w)) ->
  forall w, currentTime (env w) = now ->
    for_of l f w = (Ok tt, logged (flat_map g (rev l)) w).
Proof.
  intros Hf. induction l as [|x l IH]; intros w Hw.
  - cbn. now rewrite logged_nil.
  - cbn [for_of]. rewrite (bind_run _ _ _ _ _ (Hf x w Hw)), IH by exact Hw.
    rewrite logged_logged.
    cbn [rev]. rewrite flat_map_app. cbn. now rewrite app_nil_r.
Qed.

Lemma recreateDelayFilterChain_run type frequency resonance numFilters
    (w : World) ctx dn fb wet :
  audioContext (eng w) = Some ctx ->
  delayNode (eng w) = Some dn ->
  delayFeedbackGain (eng w) = Some fb ->
  delayWetGain (eng w) = Some wet ->
  let n := nextNodeId (env w) in
  let k := for_count numFilters in
  recreateDelayFilterChain type frequency resonance numFilters w =
  (Ok tt,
   {| eng := set_delayFilters (seq n k) (eng w);
      env := set_log (connect_cmds dn fb wet (seq n k) ++
                      Disconnect dn ::
                      filter_cmds type frequency resonance n k ++
                      map Disconnect (rev (delayFilters (eng w))) ++
                      log (env w))
               (set_nextNodeId (k + n)%nat (env w)) |}).
Proof.
  intros Hctx Hdn Hfb Hwet n k.
  unfold recreateDelayFilterChain. cbn [bind this].
  rewrite Hctx, Hdn, Hfb, Hwet. cbn [bind this].
  rewrite (for_of_logged _ _ (fun x => [Disconnect x])) by reflexivity.
  rewrite flat_map_singleton. cbn [update bind].
  rewrite createFilters_run. cbn [emit update_backend bind].
  rewrite connectFilters_run.
  unfold logged.
  cbn [eng env delayFilters set_delayFilters log set_log nextNodeId
       set_nextNodeId app].
  reflexivity.
Qed.

Lemma retune_run type frequency resonance (w : World) :
  for_of (delayFilters (eng w))
    (fun filter =>
       emit (SetFilterType filter type) ;;
       setTargetAtTime filter frequency_param frequency 0.05 ;;
       setTargetAtTime filter Q_param resonance 0.05) w =
  (Ok tt, logged (retune_cmds type frequency resonance (currentTime (env w))
                    (delayFilters (eng w))) w).
Proof.
  apply (for_of_logged_at (currentTime (env w))); [|reflexivity].
  intros x w' Hw'. unfold setTargetAtTime. cbn. rewrite Hw'. reflexivity.
Qed.

Lemma updateDelayFilters_rebuild type frequency resonance order
    (w : World) ctx dn fb wet :
  audioContext (eng w) = Some ctx ->
  delayNode (eng w) = Some dn ->
  delayFeedbackGain (eng w) = Some fb ->
  delayWetGain (eng w) = Some wet ->
  ~ js_length (delayFilters (eng w)) == order / 6 ->
  updateDelayFilters type frequency resonance order w =
  recreateDelayFilterChain type frequency resonance (order / 6) w.
Proof.
  intros Hctx Hdn Hfb Hwet Hne.
  unfold updateDelayFilters. cbn [bind this]. rewrite Hctx. cbn [bind this].
  destruct (Qeq_bool (js_length (delayFilters (eng w))) (order / 6)) eqn:E.
  - apply Qeq_bool_iff in E. contradiction.
  - reflexivity.
Qed.

Lemma updateDelayFilters_retune type frequency resonance order
    (w : World) ctx :
  audioContext (eng w) = Some ctx ->
  js_length (delayFilters (eng w)) == order / 6 ->
  updateDelayFilters type frequency resonance order w =
  (Ok tt, logged (retune_cmds type frequency resonance (currentTime (env w))
                    (delayFilters (eng w))) w).
Proof.
  intros Hctx He.
  unfold updateDelayFilters. cbn [bind this]. rewrite Hctx. cbn [bind this].
  apply Qeq_bool_iff in He. rewrite He. cbn [negb]. apply retune_run.
Qed.

Lemma updateDelayParams_run (w : World) ctx :
  audioContext (eng w) = Some ctx ->
  let d := delay (synthParams (eng w)) in
  updateDelayParams w =
  updateDelayFilters (filterType d) (filterFrequency d) (filterResonance d)
    (filterOrder d)
    (logged (delay_param_cmds (eng w) (currentTime (env w))) w).
Proof.
  intros Hctx d. subst d. destruct w as [e b]. cbn [eng env] in *.
  unfold updateDelayParams, delay_param_cmds.
  cbn [bind this eng]. rewrite Hctx.
  destruct e, b. cbn -[updateDelayFilters musicalDurationToSeconds Math_min Qminus].
  destruct_scrutinee; reflexivity.
Qed.

Lemma createDelayEffect_run (w : World) ctx mg :
  audioContext (eng w) = Some ctx ->
  masterGain (eng w) = Some mg ->
  let d := delay (synthParams (eng w)) in
  let n := nextNodeId (env w) in
  let k := stage_count (filterOrder d) in
  createDelayEffect w =
  (Ok tt,
   {| eng := set_delayFilters (seq (5 + n)%nat k)
               (set_delayInputGain (Some (4 + n)%nat)
                  (set_delayWetGain (Some (3 + n)%nat)
                     (set_delayDryGain (Some (2 + n)%nat)
                        (set_delayFeedbackGain (Some (1 + n)%nat)
                           (set_delayNode (Some n) (eng w))))));
      env := set_log (delay_effect_cmds (eng w) mg n ++ log (env w))
               (set_nextNodeId (k + (5 + n))%nat (env w)) |}).
Proof.
  intros Hctx Hmg d n k.
  unfold createDelayEffect. cbn [bind this]. rewrite Hctx, Hmg.
  run_engine. rewrite createFilters_run. run_engine.
  rewrite connectFilters_run.
  unfold logged, delay_effect_cmds.
  cbn [app]. rewrite <- ?app_assoc. cbn [app]. reflexivity.
Qed.

Lemma setSynthParams_delay (p : PartialSynthParams) (d' : DelayParams)
    (w w2 : World) :
  p_delay p = Some d' ->
  updateDelayParams
    {| eng := set_synthParams
                (merge_params
                   {| p_envelope := p_envelope p; p_vibrato := p_vibrato p;
                      p_tremolo := p_tremolo p; p_delay := p_delay p;
                      p_maxNoteDuration := None |}
                   (synthParams (eng w))) (eng w);
       env := env w |} = (Ok tt, w2) ->
  setSynthParams p w =
  (Ok tt,
   {| eng := match p_maxNoteDuration p with
             | Some x =>
                 set_synthParams
                   (set_maxNoteDuration x (synthParams (eng w2))) (eng w2)
             | None => eng w2
             end;
      env := env w2 |}).
Proof.
  intros Hd Hrun. unfold setSynthParams, merge_params in *.
  destruct p as [pe pv pt pd pm].
  cbn [p_envelope p_vibrato p_tremolo p_delay p_maxNoteDuration] in *.
  subst pd. destruct w as [e b].
  destruct pe, pv, pt;
    cbn [when_some bind update ret eng env] in *;
    match type of Hrun with
    | updateDelayParams ?W0 = _ =>
        match goal with
        | |- context [updateDelayParams ?W] => change W with W0
        end
    end;
    rewrite Hrun; destruct pm; destruct w2; reflexivity.
Qed.

Lemma delay_merge_params (p : PartialSynthParams) (s : SynthParams) d' :
  p_delay p = Some d' -> delay (merge_params p s) = d'.
Proof.
  intros Hd. unfold merge_params. rewrite Hd.
  destruct (p_maxNoteDuration p); reflexivity.
Qed.

Lemma setSynthParams_rebuild (p : PartialSynthParams) (d' : DelayParams)
    (w : World) ctx dn fb wet :
  audioContext (eng w) = Some ctx ->
  delayNode (eng w) = Some dn ->
  delayFeedbackGain (eng w) = Some fb ->
  delayWetGain (eng w) = Some wet ->
  p_delay p = Some d' ->
  ~ js_length (delayFilters (eng w)) == filterOrder d' / 6 ->
  let e' := set_synthParams (merge_params p (synthParams (eng w))) (eng w) in
  let n := nextNodeId (env w) in
  let k := stage_count (filterOrder d') in
  setSynthParams p w =
  (Ok tt,
   {| eng := set_delayFilters (seq n k) e';
      env := set_log (rebuild_cmds e' (currentTime (env w)) dn fb wet n k ++
                      log (env w))
               (set_nextNodeId (k + n)%nat (env w)) |}).
Proof.
  intros Hctx Hdn Hfb Hwet Hd Hne e' n k.
  erewrite (setSynthParams_delay p d' w); [|exact Hd|].
  2:{ rewrite (updateDelayParams_run _ ctx) by exact Hctx. cbv zeta.
      cbn [eng env set_synthParams synthParams].
      rewrite (delay_merge_params _ _ d') by exact Hd.
      rewrite (updateDelayFilters_rebuild _ _ _ _ _ ctx dn fb wet);
        try assumption.
      apply (recreateDelayFilterChain_run _ _ _ _ _ ctx dn fb wet);
        assumption. }
  subst e' n k. unfold rebuild_cmds, stage_count.
  destruct p as [pe pv pt pd pm].
  cbn [p_envelope p_vibrato p_tremolo p_delay p_maxNoteDuration] in *.
  subst pd. destruct w as [e b].
  unfold logged, merge_params.
  cbn [p_envelope p_vibrato p_tremolo p_delay p_maxNoteDuration eng env].
  unfold delay_param_cmds.
  destruct pm, e, b; cbn -[connect_cmds filter_cmds musicalDurationToSeconds
                           Math_min Qminus for_count];
    rewrite <- ?app_assoc; cbn [app]; rewrite <- ?app_assoc; cbn [app];
    rewrite <- ?app_assoc; reflexivity.
Qed.

Lemma setSynthParams_retune (p : PartialSynthParams) (d' : DelayParams)
    (w : World) ctx :
  audioContext (eng w) = Some ctx ->
  p_delay p = Some d' ->
  js_length (delayFilters (eng w)) == filterOrder d' / 6 ->
  let e' := set_synthParams (merge_params p (synthParams (eng w))) (eng w) in
  setSynthParams p w =
  (Ok tt,
   {| eng := e';
      env := set_log (retune_all_cmds e' (currentTime (env w)) ++ log (env w))
               (env w) |}).
Proof.
  intros Hctx Hd He e'.
  erewrite (setSynthParams_delay p d' w); [|exact Hd|].
  2:{ rewrite (updateDelayParams_run _ ctx) by exact Hctx. cbv zeta.
      cbn [eng env set_synthParams synthParams].
      rewrite (delay_merge_params _ _ d') by exact Hd.
      apply (updateDelayFilters_retune _ _ _ _ _ ctx); assumption. }
  subst e'. unfold retune_all_cmds.
  destruct p as [pe pv pt pd pm].
  cbn [p_envelope p_vibrato p_tremolo p_delay p_maxNoteDuration] in *.
  subst pd. destruct w as [e b].
  unfold logged, merge_params.
  cbn [p_envelope p_vibrato p_tremolo p_delay p_maxNoteDuration eng env].
  unfold delay_param_cmds.
  destruct pm, e, b; cbn -[retune_cmds musicalDurationToSeconds Math_min Qminus];
    rewrite <- ?app_assoc; cbn [app]; rewrite <- ?app_assoc; reflexivity.
Qed.

Lemma stage_count_supported (order : Q) :
  supported_order order ->
  inject_Z (Z.of_nat (stage_count order)) == order / 6.
Proof.
  unfold stage_count, for_count.
  intros [H | [H | H]].
  - rewrite (Qceiling_comp (order / 6) (6 / 6)) by (rewrite H; reflexivity).
    rewrite H. reflexivity.
  - rewrite (Qceiling_comp (order / 6) (12 / 6)) by (rewrite H; reflexivity).
    rewrite H. reflexivity.
  - rewrite (Qceiling_comp (order / 6) (24 / 6)) by (rewrite H; reflexivity).
    rewrite H. reflexivity.
Qed.

Lemma js_length_seq (n k : nat) : js_length (seq n k) = inject_Z (Z.of_nat k).
Proof. unfold js_length. now rewrite length_seq. Qed.

Lemma in_filter_cmds type frequency resonance n k f :
  In f (seq n k) ->
  In (CreateBiquadFilter f) (filter_cmds type frequency resonance n k).
Proof.
  intros Hf. unfold filter_cmds. apply in_flat_map. exists f. split.
  - now apply in_rev in Hf.
  - cbn. auto.
Qed.

Lemma in_retune_cmds type frequency resonance now filters f :
  In f filters ->
  In (SetFilterType f type) (retune_cmds type frequency resonance now filters) /\
  In (SetTargetAtTime f frequency_param frequency now 0.05)
     (retune_cmds type frequency resonance now filters) /\
  In (SetTargetAtTime f Q_param resonance now 0.05)
     (retune_cmds type frequency resonance now filters).
Proof.
  intros Hf. unfold retune_cmds.
  repeat split; apply in_flat_map; exists f;
    (split; [now apply in_rev in Hf | cbn; auto]).
Qed.

Lemma retune_all_tuning (e : Engine) (now : Q) c :
  In c (retune_all_cmds e now) -> is_tuning c = true.
Proof.
  unfold retune_all_cmds, retune_cmds, delay_param_cmds.
  rewrite !in_app_iff, in_flat_map.
  intros [[f [_ Hc]] | [Hc | [Hc | Hc]]].
  - cbn in Hc. repeat (destruct Hc as [<- | Hc]; [reflexivity|]). contradiction.
  - destruct (delayDryGain e), (delayWetGain e); cbn in Hc;
      repeat (destruct Hc as [<- | Hc]; [reflexivity|]); contradiction.
  - destruct (delayFeedbackGain e); cbn in Hc;
      repeat (destruct Hc as [<- | Hc]; [reflexivity|]); contradiction.
  - destruct (delayNode e); cbn in Hc;
      repeat (destruct Hc as [<- | Hc]; [reflexivity|]); contradiction.
Qed.

Lemma in_cascade_cmds (filters : list NodeId) i a b :
  nth_error filters i = Some a -> nth_error filters (S i) = Some b ->
  In (Connect a b) (cascade_cmds filters).
Proof.
  revert i. induction filters as [|x l IH]; intros i Ha Hb.
  - destruct i; discriminate Ha.
  - destruct l as [|y l']; [destruct i; discriminate Hb|].
    cbn [cascade_cmds]. apply in_or_app. destruct i as [|i].
    + right. cbn in Ha, Hb. inversion Ha. inversion Hb. now left.
    + left. apply (IH i); assumption.
Qed.

Lemma nth_error_last (l : list NodeId) (d x : NodeId) :
  nth_error l (Nat.pred (List.length l)) = Some x -> last l d = x.
Proof.
  induction l as [|a l IH]; [discriminate|].
  destruct l as [|b l']; cbn [List.length Nat.pred].
  - cbn. congruence.
  - intros H. change (last (a :: b :: l') d) with (last (b :: l') d).
    apply IH. exact H.
Qed.

Lemma cascade_cmds_connect (filters : list NodeId) c :
  In c (cascade_cmds filters) -> is_connect c = true.
Proof.
  induction filters as [|x l IH]; [intros []|].
  destruct l as [|y l']; [intros []|].
  cbn [cascade_cmds]. rewrite in_app_iff.
  intros [H | [<- | []]]; [apply IH, H | reflexivity].
Qed.

Lemma connect_cmds_wired dn fb wet (filters : list NodeId) :
  cascade_wired dn fb wet filters (connect_cmds dn fb wet filters) /\
  forall c, In c (connect_cmds dn fb wet filters) -> is_connect c = true.
Proof.
  unfold cascade_wired, connect_cmds. destruct filters as [|first rest].
  - split; [|intros c [<- | [<- | []]]; reflexivity].
    split; [discriminate|]. split; [intros [|i] a b H; discriminate H|].
    split; [discriminate|]. intros _. cbn. auto.
  - split.
    + split; [|split; [|split; [|discriminate]]].
      * intros f Hf. inversion Hf. subst f.
        apply in_or_app. right. apply in_or_app. right. now left.
      * intros i a b Ha Hb. apply in_or_app. right. apply in_or_app. left.
        apply (in_cascade_cmds _ i); assumption.
      * intros l Hl. apply (nth_error_last _ first) in Hl. rewrite Hl.
        cbn. auto.
    + intros c. rewrite !in_app_iff.
      intros [[<- | [<- | []]] | [H | [<- | []]]]; try reflexivity.
      apply (cascade_cmds_connect _ _ H).
Qed.

(** C6.  [createDelayEffect] builds exactly [filterOrder / 6] filter
    stages and wires them as a cascade: the delay node into the first
    stage, each stage into the next, the last stage into the feedback
    and the wet gain.  On a built chain, a parameter update that
    changes the filter order disconnects every old stage (and the
    delay node that fed them), builds new stages of the new count and,
    after the disconnections, wires them as a cascade in the same way;
    an update that keeps the filter order keeps the same stages and
    only retunes them: it sets their type and schedules the smoothed
    change of frequency and resonance, without creating, connecting or
    disconnecting a node. *)
Theorem delay_filter_cascade
    (w0 w : World) (ctx0 : AudioContext) (mg : NodeId)
    (pB pC : PartialSynthParams) (dB dC : DelayParams) :
  audioContext (eng w0) = Some ctx0 ->
  masterGain (eng w0) = Some mg ->
  supported_order (filterOrder (delay (synthParams (eng w0)))) ->
  chain_built w ->
  p_delay pB = Some dB ->
  supported_order (filterOrder dB) ->
  ~ filterOrder dB == filterOrder (delay (synthParams (eng w))) ->
  p_delay pC = Some dC ->
  filterOrder dC == filterOrder (delay (synthParams (eng w))) ->
  let w1 := after createDelayEffect w0 in
  let wB := after (setSynthParams pB) w in
  let wC := after (setSynthParams pC) w in
  (outcome createDelayEffect w0 = Ok tt /\
   js_length (delayFilters (eng w1))
     == filterOrder (delay (synthParams (eng w0))) / 6 /\
   chain_built w1 /\
   (forall f, In f (delayFilters (eng w1)) ->
      In (CreateBiquadFilter f) (log (env w1))) /\
   exists dn fb wet delta,
     delayNode (eng w1) = Some dn /\
     delayFeedbackGain (eng w1) = Some fb /\
     delayWetGain (eng w1) = Some wet /\
     log (env w1) = delta ++ log (env w0) /\
     (forall f, In f (delayFilters (eng w1)) ->
        In (CreateBiquadFilter f) delta /\ (nextNodeId (env w0) <= f)%nat) /\
     cascade_wired dn fb wet (delayFilters (eng w1)) delta /\
     (forall c, In c delta -> c <> Disconnect dn)) /\
  (outcome (setSynthParams pB) w = Ok tt /\
   js_length (delayFilters (eng wB)) == filterOrder dB / 6 /\
   chain_built wB /\
   delayNode (eng wB) = delayNode (eng w) /\
   delayFeedbackGain (eng wB) = delayFeedbackGain (eng w) /\
   delayWetGain (eng wB) = delayWetGain (eng w) /\
   exists delta,
     log (env wB) = delta ++ log (env w) /\
     (forall f, In f (delayFilters (eng w)) -> In (Disconnect f) delta) /\
     (forall dn, delayNode (eng w) = Some dn -> In (Disconnect dn) delta) /\
     (forall f, In f (delayFilters (eng wB)) ->
        In (CreateBiquadFilter f) delta /\ (nextNodeId (env w) <= f)%nat) /\
     (forall dn fb wet,
        delayNode (eng w) = Some dn ->
        delayFeedbackGain (eng w) = Some fb ->
        delayWetGain (eng w) = Some wet ->
        exists conn rest,
          delta = conn ++ Disconnect dn :: rest /\
          cascade_wired dn fb wet (delayFilters (eng wB)) conn /\
          (forall c, In c conn -> is_connect c = true))) /\
  (outcome (setSynthParams pC) w = Ok tt /\
   delayFilters (eng wC) = delayFilters (eng w) /\
   nextNodeId (env wC) = nextNodeId (env w) /\
   chain_built wC /\
   exists delta,
     log (env wC) = delta ++ log (env w) /\
     (forall f, In f (delayFilters (eng w)) ->
        In (SetFilterType f (filterType dC)) delta /\
        In (SetTargetAtTime f frequency_param (filterFrequency dC)
              (currentTime (env w)) 0.05) delta /\
        In (SetTargetAtTime f Q_param (filterResonance dC)
              (currentTime (env w)) 0.05) delta) /\
     (forall c, In c delta -> is_tuning c = true)).
Proof.
  intros Hctx0 Hmg Hsup0 [ctx [dn [fb [wet [Hctx [Hdn [Hfb [Hwet Hlen]]]]]]]]
    HpB HsupB HneB HpC HeqC w1 wB wC.
  split; [|split].
  - subst w1. unfold after, outcome.
    rewrite (createDelayEffect_run w0 ctx0 mg Hctx0 Hmg). cbn [fst snd].
    split; [reflexivity|].
    cbn [eng env delayFilters set_delayFilters log set_log].
    assert (Hk : js_length
                   (seq (5 + nextNodeId (env w0))
                      (stage_count (filterOrder (delay (synthParams (eng w0))))))
                 == filterOrder (delay (synthParams (eng w0))) / 6).
    { rewrite js_length_seq. apply stage_count_supported, Hsup0. }
    split; [exact Hk|]. split; [|split].
    + exists ctx0, (nextNodeId (env w0)), (1 + nextNodeId (env w0))%nat,
        (3 + nextNodeId (env w0))%nat.
      cbn. repeat split; try reflexivity; try assumption.
    + intros f Hf. apply in_or_app. left.
      unfold delay_effect_cmds. apply in_or_app. right.
      apply in_or_app. left. now apply in_filter_cmds.
    + exists (nextNodeId (env w0)), (1 + nextNodeId (env w0))%nat,
        (3 + nextNodeId (env w0))%nat. eexists.
      split; [reflexivity|]. split; [reflexivity|]. split; [reflexivity|].
      split; [reflexivity|].
      set (n := nextNodeId (env w0)).
      set (k := stage_count (filterOrder (delay (synthParams (eng w0))))).
      destruct (connect_cmds_wired n (1 + n)%nat (3 + n)%nat
                  (seq (5 + n)%nat k)) as [(W1 & W2 & W3 & W4) Hconn].
      split; [|split].
      * intros f Hf. split; [|apply in_seq in Hf; lia].
        unfold delay_effect_cmds. apply in_or_app. right.
        apply in_or_app. left. now apply in_filter_cmds.
      * assert (Hin : forall c,
                  In c (connect_cmds n (1 + n)%nat (3 + n)%nat
                          (seq (5 + n)%nat k)) ->
                  In c (delay_effect_cmds (eng w0) mg n)).
        { intros c Hc. unfold delay_effect_cmds. apply in_or_app. left.
          right. apply in_or_app. left. exact Hc. }
        split; [|split; [|split]].
        -- intros f Hf. apply Hin, W1, Hf.
        -- intros i a b Ha Hb. apply Hin, (W2 i); assumption.
        -- intros l Hl. destruct (W3 l Hl). split; apply Hin; assumption.
        -- intros He. destruct (W4 He). split; apply Hin; assumption.
      * intros c Hc Heq. subst c.
        assert (Hnc : ~ In (Disconnect n)
                        (connect_cmds n (1 + n)%nat (3 + n)%nat
                           (seq (5 + n)%nat k)))
          by (intros H; apply Hconn in H; discriminate H).
        assert (Hnf : forall ty fr re,
                  ~ In (Disconnect n) (filter_cmds ty fr re (5 + n)%nat k)).
        { intros ty fr re H. unfold filter_cmds in H.
          apply in_flat_map in H. destruct H as [f [_ H]].
          cbn in H. intuition discriminate. }
        unfold delay_effect_cmds in Hc. cbv zeta in Hc. fold k in Hc.
        rewrite !in_app_iff in Hc. cbn [In] in Hc.
        rewrite !in_app_iff in Hc. cbn [In] in Hc.
        destruct Hc as [[Hc | [Hc | Hc]] | [Hc | Hc]].
        -- discriminate Hc.
        -- exact (Hnc Hc).
        -- intuition discriminate.
        -- exact (Hnf _ _ _ Hc).
        -- intuition discriminate.
  - assert (Hne : ~ js_length (delayFilters (eng w)) == filterOrder dB / 6).
    { intros Hc. apply HneB. rewrite Hc in Hlen. clear - Hlen. qlra. }
    subst wB. unfold after, outcome.
    rewrite (setSynthParams_rebuild pB dB w ctx dn fb wet); try assumption.
    cbn [fst snd eng env delayFilters set_delayFilters log set_log].
    split; [reflexivity|].
    assert (Hk : js_length (seq (nextNodeId (env w)) (stage_count (filterOrder dB)))
                 == filterOrder dB / 6).
    { rewrite js_length_seq. apply stage_count_supported, HsupB. }
    split; [exact Hk|]. split; [|split; [|split; [|split]]].
    + exists ctx, dn, fb, wet. cbn.
      rewrite (delay_merge_params _ _ dB) by exact HpB.
      repeat split; assumption.
    + reflexivity.
    + reflexivity.
    + reflexivity.
    + eexists. split; [reflexivity|].
      unfold rebuild_cmds. cbn [delayFilters set_synthParams].
      split; [|split; [|split]].
      * intros f Hf. apply in_or_app. right. right.
        apply in_or_app. right. apply in_or_app. left.
        apply in_map, in_rev. now rewrite rev_involutive.
      * intros dn' Hdn'. assert (dn' = dn) by congruence. subst dn'.
        apply in_or_app. right. left. reflexivity.
      * intros f Hf. split.
        -- apply in_or_app. right. right. apply in_or_app. left.
           now apply in_filter_cmds.
        -- apply in_seq in Hf. lia.
      * intros dn' fb' wet' Hdn' Hfb' Hwet'.
        assert (dn' = dn) by congruence.
        assert (fb' = fb) by congruence.
        assert (wet' = wet) by congruence. subst dn' fb' wet'.
        eexists. eexists. split; [reflexivity|].
        apply connect_cmds_wired.
  - assert (He : js_length (delayFilters (eng w)) == filterOrder dC / 6).
    { rewrite Hlen, HeqC. reflexivity. }
    subst wC. unfold after, outcome.
    rewrite (setSynthParams_retune pC dC w ctx); try assumption.
    cbn [fst snd eng env delayFilters set_synthParams log set_log nextNodeId].
    split; [reflexivity|]. split; [reflexivity|]. split; [reflexivity|]. split.
    + exists ctx, dn, fb, wet. cbn.
      rewrite (delay_merge_params _ _ dC) by exact HpC.
      repeat split; assumption.
    + eexists. split; [reflexivity|]. split.
      * intros f Hf. unfold retune_all_cmds. cbn [delayFilters set_synthParams synthParams].
        rewrite (delay_merge_params _ _ dC) by exact HpC.
        rewrite !in_app_iff.
        destruct (in_retune_cmds (filterType dC) (filterFrequency dC)
                    (filterResonance dC) (currentTime (env w))
                    (delayFilters (eng w)) f Hf) as [H1 [H2 H3]].
        auto.
      * apply retune_all_tuning.
Qed.

End Running.

(* ----------------------------------------------------------------- *)
(** ** stop *)

(** C9.  From every state [stop()] returns normally and leaves the
    engine Stopped: not playing, no timer, no tracked voice, no effect
    node, with every tracked voice silenced and every effect node
    disconnected on the way.  A second [stop()] returns normally too,
    leaves the engine as the first one left it, and sends nothing to a
    voice or an effect node. *)
Theorem stop_idempotent `{Platform} (w : World) :
  let w1 := after stop w in
  let w2 := after stop w1 in
  outcome stop w = Ok tt /\
  eng w1 = stopped (eng w) /\
  isPlaying (eng w1) = false /\
  schedulerId (eng w1) = None /\
  voices (eng w1) = [] /\
  masterGain (eng w1) = None /\
  delayNode (eng w1) = None /\
  delayFeedbackGain (eng w1) = None /\
  delayFilters (eng w1) = [] /\
  delayDryGain (eng w1) = None /\
  delayWetGain (eng w1) = None /\
  delayInputGain (eng w1) = None /\
  reverbNode (eng w1) = None /\
  env w1 = set_log (stop_commands (eng w) (env w) ++ log (env w)) (env w) /\
  outcome stop w1 = Ok tt /\
  eng w2 = eng w1 /\
  env w2 = set_log (stop_commands (eng w1) (env w1) ++ log (env w1)) (env w1) /\
  (forall c, In c (stop_commands (eng w1) (env w1)) ->
     c = PlayStateChange false \/
     c = MediaSessionPlaybackState false \/
     c = SuspendContext).
Proof.
  cbv zeta. unfold after, outcome.
  destruct stop_runs as [_ Hrun].
  pose proof (Hrun w) as E1. rewrite E1. cbn [fst snd eng env].
  match type of E1 with _ = (_, ?x) => pose proof (Hrun x) as E2 end.
  rewrite E2. cbn [fst snd eng env].
  repeat (split; [reflexivity|]).
  intros c. unfold stop_commands. cbn.
  destruct (onPlayStateChange (eng w)), (hasMediaSession (env w)),
    (audioContext (eng w)), (contextState (env w)); cbn; intros Hin;
    repeat (destruct Hin as [<- | Hin]; [auto|]); contradiction.
Qed.

Lemma triggerNote_pool_witness :
  let w := fullWorld in
  let frequency := 440 in
  let when := 0.02 in
  let duration := 1 in
  (List.length (voices (eng w)) <= MAX_VOICES)%nat /\
  let now := currentTime (env w) in
  let kept := filter (alive now) (voices (eng w)) in
  let cleaned := flat_map (cleanup_cmds now) (rev (voices (eng w))) in
  let n := nextNodeId (env w) in
  let nv := newVoice n when duration (release (envelope (synthParams (eng w)))) in
  let w' := after (triggerNote frequency when duration) w in
  outcome (triggerNote frequency when duration) w = Ok tt /\
  (List.length (voices (eng w')) <= MAX_VOICES)%nat /\
  (audioContext (eng w) = None \/ masterGain (eng w) = None -> w' = w) /\
  forall ctx mg,
    audioContext (eng w) = Some ctx -> masterGain (eng w) = Some mg ->
    let cmds := voice_commands (synthParams (eng w)) mg n frequency when duration in
    ((List.length kept < MAX_VOICES)%nat ->
       voices (eng w') = kept ++ [nv] /\
       log (env w') = cmds ++ cleaned ++ log (env w)) /\
    ((List.length kept = MAX_VOICES)%nat ->
       exists oldest rest,
         kept = oldest :: rest /\
         voices (eng w') = rest ++ [nv] /\
         log (env w') = cmds ++ silence_cmds oldest ++ cleaned ++ log (env w)).
Proof.
  assert (Hfull : (List.length (voices (eng fullWorld)) <= MAX_VOICES)%nat).
  { apply Nat.leb_le. vm_compute. reflexivity. }
  cbv zeta. split; [exact Hfull|].
  apply (@triggerNote_pool examplePlatform fullWorld 440 0.02 1 Hfull).
Defined.

(** C8 as stated fails when the pool is full at the call but holds a
    finished voice that is not the oldest: the finished voice is dropped,
    nothing is evicted, and the oldest voice stays tracked and is not
    stopped. *)
Lemma triggerNote_full_pool_keeps_oldest :
  let w := staleWorld in
  let w' := after (triggerNote 440 10.02 1) w in
  List.length (voices (eng w)) = MAX_VOICES /\
  List.length (voices (eng w')) = MAX_VOICES /\
  hd_error (voices (eng w)) =
    Some {| oscillator := Some 12%nat; gainNode := Some 18%nat;
            startTime := 0.02; endTime := 0.02 + 100 + 1.8 |} /\
  hd_error (voices (eng w')) = hd_error (voices (eng w)) /\
  stopped_in_log 12%nat (log (env w')) = false.
Proof.
  vm_compute. repeat split; reflexivity.
Qed.

Lemma delay_filter_cascade_witness :
  let w0 := startedWorld 0 0 in
  let w := startedWorld 0 0 in
  let pB := delayUpdate steepDelay in
  let pC := delayUpdate highpassDelay in
  let dB := steepDelay in
  let dC := highpassDelay in
  (audioContext (eng w0) = Some the_audioContext /\
   masterGain (eng w0) = Some 0%nat /\
   supported_order (filterOrder (delay (synthParams (eng w0)))) /\
   chain_built w /\
   p_delay pB = Some dB /\
   supported_order (filterOrder dB) /\
   ~ filterOrder dB == filterOrder (delay (synthParams (eng w))) /\
   p_delay pC = Some dC /\
   filterOrder dC == filterOrder (delay (synthParams (eng w)))) /\
  let w1 := after createDelayEffect w0 in
  let wB := after (setSynthParams pB) w in
  let wC := after (setSynthParams pC) w in
  (outcome createDelayEffect w0 = Ok tt /\
   js_length (delayFilters (eng w1))
     == filterOrder (delay (synthParams (eng w0))) / 6 /\
   chain_built w1 /\
   (forall f, In f (delayFilters (eng w1)) ->
      In (CreateBiquadFilter f) (log (env w1))) /\
   exists dn fb wet delta,
     delayNode (eng w1) = Some dn /\
     delayFeedbackGain (eng w1) = Some fb /\
     delayWetGain (eng w1) = Some wet /\
     log (env w1) = delta ++ log (env w0) /\
     (forall f, In f (delayFilters (eng w1)) ->
        In (CreateBiquadFilter f) delta /\ (nextNodeId (env w0) <= f)%nat) /\
     cascade_wired dn fb wet (delayFilters (eng w1)) delta /\
     (forall c, In c delta -> c <> Disconnect dn)) /\
  (outcome (setSynthParams pB) w = Ok tt /\
   js_length (delayFilters (eng wB)) == filterOrder dB / 6 /\
   chain_built wB /\
   delayNode (eng wB) = delayNode (eng w) /\
   delayFeedbackGain (eng wB) = delayFeedbackGain (eng w) /\
   delayWetGain (eng wB) = delayWetGain (eng w) /\
   exists delta,
     log (env wB) = delta ++ log (env w) /\
     (forall f, In f (delayFilters (eng w)) -> In (Disconnect f) delta) /\
     (forall dn, delayNode (eng w) = Some dn -> In (Disconnect dn) delta) /\
     (forall f, In f (delayFilters (eng wB)) ->
        In (CreateBiquadFilter f) delta /\ (nextNodeId (env w) <= f)%nat) /\
     (forall dn fb wet,
        delayNode (eng w) = Some dn ->
        delayFeedbackGain (eng w) = Some fb ->
        delayWetGain (eng w) = Some wet ->
        exists conn rest,
          delta = conn ++ Disconnect dn :: rest /\
          cascade_wired dn fb wet (delayFilters (eng wB)) conn /\
          (forall c, In c conn -> is_connect c = true))) /\
  (outcome (setSynthParams pC) w = Ok tt /\
   delayFilters (eng wC) = delayFilters (eng w) /\
   nextNodeId (env wC) = nextNodeId (env w) /\
   chain_built wC /\
   exists delta,
     log (env wC) = delta ++ log (env w) /\
     (forall f, In f (delayFilters (eng w)) ->
        In (SetFilterType f (filterType dC)) delta /\
        In (SetTargetAtTime f frequency_param (filterFrequency dC)
              (currentTime (env w)) 0.05) delta /\
        In (SetTargetAtTime f Q_param (filterResonance dC)
              (currentTime (env w)) 0.05) delta) /\
     (forall c, In c delta -> is_tuning c = true)).
Proof.
  assert (Hbuilt : chain_built (startedWorld 0 0)).
  { exists the_audioContext, 1%nat, 2%nat, 4%nat.
    repeat split; vm_compute; reflexivity. }
  assert (Hsup : supported_order
                   (filterOrder (delay (synthParams (eng (startedWorld 0 0)))))).
  { right. left. vm_compute. reflexivity. }
  assert (HsupB : supported_order (filterOrder steepDelay)).
  { right. right. reflexivity. }
  assert (Hne : ~ filterOrder steepDelay
                  == filterOrder (delay (synthParams (eng (startedWorld 0 0))))).
  { intros Hc. vm_compute in Hc. discriminate Hc. }
  assert (Hctx : audioContext (eng (startedWorld 0 0)) = Some the_audioContext)
    by (vm_compute; reflexivity).
  assert (Hmg : masterGain (eng (startedWorld 0 0)) = Some 0%nat)
    by (vm_compute; reflexivity).
  assert (Heq : filterOrder highpassDelay
                == filterOrder (delay (synthParams (eng (startedWorld 0 0)))))
    by (vm_compute; reflexivity).
  cbv zeta. split.
  - repeat (split; [first [assumption | reflexivity]|]). exact Heq.
  - exact (@delay_filter_cascade examplePlatform (startedWorld 0 0)
             (startedWorld 0 0) the_audioContext 0%nat
             (delayUpdate steepDelay) (delayUpdate highpassDelay)
             steepDelay highpassDelay
             Hctx Hmg Hsup Hbuilt eq_refl HsupB Hne eq_refl Heq).
Defined.

(* ================================================================= *)
(** * The scheduler: onsets of a session, and the timing of start() *)

Section Session.
Context {P : Platform}.

Lemma steady_refl (w : World) : steady w w.
Proof. repeat split. Qed.

Lemma steady_trans (a b c : World) : steady a b -> steady b c -> steady a c.
Proof.
  unfold steady. intros H1 H2.
  decompose [and] H1. decompose [and] H2.
  repeat split; etransitivity; eassumption.
Qed.

Lemma sf_ret {A} (a : A) : steady_frame (ret a).
Proof. intros w. apply steady_refl. Qed.

Lemma sf_throw {A} (e : string) : steady_frame (@throw _ A e).
Proof. intros w. apply steady_refl. Qed.

Lemma sf_this {A} (f : Engine -> A) : steady_frame (this f).
Proof. intros w. apply steady_refl. Qed.

Lemma sf_backend {A} (f : Backend -> A) : steady_frame (backend f).
Proof. intros w. apply steady_refl. Qed.

Lemma sf_bind {A B} (c : M A) (k : A -> M B) :
  steady_frame c -> (forall a, steady_frame (k a)) -> steady_frame (bind c k).
Proof.
  intros Hc Hk w. specialize (Hc w). unfold after in *. cbn.
  destruct (c w) as [[a | e] w1]; cbn in *.
  - eapply steady_trans; [exact Hc | apply Hk].
  - exact Hc.
Qed.

Lemma sf_try_catch {A} (c : M A) (h : string -> M A) :
  steady_frame c -> (forall e, steady_frame (h e)) ->
  steady_frame (try_catch c h).
Proof.
  intros Hc Hh w. specialize (Hc w). unfold after in *. cbn.
  destruct (c w) as [[a | e] w1]; cbn in *.
  - exact Hc.
  - eapply steady_trans; [exact Hc | apply Hh].
Qed.

Lemma sf_when_some {A} (x : option A) (f : A -> M unit) :
  (forall a, steady_frame (f a)) -> steady_frame (when_some x f).
Proof. intros Hf. destruct x; [apply Hf | apply sf_ret]. Qed.

Lemma sf_for_of {A} (l : list A) (f : A -> M unit) :
  (forall a, steady_frame (f a)) -> steady_frame (for_of l f).
Proof.
  intros Hf. induction l as [|x l IH]; [apply sf_ret|].
  cbn [for_of]. apply sf_bind; [apply Hf | intros _; exact IH].
Qed.

Lemma sf_update (f : Engine -> Engine) :
  (forall e, bpm (f e) = bpm e /\
             meanNotesPerBar (f e) = meanNotesPerBar e /\
             isPlaying (f e) = isPlaying e /\
             nextNoteTime (f e) = nextNoteTime e) ->
  steady_frame (update f).
Proof.
  intros Hf w. destruct (Hf (eng w)) as [H1 [H2 [H3 H4]]].
  repeat split; assumption.
Qed.

Lemma sf_update_backend (f : Backend -> Backend) :
  (forall b, currentTime (f b) = currentTime b /\
             randomSource (f b) = randomSource b /\
             onsetsOf (log (f b)) = onsetsOf (log b)) ->
  steady_frame (update_backend f).
Proof.
  intros Hf w. destruct (Hf (env w)) as [H1 [H2 H3]].
  repeat split; assumption.
Qed.

Lemma sf_emit (c : Command) : is_onset c = false -> steady_frame (emit c).
Proof.
  intros Hc. apply sf_update_backend. intros b. repeat split.
  cbn. destruct c; try reflexivity; discriminate.
Qed.

Lemma sf_Math_random : steady_frame Math_random.
Proof. intros w. repeat split. Qed.

Lemma sf_new_node (create : NodeId -> Command) :
  (forall n, is_onset (create n) = false) -> steady_frame (new_node create).
Proof.
  intros Hc. unfold new_node.
  apply sf_bind; [apply sf_backend | intros n].
  apply sf_bind; [apply sf_update_backend; intros b; repeat split | intros _].
  apply sf_bind; [apply sf_emit, Hc | intros _; apply sf_ret].
Qed.

Ltac destruct_scrutinee :=
  repeat match goal with
  | |- context [match ?x with _ => _ end] => is_var x; destruct x
  end.

Ltac frame_step :=
  lazymatch goal with
  | |- steady_frame (bind _ _) => apply sf_bind; [ | intro ]
  | |- steady_frame (ret _) => apply sf_ret
  | |- steady_frame (throw _) => apply sf_throw
  | |- steady_frame (this _) => apply sf_this
  | |- steady_frame (backend _) => apply sf_backend
  | |- steady_frame (emit _) => apply sf_emit; reflexivity
  | |- steady_frame (update _) =>
      apply sf_update; intro; repeat split; reflexivity
  | |- steady_frame (update_backend _) =>
      apply sf_update_backend; intro; repeat split; reflexivity
  | |- steady_frame Math_random => apply sf_Math_random
  | |- steady_frame (new_node _) => apply sf_new_node; intro; reflexivity
  | |- steady_frame (when_some _ _) => apply sf_when_some; intro
  | |- steady_frame (for_of _ _) => apply sf_for_of; intro
  | |- steady_frame (try_catch _ _) => apply sf_try_catch; [ | intro ]
  | |- steady_frame (match ?x with _ => _ end) => destruct x
  | |- steady_frame (let _ := _ in _) => cbv zeta
  end.

Create HintDb steady.

Ltac frame := repeat first [ assumption | solve [auto with steady] | frame_step ].

Lemma sf_createFilters count type frequency resonance :
  steady_frame (createFilters count type frequency resonance).
Proof. induction count as [|k IH]; cbn [createFilters]; frame. Qed.
#[local] Hint Resolve sf_createFilters : steady.

Lemma sf_connectCascade filters : steady_frame (connectCascade filters).
Proof.
  induction filters as [|a rest IH]; cbn [connectCascade]; [frame|].
  destruct rest; frame.
Qed.
#[local] Hint Resolve sf_connectCascade : steady.

Lemma sf_connectFilters dn fb wet : steady_frame (connectFilters dn fb wet).
Proof. unfold connectFilters. frame. Qed.
#[local] Hint Resolve sf_connectFilters : steady.

Lemma sf_createDelayEffect : steady_frame createDelayEffect.
Proof. unfold createDelayEffect. frame. Qed.
#[local] Hint Resolve sf_createDelayEffect : steady.

Lemma sf_createSimpleReverb : steady_frame createSimpleReverb.
Proof. unfold createSimpleReverb. frame. Qed.
#[local] Hint Resolve sf_createSimpleReverb : steady.

Lemma sf_createDelayMixNode : steady_frame createDelayMixNode.
Proof. unfold createDelayMixNode. frame. Qed.
#[local] Hint Resolve sf_createDelayMixNode : steady.

Lemma sf_buildAudioChain : steady_frame buildAudioChain.
Proof. unfold buildAudioChain. frame. Qed.

Lemma sf_acquireContext : steady_frame acquireContext.
Proof. unfold acquireContext. frame. Qed.

Lemma sf_refreshPitchClasses : steady_frame refreshPitchClasses.
Proof. unfold refreshPitchClasses. frame. Qed.

Lemma sf_pcsGraph_advance : steady_frame pcsGraph_advance.
Proof.
  intros w. unfold after, pcsGraph_advance, advance, draw.
  destruct (List.length (nodes (pcsGraph (eng w))) =? 0)%nat;
    [repeat split|].
  destruct (match currentIndex (pcsGraph (eng w)) with
            | Some i => js_index (adjacency (pcsGraph (eng w))) i
            | None => None
            end) as [neighbors|]; [|repeat split].
  destruct (0 <? List.length neighbors)%nat; repeat split.
Qed.

Lemma sf_keepVoice now v : steady_frame (keepVoice now v).
Proof. unfold keepVoice. frame. Qed.
#[local] Hint Resolve sf_keepVoice : steady.

Lemma sf_filterVoices now vs : steady_frame (filterVoices now vs).
Proof. induction vs as [|v vs IH]; cbn [filterVoices]; frame. Qed.
#[local] Hint Resolve sf_filterVoices : steady.

Lemma sf_cleanupOldVoices : steady_frame cleanupOldVoices.
Proof. unfold cleanupOldVoices. frame. Qed.
#[local] Hint Resolve sf_cleanupOldVoices : steady.

Lemma sf_silenceVoice v : steady_frame (silenceVoice v).
Proof. unfold silenceVoice. frame. Qed.
#[local] Hint Resolve sf_silenceVoice : steady.

Lemma sf_limitVoices : steady_frame limitVoices.
Proof. unfold limitVoices, evictOldest. frame. Qed.
#[local] Hint Resolve sf_limitVoices : steady.

Lemma sf_synthesizeVoice mg f t d : steady_frame (synthesizeVoice mg f t d).
Proof. unfold synthesizeVoice. frame. Qed.
#[local] Hint Resolve sf_synthesizeVoice : steady.

Lemma sf_triggerNote f t d : steady_frame (triggerNote f t d).
Proof. unfold triggerNote. frame. Qed.
#[local] Hint Resolve sf_triggerNote : steady.

Lemma sf_triggerRandomNote t : steady_frame (triggerRandomNote t).
Proof. unfold triggerRandomNote. frame. Qed.

Lemma after_bind {A B} (c : M A) (k : A -> M B) (w : World) :
  after (bind c k) w =
  match outcome c w with
  | Ok a => after (k a) (after c w)
  | Throw _ => after c w
  end.
Proof.
  unfold after, outcome. cbn. destruct (c w) as [[a | e] w1]; reflexivity.
Qed.

Lemma outcome_bind {A B} (c : M A) (k : A -> M B) (w : World) :
  outcome (bind c k) w =
  match outcome c w with
  | Ok a => outcome (k a) (after c w)
  | Throw e => Throw e
  end.
Proof.
  unfold after, outcome. cbn. destruct (c w) as [[a | e] w1]; reflexivity.
Qed.

Lemma session_inv_steady tempo clocks (w w' : World) :
  steady w w' -> session_inv tempo clocks w -> session_inv tempo clocks w'.
Proof.
  intros [Hb [_ [Hp [Hn [Hc [_ Ho]]]]]] [I1 [I2 [I3 [I4 I5]]]].
  unfold session_inv. rewrite Hb, Hp, Hn, Hc, Ho.
  split; [exact I1|]. split; [exact I2|]. split; [exact I3|].
  split; [exact I4 | exact I5].
Qed.

Lemma scheduleNextNote_run t (w : World) :
  scheduleNextNote t w =
  (Ok tt,
   {| eng := set_nextNoteTime
               (quantizeToSixteenth (eng w)
                  (t + Math_max 0.01
                         (- Math_log (1 - randomSource (env w) (randomPos (env w)))
                          / lambda (eng w))))
               (eng w);
      env := set_randomPos (S (randomPos (env w))) (env w) |}).
Proof. reflexivity. Qed.

Lemma Math_max_le_compat_l (a b c : Q) : a <= b -> Math_max a c <= Math_max b c.
Proof.
  intros Hab.
  destruct (Math_max_spec a c) as [[? ->]|[? ->]];
    destruct (Math_max_spec b c) as [[? ->]|[? ->]]; lra.
Qed.

Lemma Math_max_le_compat_r (a b c : Q) : b <= c -> Math_max a b <= Math_max a c.
Proof.
  intros Hbc.
  destruct (Math_max_spec a b) as [[? ->]|[? ->]];
    destruct (Math_max_spec a c) as [[? ->]|[? ->]]; lra.
Qed.

Lemma quantize_tempo (e : Engine) (tempo t : Q) :
  bpm e = tempo ->
  multiple_of (60 / tempo / 4) (quantizeToSixteenth e t).
Proof. intros <-. apply quantize_multiple. Qed.

Lemma after_this {A B} (f : Engine -> A) (k : A -> M B) (w : World) :
  after (x <- this f ;; k x) w = after (k (f (eng w))) w.
Proof. reflexivity. Qed.

Lemma after_backend {A B} (f : Backend -> A) (k : A -> M B) (w : World) :
  after (x <- backend f ;; k x) w = after (k (f (env w))) w.
Proof. reflexivity. Qed.

Lemma after_noteLoop_S (k : nat) (c la : Q) (w : World) :
  after (noteLoop (S k) c la) w =
  if Qle_bool (nextNoteTime (eng w)) (c + la) then
    after (emit (CallTriggerRandomNote
                   (Math_max (nextNoteTime (eng w)) (c + 0.02))) ;;
           triggerRandomNote (Math_max (nextNoteTime (eng w)) (c + 0.02)) ;;
           next' <- this nextNoteTime ;;
           scheduleNextNote next' ;;
           noteLoop k c la) w
  else w.
Proof.
  unfold after. cbn [noteLoop bind this].
  destruct (Qle_bool (nextNoteTime (eng w)) (c + la)); reflexivity.
Qed.

(** One more onset, then the redraw of the next note time. *)
Lemma noteLoop_keeps tempo clocks (remaining : nat) (c : Q) :
  0 < tempo ->
  forall w : World,
    session_inv tempo clocks w ->
    isPlaying (eng w) = true ->
    currentTime (env w) = c ->
    session_inv tempo clocks (after (noteLoop remaining c 0.2) w) /\
    currentTime (env (after (noteLoop remaining c 0.2) w)) = c.
Proof.
  intros Htempo. induction remaining as [|k IH]; intros w Hinv Hplay Hclock.
  - split; [exact Hinv | exact Hclock].
  - rewrite after_noteLoop_S.
    destruct (Qle_bool (nextNoteTime (eng w)) (c + 0.2)) eqn:Hdue;
      [|split; [exact Hinv | exact Hclock]].
    set (o := Math_max (nextNoteTime (eng w)) (c + 0.02)).
    rewrite after_bind.
    change (outcome (emit (CallTriggerRandomNote o)) w) with (@Ok unit tt).
    cbv iota.
    set (w1 := after (emit (CallTriggerRandomNote o)) w).
    destruct Hinv as [I1 [I2 [I3 [I4 I5]]]].
    destruct (I5 Hplay) as [Hgrid Hbound].
    assert (Hinv1 : session_inv tempo clocks w1).
    { unfold session_inv, w1, after. cbn.
      split; [exact I1|]. split; [exact I2|]. split.
      - split; [|exact I3]. intros b Hb. rewrite Hclock in Hbound.
        apply Hbound, Hb.
      - split.
        + constructor; [|exact I4].
          exists (nextNoteTime (eng w)), c. split; [exact Hgrid|].
          split; [rewrite <- Hclock; exact I2 | reflexivity].
        + intros _. split; [exact Hgrid|].
          intros o' [<- | Ho']; rewrite Hclock.
          * unfold o. lra.
          * rewrite Hclock in Hbound. apply Hbound, Ho'. }
    rewrite after_bind.
    pose proof (sf_triggerRandomNote o w1) as Hst.
    set (w2 := after (triggerRandomNote o) w1) in *.
    assert (Hinv2 : session_inv tempo clocks w2)
      by (eapply session_inv_steady; eassumption).
    destruct Hst as [Sb [Sm [Sp [Sn [Sc [Sr So]]]]]].
    destruct (outcome (triggerRandomNote o) w1);
      [|split; [exact Hinv2 | rewrite Sc; exact Hclock]].
    rewrite after_this, after_bind.
    unfold outcome at 1, after at 2. rewrite scheduleNextNote_run.
    cbn [fst snd].
    assert (Hplay1 : isPlaying (eng w1) = true) by exact Hplay.
    assert (Hc1 : currentTime (env w1) = c) by exact Hclock.
    apply IH.
    + destruct Hinv2 as [J1 [J2 [J3 [J4 J5]]]].
      unfold session_inv. cbn.
      split; [exact J1|]. split; [exact J2|]. split; [exact J3|].
      split; [exact J4|]. intros _. split.
      * apply quantize_tempo, J1.
      * intros o' Ho'.
        assert (Hp2 : isPlaying (eng w2) = true) by congruence.
        destruct (J5 Hp2) as [_ Hb2].
        eapply Qle_trans; [apply Hb2, Ho'|].
        apply Math_max_le_compat_l.
        eapply Qle_trans; [|apply quantize_ge; rewrite J1; exact Htempo].
        pose proof (Math_max_l 0.01
                      (- Math_log (1 - randomSource (env w2) (randomPos (env w2)))
                       / lambda (eng w2))).
        lra.
    + cbn. congruence.
    + cbn. congruence.
Qed.

Lemma sf_hop :
  steady_frame
    (pcsGraph_advance ;;
     refreshPitchClasses ;;
     update (fun e =>
       set_nextGraphHopTime
         (nextGraphHopTime e + barSeconds e * BARS_PER_CHANGE) e)).
Proof.
  apply sf_bind; [apply sf_pcsGraph_advance | intros _].
  apply sf_bind; [apply sf_refreshPitchClasses | intros _].
  apply sf_update. intros e. repeat split.
Qed.

Lemma sf_setTimeout ms : steady_frame (setTimeout ms).
Proof. unfold setTimeout. frame. Qed.

Lemma scheduler_keeps tempo clocks :
  0 < tempo ->
  forall w : World,
    session_inv tempo clocks w ->
    session_inv tempo clocks (after scheduler w) /\
    currentTime (env (after scheduler w)) = currentTime (env w).
Proof.
  intros Htempo w Hinv. unfold scheduler.
  rewrite after_this, after_this.
  destruct (isPlaying (eng w)) eqn:Hplay; [|split; [exact Hinv | reflexivity]].
  destruct (audioContext (eng w)) as [ctx|];
    [|split; [exact Hinv | reflexivity]].
  rewrite after_backend. cbv zeta. rewrite after_this, after_bind.
  set (hop := if Qle_bool (nextGraphHopTime (eng w) - 0.2) (currentTime (env w))
              then _ else _).
  assert (Hst : steady w (after hop w)).
  { subst hop.
    destruct (Qle_bool (nextGraphHopTime (eng w) - 0.2) (currentTime (env w)));
      [apply sf_hop | apply steady_refl]. }
  assert (Hinv1 : session_inv tempo clocks (after hop w))
    by (eapply session_inv_steady; eassumption).
  destruct Hst as [Sb [Sm [Sp [Sn [Sc [Sr So]]]]]].
  destruct (outcome hop w); [|split; [exact Hinv1 | exact Sc]].
  rewrite after_bind.
  destruct (noteLoop_keeps tempo clocks 3 (currentTime (env w)) Htempo
              (after hop w) Hinv1 ltac:(congruence) Sc) as [Hinv2 Hc2].
  destruct (outcome (noteLoop 3 (currentTime (env w)) 0.2) (after hop w));
    [|split; [exact Hinv2 | exact Hc2]].
  assert (Hf : steady_frame (id <- setTimeout 50 ;;
                             update (set_schedulerId (Some id)))).
  { apply sf_bind; [apply sf_setTimeout | intros id].
    apply sf_update. intros e. repeat split. }
  pose proof (Hf (after (noteLoop 3 (currentTime (env w)) 0.2) (after hop w)))
    as Hst3.
  split.
  - eapply session_inv_steady; [exact Hst3 | exact Hinv2].
  - destruct Hst3 as [_ [_ [_ [_ [Sc3 _]]]]]. congruence.
Qed.

Lemma tick_keeps tempo clocks (c : Q) :
  0 < tempo ->
  forall w : World,
    session_inv tempo clocks w ->
    currentTime (env w) <= c -> In c clocks ->
    session_inv tempo clocks (after (tick c) w) /\
    currentTime (env (after (tick c) w)) = c.
Proof.
  intros Htempo w [I1 [I2 [I3 [I4 I5]]]] Hle Hin. unfold tick.
  rewrite after_bind.
  change (outcome (update_backend (set_currentTime c)) w) with (@Ok unit tt).
  cbv iota.
  apply (scheduler_keeps tempo clocks Htempo
           (after (update_backend (set_currentTime c)) w)).
  unfold session_inv, after. cbn.
  split; [exact I1|]. split; [exact Hin|]. split; [exact I3|].
  split; [exact I4|]. intros Hplay. destruct (I5 Hplay) as [Hgrid Hbound].
  split; [exact Hgrid|]. intros o Ho.
  eapply Qle_trans; [apply Hbound, Ho|].
  apply Math_max_le_compat_r. lra.
Qed.

Lemma ticks_keep tempo clocks :
  0 < tempo ->
  forall (rest : list Q) (w : World),
    session_inv tempo clocks w ->
    clock_advances (currentTime (env w)) rest ->
    (forall c, In c rest -> In c clocks) ->
    session_inv tempo clocks (after (for_of rest tick) w).
Proof.
  intros Htempo rest. induction rest as [|c rest IH]; intros w Hinv Hadv Hsub.
  - exact Hinv.
  - cbn [for_of]. rewrite after_bind. destruct Hadv as [Hle Hadv].
    destruct (tick_keeps tempo clocks c Htempo w Hinv Hle
                (Hsub c (or_introl eq_refl))) as [Hinv1 Hc1].
    destruct (outcome (tick c) w); [|exact Hinv1].
    apply IH; [exact Hinv1 | rewrite Hc1; exact Hadv |].
    intros c' Hc'. apply Hsub. now right.
Qed.

(** The first scheduled note of [startUp], for the draw at position [k]
    of the random source. *)
Lemma startUp_tail (w : World) :
  let tail :=
    setInitialTiming ;;
    update (set_isPlaying true) ;;
    updateMediaSessionState ;;
    cb <- this onPlayStateChange ;;
    if cb : bool then emit (PlayStateChange true) else ret tt in
  let now := currentTime (env w) in
  let u := randomSource (env w) (randomPos (env w)) in
  outcome tail w = Ok tt /\
  nextNoteTime (eng (after tail w)) =
    quantizeToSixteenth (eng w)
      (now + Math_max 0.01 (- Math_log (1 - u) / lambda (eng w))) /\
  nextGraphHopTime (eng (after tail w)) =
    now + barSeconds (eng w) * BARS_PER_CHANGE /\
  isPlaying (eng (after tail w)) = true /\
  bpm (eng (after tail w)) = bpm (eng w) /\
  currentTime (env (after tail w)) = now /\
  onsetsOf (log (env (after tail w))) = onsetsOf (log (env w)).
Proof.
  destruct w as [e b]. destruct e, b.
  unfold after, outcome, setInitialTiming, updateMediaSessionState.
  cbn -[quantizeToSixteenth barSeconds lambda Math_max Qplus Qmult Qdiv Qopp
        Qminus].
  destruct_scrutinee;
    cbn -[quantizeToSixteenth barSeconds lambda Math_max Qplus Qmult Qdiv Qopp
          Qminus];
    destruct_scrutinee; repeat split.
Qed.

Lemma startUp_steps (w : World) :
  exists w3,
    steady w w3 /\
    ((exists e, startUp w = (Throw e, w3)) \/
     startUp w =
       (setInitialTiming ;;
        update (set_isPlaying true) ;;
        updateMediaSessionState ;;
        cb <- this onPlayStateChange ;;
        if cb : bool then emit (PlayStateChange true) else ret tt) w3).
Proof.
  unfold startUp.
  pose proof (sf_acquireContext w) as H1. unfold after in H1.
  cbn [bind]. destruct (acquireContext w) as [[[]|e1] w1]; cbn [snd] in H1.
  2:{ exists w1. split; [exact H1 | left; eexists; reflexivity]. }
  pose proof (sf_buildAudioChain w1) as H2. unfold after in H2.
  destruct (buildAudioChain w1) as [[[]|e2] w2]; cbn [snd] in H2.
  2:{ exists w2. split; [eapply steady_trans; eassumption
                        | left; eexists; reflexivity]. }
  pose proof (sf_refreshPitchClasses w2) as H3. unfold after in H3.
  destruct (refreshPitchClasses w2) as [[[]|e3] w3]; cbn [snd] in H3.
  2:{ exists w3. split; [eapply steady_trans; [|eassumption];
                         eapply steady_trans; eassumption
                        | left; eexists; reflexivity]. }
  exists w3. split.
  - eapply steady_trans; [|eassumption]. eapply steady_trans; eassumption.
  - right. reflexivity.
Qed.

Lemma after_try_catch {A} (c : M A) (h : string -> M A) (w : World) :
  after (try_catch c h) w =
  match outcome c w with
  | Ok _ => after c w
  | Throw e => after (h e) (after c w)
  end.
Proof.
  unfold after, outcome. cbn. destruct (c w) as [[a | e] w1]; reflexivity.
Qed.

Lemma onsetsOf_app (a b : list Command) :
  onsetsOf (a ++ b) = onsetsOf a ++ onsetsOf b.
Proof.
  induction a as [|c a IH]; [reflexivity|].
  destruct c; cbn; rewrite ?IH; reflexivity.
Qed.

Lemma onsetsOf_none (l : list Command) :
  (forall c, In c l -> is_onset c = false) -> onsetsOf l = [].
Proof.
  induction l as [|c l IH]; intros H; [reflexivity|].
  assert (Hc : is_onset c = false) by (apply H; now left).
  destruct c; try discriminate; cbn; apply IH; intros c' Hc'; apply H;
    now right.
Qed.

Lemma release_cmds_quiet x c : In c (release_cmds x) -> is_onset c = false.
Proof. destruct x; cbn; [intros [<- | []]; reflexivity | intros []]. Qed.

Lemma silence_cmds_quiet v c : In c (silence_cmds v) -> is_onset c = false.
Proof.
  unfold silence_cmds. rewrite in_app_iff. intros [H | H].
  - eapply release_cmds_quiet, H.
  - destruct (oscillator v); cbn in H;
      repeat (destruct H as [<- | H]; [reflexivity|]); contradiction.
Qed.

Lemma stop_commands_quiet (e : Engine) (b : Backend) c :
  In c (stop_commands e b) -> is_onset c = false.
Proof.
  unfold stop_commands. rewrite !in_app_iff.
  intros [H | [H | [H | [H | [H | [H | [H | [H | [H | [H | [H | [H | H]]]]]]]]]]]];
    try (eapply release_cmds_quiet; eassumption).
  - destruct (onPlayStateChange e); cbn in H; [destruct H as [<- | []]|];
      [reflexivity | contradiction].
  - destruct (hasMediaSession b); cbn in H; [destruct H as [<- | []]|];
      [reflexivity | contradiction].
  - destruct (audioContext e), (contextState b); cbn in H;
      try contradiction; destruct H as [<- | []]; reflexivity.
  - apply in_map_iff in H. destruct H as [n [<- _]]. reflexivity.
  - apply in_flat_map in H. destruct H as [v [_ Hv]].
    eapply silence_cmds_quiet, Hv.
  - destruct (schedulerId e); cbn in H; [destruct H as [<- | []]|];
      [reflexivity | contradiction].
Qed.

Lemma stop_keeps tempo clocks (w : World) :
  session_inv tempo clocks w ->
  session_inv tempo clocks (after stop w) /\
  outcome stop w = Ok tt.
Proof.
  intros [I1 [I2 [I3 [I4 I5]]]].
  destruct stop_runs as [_ Hrun]. unfold after, outcome. rewrite Hrun.
  cbn [fst snd]. split; [|reflexivity].
  unfold session_inv. cbn [eng env log set_log currentTime].
  rewrite onsetsOf_app, (onsetsOf_none (stop_commands (eng w) (env w)))
    by apply stop_commands_quiet.
  cbn [app]. repeat split; try assumption. 
  all: cbn in *; discriminate.
Qed.

Lemma quantize_same_tempo (e1 e2 : Engine) (t : Q) :
  bpm e1 = bpm e2 -> quantizeToSixteenth e1 t = quantizeToSixteenth e2 t.
Proof.
  intros Hb. unfold quantizeToSixteenth, sixteenthSeconds. now rewrite Hb.
Qed.

Lemma startUp_keeps tempo clocks (w : World) :
  bpm (eng w) = tempo ->
  isPlaying (eng w) = false ->
  onsetsOf (log (env w)) = [] ->
  In (currentTime (env w)) clocks ->
  session_inv tempo clocks (after startUp w) /\
  currentTime (env (after startUp w)) = currentTime (env w).
Proof.
  intros Hb Hplay Hons Hin.
  destruct (startUp_steps w) as [w3 [Hst Hcase]].
  destruct Hst as [Sb [Sm [Sp [Sn [Sc [Sr So]]]]]].
  destruct Hcase as [[e He] | He]; unfold after; rewrite He.
  - cbn [snd]. split; [|exact Sc].
    unfold session_inv. rewrite Sb, Sc, So, Sp, Hons, Hplay.
    repeat split; try assumption; try constructor; discriminate.
  - destruct (startUp_tail w3) as [_ [Hn [_ [Hp [Hbpm [Hc Ho]]]]]].
    unfold after in Hn, Hp, Hbpm, Hc, Ho. split; [|congruence].
    unfold session_inv. rewrite Hbpm, Hc, Ho, Sb, Sc, So, Hons.
    split; [exact Hb|]. split; [exact Hin|]. split; [exact I|].
    split; [constructor|]. intros _. split.
    + rewrite Hn. apply quantize_tempo. congruence.
    + intros o [].
Qed.

Lemma start_keeps tempo clocks (w : World) :
  0 < tempo ->
  bpm (eng w) = tempo ->
  isPlaying (eng w) = false ->
  onsetsOf (log (env w)) = [] ->
  In (currentTime (env w)) clocks ->
  session_inv tempo clocks (after start w) /\
  currentTime (env (after start w)) = currentTime (env w).
Proof.
  intros Htempo Hb Hplay Hons Hin. unfold start.
  rewrite after_this, Hplay, after_try_catch, outcome_bind, after_bind.
  destruct (startUp_keeps tempo clocks w Hb Hplay Hons Hin) as [Hinv1 Hc1].
  destruct (scheduler_keeps tempo clocks Htempo _ Hinv1) as [Hinv2 Hc2].
  destruct stop_runs as [_ Hrun].
  destruct (outcome startUp w).
  - destruct (outcome scheduler (after startUp w)).
    + split; [exact Hinv2 | congruence].
    + rewrite after_bind.
      destruct (stop_keeps tempo clocks _ Hinv2) as [Hinv3 Hok]. rewrite Hok.
      split; [exact Hinv3|].
      unfold after at 1 2. rewrite Hrun. cbn [throw snd env set_log currentTime].
      congruence.
  - rewrite after_bind.
    destruct (stop_keeps tempo clocks _ Hinv1) as [Hinv3 Hok]. rewrite Hok.
    split; [exact Hinv3|].
    unfold after at 1 2. rewrite Hrun. cbn [throw snd env set_log currentTime].
    exact Hc1.
Qed.

Lemma non_decreasing_snoc (l : list Q) (a : Q) :
  non_decreasing l -> (forall b, In b l -> b <= a) -> non_decreasing (l ++ [a]).
Proof.
  induction l as [|x l IH]; intros Hl Ha.
  - cbn. split; [intros b []| exact I].
  - destruct Hl as [Hx Hl]. cbn. split.
    + intros b Hb. apply in_app_iff in Hb. destruct Hb as [Hb | [<- | []]].
      * apply Hx, Hb.
      * apply Ha. now left.
    + apply IH; [exact Hl|]. intros b Hb. apply Ha. now right.
Qed.

Lemma non_increasing_rev (l : list Q) :
  non_increasing l -> non_decreasing (rev l).
Proof.
  induction l as [|a l IH]; intros Hl; [exact I|].
  destruct Hl as [Ha Hl]. cbn [rev]. apply non_decreasing_snoc.
  - apply IH, Hl.
  - intros b Hb. apply Ha. now apply in_rev.
Qed.

(** C5, as the code has it.  When [start()] has prepared playback at
    clock time [now], at a positive tempo and a positive rate of notes,
    before its first scheduler run, the next note time is not
    [now + 0.1] but the quantized time of [now] plus the first
    exponential delay, the delay being at least 10 ms.  The next graph
    hop is due four bars after [now]. *)
Theorem startUp_timing (w : World) :
  0 < bpm (eng w) ->
  0 < lambda (eng w) ->
  outcome startUp w = Ok tt ->
  let w' := after startUp w in
  let now := currentTime (env w) in
  exists k : nat,
    let u := randomSource (env w) k in
    nextNoteTime (eng w') =
      quantizeToSixteenth (eng w)
        (now + Math_max 0.01 (- Math_log (1 - u) / lambda (eng w))) /\
    nextGraphHopTime (eng w') = now + barSeconds (eng w) * BARS_PER_CHANGE /\
    isPlaying (eng w') = true.
Proof.
  intros Htempo _ Hok w' now.
  destruct (startUp_steps w) as [w3 [Hst Hcase]].
  destruct Hst as [Sb [Sm [Sp [Sn [Sc [Sr So]]]]]].
  destruct Hcase as [[e He] | He].
  { unfold outcome in Hok. rewrite He in Hok. discriminate. }
  destruct (startUp_tail w3) as [_ [Hn [Hh [Hp _]]]].
  subst w'. unfold after in *. rewrite He.
  exists (randomPos (env w3)).
  assert (Hl : lambda (eng w3) = lambda (eng w)).
  { unfold lambda, barSeconds. now rewrite Sb, Sm. }
  assert (Hbar : barSeconds (eng w3) = barSeconds (eng w)).
  { unfold barSeconds. now rewrite Sb. }
  rewrite Sc, Sr, Hl, (quantize_same_tempo (eng w3) (eng w)) in Hn by exact Sb.
  rewrite Sc, Hbar in Hh.
  cbv zeta. split; [exact Hn|]. split; [exact Hh | exact Hp].
Qed.

End Session.

(** C1 as stated fails where the scheduler clamps.  At the default
    tempo the sixteenth lasts a third of a second; [start()] at clock
    time 0.32 with a first draw of 0 schedules the first note at 1/3,
    less than 20 ms ahead, and the scheduler run that ends [start()]
    triggers it at 0.32 + 0.02 = 0.34, which is not on the grid. *)
Lemma session_clamped_onset_off_grid :
  let w := freshWorld 0.32 0 in
  let w' := after (@session examplePlatform []) w in
  exists o : Q,
    @onsetTimes examplePlatform w' = [o] /\
    o == 0.34 /\
    ~ multiple_of (@sixteenthSeconds examplePlatform (eng w)) o.
Proof.
  cbv zeta. eexists. split; [vm_compute; reflexivity|].
  split; [reflexivity|].
  intros [k Hk].
  assert (Hs : @sixteenthSeconds examplePlatform (eng (freshWorld 0.32 0))
               == 1 # 3) by reflexivity.
  rewrite Hs in Hk. unfold Qeq in Hk. cbn in Hk. lia.
Qed.

Lemma startUp_timing_witness :
  let w := freshWorld 0 0 in
  let w' := after (@startUp examplePlatform) w in
  (0 < bpm (eng w) /\ 0 < @lambda examplePlatform (eng w) /\
   outcome (@startUp examplePlatform) w = Ok tt) /\
  exists k : nat,
    nextNoteTime (eng w') =
      @quantizeToSixteenth examplePlatform (eng w)
        (currentTime (env w) +
         Math_max 0.01 (- @Math_log examplePlatform (1 - randomSource (env w) k)
                        / @lambda examplePlatform (eng w))) /\
    nextGraphHopTime (eng w') =
      currentTime (env w) +
      @barSeconds examplePlatform (eng w) * BARS_PER_CHANGE /\
    isPlaying (eng w') = true.
Proof.
  assert (Hb : 0 < bpm (eng (freshWorld 0 0))) by (vm_compute; reflexivity).
  assert (Hl : 0 < @lambda examplePlatform (eng (freshWorld 0 0)))
    by (vm_compute; reflexivity).
  assert (Hok : outcome (@startUp examplePlatform) (freshWorld 0 0) = Ok tt)
    by (vm_compute; reflexivity).
  cbv zeta. split; [repeat split; assumption|].
  exact (@startUp_timing examplePlatform (freshWorld 0 0) Hb Hl Hok).
Defined.

(** C5 as stated fails for the next note time.  [start()] at clock
    time 0, at the default tempo and with a first draw of 0, succeeds
    and leaves [nextNoteTime] at 1/3, the first grid time that is at
    least 10 ms ahead, not at 0 + 0.1: the store of [startTime + 0.1]
    is overwritten by [scheduleNextNote(startTime)] two statements
    later.  The scheduler run that ends [start()] does not change it. *)
Lemma start_next_note_on_grid_not_100ms :
  let w := freshWorld 0 0 in
  let w' := after (@startUp examplePlatform) w in
  outcome (@startUp examplePlatform) w = Ok tt /\
  currentTime (env w) = 0 /\
  nextNoteTime (eng w') == 1 # 3 /\
  ~ nextNoteTime (eng w') == currentTime (env w) + 0.1 /\
  nextNoteTime (eng (after (@start examplePlatform) w)) == 1 # 3.
Proof.
  cbv zeta. split; [vm_compute; reflexivity|].
  split; [vm_compute; reflexivity|].
  split; [vm_compute; reflexivity|].
  split; [|vm_compute; reflexivity].
  intros H. vm_compute in H. discriminate H.
Qed.

(* ================================================================= *)
(** * The engine between and across calls *)

(* ================================================================= *)
(** * Timing: the grid and the next note *)

Section Timing.
Context {P : Platform}.

Lemma quantize_monotone (e : Engine) (t1 t2 : Q) :
  0 < bpm e -> t1 <= t2 -> quantizeToSixteenth e t1 <= quantizeToSixteenth e t2.
Proof.
  intros Hb Hle. pose proof (sixteenthSeconds_pos e Hb) as Hs.
  unfold quantizeToSixteenth, Math_ceil.
  apply Qmult_le_compat_r; [|lra].
  rewrite <- Zle_Qle. apply Qceiling_resp_le.
  unfold Qdiv. apply Qmult_le_compat_r; [exact Hle|].
  apply Qlt_le_weak, Qinv_lt_0_compat, Hs.
Qed.

(** X1.  At a positive tempo [quantizeToSixteenth] keeps the order of
    times: a later time is never quantized to an earlier grid time. *)
Theorem quantizeToSixteenth_monotone (e : Engine) (t1 t2 : Q) :
  0 < bpm e ->
  t1 <= t2 ->
  quantizeToSixteenth e t1 <= quantizeToSixteenth e t2.
Proof. apply quantize_monotone. Qed.


End Timing.

(* ================================================================= *)
(** * Invariants of the engine *)

Section Keeps.
Context {P : Platform}.
Variable I : World -> Prop.

Lemma keeps_ret {A} (a : A) w : keeps I (ret a) w.
Proof. intro H. exact H. Qed.

Lemma keeps_throw {A} e w : keeps I (@throw _ A e) w.
Proof. intro H. exact H. Qed.

Lemma keeps_this {A} (f : Engine -> A) w : keeps I (this f) w.
Proof. intro H. exact H. Qed.

Lemma keeps_backend {A} (f : Backend -> A) w : keeps I (backend f) w.
Proof. intro H. exact H. Qed.

Lemma keeps_bind {A B} (c : M A) (k : A -> M B) w :
  keeps I c w -> (forall a w1, keeps I (k a) w1) -> keeps I (bind c k) w.
Proof.
  intros Hc Hk H. rewrite after_bind.
  destruct (outcome c w); [apply Hk, Hc, H | apply Hc, H].
Qed.

Lemma keeps_bind_this {A B} (f : Engine -> A) (k : A -> M B) w :
  keeps I (k (f (eng w))) w -> keeps I (bind (this f) k) w.
Proof. intro H. exact H. Qed.

Lemma keeps_bind_backend {A B} (f : Backend -> A) (k : A -> M B) w :
  keeps I (k (f (env w))) w -> keeps I (bind (backend f) k) w.
Proof. intro H. exact H. Qed.

Lemma keeps_try_catch {A} (c : M A) (h : string -> M A) w :
  keeps I c w -> (forall e w1, keeps I (h e) w1) -> keeps I (try_catch c h) w.
Proof.
  intros Hc Hh H. rewrite after_try_catch.
  destruct (outcome c w); [apply Hc, H | apply Hh, Hc, H].
Qed.

Lemma keeps_when_some {A} (x : option A) (f : A -> M unit) w :
  (forall a, keeps I (f a) w) -> keeps I (when_some x f) w.
Proof. intros Hf. destruct x; [apply Hf | apply keeps_ret]. Qed.

Lemma keeps_for_of {A} (l : list A) (f : A -> M unit) :
  (forall a w, keeps I (f a) w) -> forall w, keeps I (for_of l f) w.
Proof.
  intros Hf. induction l as [|x l IH]; intro w; cbn [for_of].
  - apply keeps_ret.
  - apply keeps_bind; [apply Hf | intros _ w1; apply IH].
Qed.

End Keeps.

Ltac destruct_scrutinee :=
  repeat match goal with
  | |- context [match ?x with _ => _ end] => is_var x; destruct x
  end.

(** Walking a method statement by statement.  A read of [this] or of
    the backend is replaced by the value it reads; every other statement
    is left with the invariant as the only fact about the world. *)
Ltac keep_step leaf :=
  lazymatch goal with
  | |- keeps _ (bind (this _) _) _ => apply keeps_bind_this; cbv beta
  | |- keeps _ (bind (backend _) _) _ => apply keeps_bind_backend; cbv beta
  | |- keeps _ (bind _ _) _ => apply keeps_bind; [ | intros ? ? ]
  | |- keeps _ (ret _) _ => apply keeps_ret
  | |- keeps _ (throw _) _ => apply keeps_throw
  | |- keeps _ (this _) _ => apply keeps_this
  | |- keeps _ (backend _) _ => apply keeps_backend
  | |- keeps _ (when_some _ _) _ => apply keeps_when_some; intro
  | |- keeps _ (for_of _ _) _ => apply keeps_for_of; intros ? ?
  | |- keeps _ (try_catch _ _) _ => apply keeps_try_catch; [ | intros ? ? ]
  | |- keeps _ (update _) _ => leaf
  | |- keeps _ (update_backend _) _ => leaf
  | |- keeps _ (emit _) _ => leaf
  | |- keeps _ Math_random _ => leaf
  | |- keeps _ (new_node _) _ => unfold new_node
  | |- keeps _ (setTargetAtTime _ _ _ _) _ => unfold setTargetAtTime
  | |- keeps _ (match ?x with _ => _ end) _ => destruct x
  | |- keeps _ (let _ := _ in _) _ => cbv zeta
  end.

Create HintDb keeps discriminated.

Ltac keep leaf :=
  repeat first [ solve [auto with keeps] | keep_step leaf ].

(** The leaves of [settled]: an assignment that does not touch the
    fields it names leaves it as it is; one that does is allowed where
    the guard of the field is [False], and storing a timer id arms. *)
Ltac settled_leaf :=
  let H := fresh "H" in
  intro H;
  first
    [ exact H
    | destruct H as (?Hb & ?Hv & ?Hp & ?Hc & ?Ha);
      split; [ assumption | ];
      split; [ first [ assumption | intros [] ] | ];
      split; [ first [ assumption | intros [] ] | ];
      split; [ first [ assumption | intros [] ] | ];
      first [ assumption | intros []  | intros _; discriminate ] ].

Section Invariants.
Context {P : Platform}.

Lemma set_voices_same (e : Engine) : set_voices (voices e) e = e.
Proof. destruct e; reflexivity. Qed.

(** The engine after [triggerNote]: only the voice list changes, and it
    stays within the pool. *)
Lemma triggerNote_engine (frequency when duration : Q) (w : World) :
  exists vs,
    eng (after (triggerNote frequency when duration) w) = set_voices vs (eng w) /\
    ((List.length (voices (eng w)) <= MAX_VOICES)%nat ->
     (List.length vs <= MAX_VOICES)%nat).
Proof.
  destruct (audioContext (eng w)) as [ctx|] eqn:Hctx;
    [destruct (masterGain (eng w)) as [mg|] eqn:Hmg|].
  2,3: (exists (voices (eng w));
        assert (Hw : triggerNote frequency when duration w = (Ok tt, w))
          by (unfold triggerNote; cbn [bind this]; rewrite Hctx, ?Hmg;
              reflexivity);
        unfold after; rewrite Hw; cbn [snd];
        split; [now rewrite set_voices_same | trivial]).
  assert (Hrun : triggerNote frequency when duration w
                 = (cleanupOldVoices ;; limitVoices ;;
                    synthesizeVoice mg frequency when duration) w).
  { unfold triggerNote. cbn [bind this]. now rewrite Hctx, Hmg. }
  pose proof (cleanupOldVoices_run w ctx Hctx) as Hclean.
  set (kept := filter (alive (currentTime (env w))) (voices (eng w))) in *.
  assert (Hkept : (List.length kept <= List.length (voices (eng w)))%nat)
    by apply filter_length_le.
  unfold after. rewrite Hrun, (bind_run _ _ _ _ _ Hclean).
  destruct (Nat.lt_ge_cases (List.length kept) MAX_VOICES) as [Hlt | Hge].
  - rewrite (bind_run _ _ _ _ _
               (limitVoices_below
                  {| eng := set_voices kept (eng w);
                     env := set_log
                              (flat_map (cleanup_cmds (currentTime (env w)))
                                 (rev (voices (eng w))) ++ log (env w))
                              (env w) |} Hlt)).
    rewrite synthesizeVoice_run. cbn [snd eng env voices set_voices].
    eexists. split; [reflexivity|]. intros _. rewrite length_app. cbn. lia.
  - destruct kept as [|oldest rest] eqn:Ek; [cbn in Hge; unfold MAX_VOICES in Hge; lia|].
    rewrite (bind_run _ _ _ _ _
               (limitVoices_full
                  {| eng := set_voices (oldest :: rest) (eng w);
                     env := set_log
                              (flat_map (cleanup_cmds (currentTime (env w)))
                                 (rev (voices (eng w))) ++ log (env w))
                              (env w) |} oldest rest eq_refl Hge)).
    rewrite synthesizeVoice_run. cbn [snd eng env voices set_voices logged].
    eexists. split; [reflexivity|]. intros Hb. rewrite length_app.
    cbn in Hkept |- *. lia.
Qed.

Lemma st_createFilters {pool playing chain armed : Prop} {e0 : Engine} count type frequency resonance w :
  keeps (settled pool playing chain armed e0)
    (createFilters count type frequency resonance) w.
Proof.
  revert w. induction count as [|k IH]; intro w; cbn [createFilters];
    keep settled_leaf.
Qed.
#[local] Hint Extern 0 (keeps _ (createFilters _ _ _ _) _) => apply st_createFilters : keeps.

Lemma st_connectCascade {pool playing chain armed : Prop} {e0 : Engine} filters w :
  keeps (settled pool playing chain armed e0) (connectCascade filters) w.
Proof.
  revert w. induction filters as [|a [|b rest] IH]; intro w;
    cbn [connectCascade]; keep settled_leaf.
Qed.
#[local] Hint Extern 0 (keeps _ (connectCascade _) _) => apply st_connectCascade : keeps.

Lemma st_connectFilters {pool playing chain armed : Prop} {e0 : Engine} dn fb wet w :
  keeps (settled pool playing chain armed e0) (connectFilters dn fb wet) w.
Proof. unfold connectFilters. keep settled_leaf. Qed.
#[local] Hint Extern 0 (keeps _ (connectFilters _ _ _) _) => apply st_connectFilters : keeps.

Lemma st_recreateDelayFilterChain {pool playing chain armed : Prop} {e0 : Engine} type frequency resonance n w :
  keeps (settled pool playing chain armed e0)
    (recreateDelayFilterChain type frequency resonance n) w.
Proof. unfold recreateDelayFilterChain. keep settled_leaf. Qed.
#[local] Hint Extern 0 (keeps _ (recreateDelayFilterChain _ _ _ _) _) => apply st_recreateDelayFilterChain : keeps.

Lemma st_updateDelayFilters {pool playing chain armed : Prop} {e0 : Engine} type frequency resonance order w :
  keeps (settled pool playing chain armed e0)
    (updateDelayFilters type frequency resonance order) w.
Proof. unfold updateDelayFilters. keep settled_leaf. Qed.
#[local] Hint Extern 0 (keeps _ (updateDelayFilters _ _ _ _) _) => apply st_updateDelayFilters : keeps.

Lemma st_updateDelayParams {pool playing chain armed : Prop} {e0 : Engine} w :
  keeps (settled pool playing chain armed e0) updateDelayParams w.
Proof. unfold updateDelayParams. keep settled_leaf. Qed.
#[local] Hint Extern 0 (keeps _ updateDelayParams _) => apply st_updateDelayParams : keeps.

Lemma st_setSynthParams {pool playing chain armed : Prop} {e0 : Engine} p w :
  keeps (settled pool playing chain armed e0) (setSynthParams p) w.
Proof. unfold setSynthParams. keep settled_leaf. Qed.

Lemma st_scheduleNextNote {pool playing chain armed : Prop} {e0 : Engine} t w :
  keeps (settled pool playing chain armed e0) (scheduleNextNote t) w.
Proof. unfold scheduleNextNote, generateExponentialDelay. keep settled_leaf. Qed.
#[local] Hint Extern 0 (keeps _ (scheduleNextNote _) _) => apply st_scheduleNextNote : keeps.

Lemma st_pcsGraph_advance {pool playing chain armed : Prop} {e0 : Engine} w :
  keeps (settled pool playing chain armed e0) pcsGraph_advance w.
Proof.
  intro H. unfold after, pcsGraph_advance.
  destruct (advance (pcsGraph (eng w)) (env w)) as [[g | e] b]; exact H.
Qed.
#[local] Hint Extern 0 (keeps _ pcsGraph_advance _) => apply st_pcsGraph_advance : keeps.

Lemma st_refreshPitchClasses {pool playing chain armed : Prop} {e0 : Engine} w :
  keeps (settled pool playing chain armed e0) refreshPitchClasses w.
Proof. unfold refreshPitchClasses. keep settled_leaf. Qed.
#[local] Hint Extern 0 (keeps _ refreshPitchClasses _) => apply st_refreshPitchClasses : keeps.

Lemma st_triggerNote {pool playing chain armed : Prop} {e0 : Engine} f t d w :
  keeps (settled pool playing chain armed e0) (triggerNote f t d) w.
Proof.
  intros (Hb & Hv & Hrest).
  destruct (triggerNote_engine f t d w) as (vs & He & Hlen).
  unfold settled. rewrite He. split; [exact Hb|].
  split; [intro Hp; exact (Hlen (Hv Hp)) | exact Hrest].
Qed.
#[local] Hint Extern 0 (keeps _ (triggerNote _ _ _) _) => apply st_triggerNote : keeps.

Lemma st_triggerRandomNote {pool playing chain armed : Prop} {e0 : Engine} t w :
  keeps (settled pool playing chain armed e0) (triggerRandomNote t) w.
Proof. unfold triggerRandomNote. keep settled_leaf. Qed.
#[local] Hint Extern 0 (keeps _ (triggerRandomNote _) _) => apply st_triggerRandomNote : keeps.

Lemma st_noteLoop {pool playing chain armed : Prop} {e0 : Engine} n c la w :
  keeps (settled pool playing chain armed e0) (noteLoop n c la) w.
Proof.
  revert w. induction n as [|k IH]; intro w; cbn [noteLoop]; keep settled_leaf.
Qed.
#[local] Hint Extern 0 (keeps _ (noteLoop _ _ _) _) => apply st_noteLoop : keeps.

Lemma st_setTimeout {pool playing chain armed : Prop} {e0 : Engine} ms w :
  keeps (settled pool playing chain armed e0) (setTimeout ms) w.
Proof. unfold setTimeout. keep settled_leaf. Qed.
#[local] Hint Extern 0 (keeps _ (setTimeout _) _) => apply st_setTimeout : keeps.

Lemma st_scheduler {pool playing chain armed : Prop} {e0 : Engine} w :
  keeps (settled pool playing chain armed e0) scheduler w.
Proof. unfold scheduler. keep settled_leaf. Qed.

Lemma st_updateMediaSessionState {pool playing chain armed : Prop} {e0 : Engine} w :
  keeps (settled pool playing chain armed e0) updateMediaSessionState w.
Proof. unfold updateMediaSessionState. keep settled_leaf. Qed.

Lemma st_createSimpleReverb {pool playing chain armed : Prop} {e0 : Engine} w :
  keeps (settled pool playing chain armed e0) createSimpleReverb w.
Proof. unfold createSimpleReverb. keep settled_leaf. Qed.

Lemma st_createDelayMixNode {pool playing chain armed : Prop} {e0 : Engine} w :
  keeps (settled pool playing chain armed e0) createDelayMixNode w.
Proof. unfold createDelayMixNode. keep settled_leaf. Qed.

#[local] Hint Extern 0 (keeps _ updateMediaSessionState _) =>
  apply st_updateMediaSessionState : keeps.
#[local] Hint Extern 0 (keeps _ createSimpleReverb _) =>
  apply st_createSimpleReverb : keeps.
#[local] Hint Extern 0 (keeps _ createDelayMixNode _) =>
  apply st_createDelayMixNode : keeps.
#[local] Hint Extern 0 (keeps _ scheduler _) => apply st_scheduler : keeps.
#[local] Hint Extern 0 (keeps _ (setSynthParams _) _) =>
  apply st_setSynthParams : keeps.

Lemma st_createDelayEffect {pool playing armed : Prop} {e0 : Engine} w :
  keeps (settled pool playing False armed e0) createDelayEffect w.
Proof. unfold createDelayEffect. keep settled_leaf. Qed.
#[local] Hint Extern 0 (keeps _ createDelayEffect _) =>
  apply st_createDelayEffect : keeps.

Lemma st_acquireContext {pool playing armed : Prop} {e0 : Engine} w :
  keeps (settled pool playing False armed e0) acquireContext w.
Proof. unfold acquireContext. keep settled_leaf. Qed.
#[local] Hint Extern 0 (keeps _ acquireContext _) =>
  apply st_acquireContext : keeps.

(** The part of [buildAudioChain] after the delay effect. *)
Lemma st_chain_output {pool playing chain armed : Prop} {e0 : Engine}
    (mg : NodeId) w :
  keeps (settled pool playing chain armed e0)
    (rv <- createSimpleReverb ;;
     update (set_reverbNode rv) ;;
     dry <- this delayDryGain ;;
     wet <- this delayWetGain ;;
     signalSource <-
       match dry, wet with
       | Some _, Some _ => createDelayMixNode
       | _, _ => ret (Some mg)
       end ;;
     match rv, signalSource with
     | Some rv, Some src =>
         dryGain <- new_node CreateGain ;;
         wetGain <- new_node CreateGain ;;
         emit (SetValue dryGain gain_param 0.7) ;;
         emit (SetValue wetGain gain_param 0.3) ;;
         emit (Connect src dryGain) ;;
         emit (Connect src rv) ;;
         emit (Connect rv wetGain) ;;
         emit (ConnectDestination dryGain) ;;
         emit (ConnectDestination wetGain)
     | None, Some src => emit (ConnectDestination src)
     | _, None => ret tt
     end) w.
Proof. keep settled_leaf. Qed.

Lemma st_buildAudioChain {pool playing armed : Prop} {e0 : Engine} w :
  keeps (settled pool playing False armed e0) buildAudioChain w.
Proof. unfold buildAudioChain. keep settled_leaf. Qed.
#[local] Hint Extern 0 (keeps _ buildAudioChain _) =>
  apply st_buildAudioChain : keeps.

(** The body of [start()] from the refresh of the pitch classes on. *)
Lemma st_startUp_rest {pool chain armed : Prop} {e0 : Engine} w :
  keeps (settled pool False chain armed e0)
    (refreshPitchClasses ;;
     setInitialTiming ;;
     update (set_isPlaying true) ;;
     updateMediaSessionState ;;
     cb <- this onPlayStateChange ;;
     if cb : bool then emit (PlayStateChange true) else ret tt) w.
Proof. unfold setInitialTiming. keep settled_leaf. Qed.

Lemma st_startUp {pool armed : Prop} {e0 : Engine} w :
  keeps (settled pool False False armed e0) startUp w.
Proof. unfold startUp, setInitialTiming. keep settled_leaf. Qed.

Lemma settled_refl (pool playing chain : Prop) (w : World) :
  (pool -> (List.length (voices (eng w)) <= MAX_VOICES)%nat) ->
  settled pool playing chain False (eng w) w.
Proof. intros Hv. repeat split; first [assumption | intros []]. Qed.

Lemma settled_chain {pool playing armed : Prop} {e0 : Engine} (w : World) :
  settled pool playing True armed e0 w ->
  chain_present e0 -> chain_present (eng w).
Proof.
  intros (_ & _ & _ & Hc & _) H. unfold chain_present.
  destruct (Hc I) as (E1 & E2 & E3 & E4 & E5 & E6 & E7).
  rewrite E1, E2, E3, E4, E5, E6, E7. exact H.
Qed.

Lemma new_node_run (create : NodeId -> Command) (w : World) :
  new_node create w =
  (Ok (nextNodeId (env w)),
   {| eng := eng w;
      env := set_log (create (nextNodeId (env w)) :: log (env w))
               (set_nextNodeId (S (nextNodeId (env w))) (env w)) |}).
Proof. reflexivity. Qed.

Lemma update_run (f : Engine -> Engine) (w : World) :
  update f w = (Ok tt, {| eng := f (eng w); env := env w |}).
Proof. reflexivity. Qed.

Lemma emit_run (c : Command) (w : World) :
  emit c w = (Ok tt, logged [c] w).
Proof. reflexivity. Qed.

Lemma acquireContext_ok (w : World) a :
  outcome acquireContext w = Ok a ->
  audioContext (eng (after acquireContext w)) <> None.
Proof.
  unfold acquireContext, outcome, after. destruct w as [e b].
  destruct e, b. cbn.
  repeat (destruct_scrutinee; cbn); intros H;
    first [discriminate H | discriminate].
Qed.

Lemma chain_after_delay (e : Engine) (n : NodeId) (filters : list NodeId)
    ctx mg :
  audioContext e = Some ctx -> masterGain e = Some mg ->
  chain_present
    (set_delayFilters filters
       (set_delayInputGain (Some (4 + n)%nat)
          (set_delayWetGain (Some (3 + n)%nat)
             (set_delayDryGain (Some (2 + n)%nat)
                (set_delayFeedbackGain (Some (1 + n)%nat)
                   (set_delayNode (Some n) e)))))).
Proof.
  intros H1 H2. unfold chain_present. cbn. rewrite H1, H2.
  repeat split; discriminate.
Qed.

Lemma after_bind_run {A B} (c : M A) (k : A -> M B) (w : World) a w' :
  c w = (Ok a, w') -> after (bind c k) w = after (k a) w'.
Proof. intros H. unfold after. now rewrite (bind_run _ _ _ _ _ H). Qed.

Lemma buildAudioChain_chain (w : World) :
  audioContext (eng w) <> None ->
  chain_present (eng (after buildAudioChain w)).
Proof.
  intros Hctx.
  destruct (audioContext (eng w)) as [ctx|] eqn:Ectx; [clear Hctx|congruence].
  unfold buildAudioChain.
  rewrite (after_bind_run _ _ _ _ _ (new_node_run _ _)).
  rewrite (after_bind_run _ _ _ _ _ (update_run _ _)).
  rewrite (after_bind_run _ _ _ _ _ (emit_run _ _)).
  match goal with
  | |- chain_present (eng (after (bind createDelayEffect _) ?w2)) =>
      assert (H1 : audioContext (eng w2) = Some ctx) by exact Ectx;
      assert (H2 : masterGain (eng w2) = Some (nextNodeId (env w)))
        by reflexivity;
      rewrite (after_bind_run _ _ _ _ _ (createDelayEffect_run w2 ctx _ H1 H2))
  end.
  match goal with
  | |- chain_present (eng (after _ ?w3)) =>
      assert (H3 : chain_present (eng w3))
        by (cbn [eng]; apply (chain_after_delay _ _ _ ctx _ H1 H2));
      set (W3 := w3) in *; clearbody W3
  end.
  refine (settled_chain _ (st_chain_output (nextNodeId (env w)) W3
                             (settled_refl False False True W3 _)) H3).
  intros [].
Qed.

Lemma outcome_this {A B} (f : Engine -> A) (k : A -> M B) (w : World) :
  outcome (x <- this f ;; k x) w = outcome (k (f (eng w))) w.
Proof. reflexivity. Qed.

Lemma outcome_backend {A B} (f : Backend -> A) (k : A -> M B) (w : World) :
  outcome (x <- backend f ;; k x) w = outcome (k (f (env w))) w.
Proof. reflexivity. Qed.

Lemma outcome_try_catch {A} (c : M A) (h : string -> M A) (w : World) :
  outcome (try_catch c h) w =
  match outcome c w with
  | Ok a => Ok a
  | Throw e => outcome (h e) (after c w)
  end.
Proof.
  unfold after, outcome. cbn. destruct (c w) as [[a | e] w1]; reflexivity.
Qed.

Lemma startUp_ok (w : World) :
  outcome startUp w = Ok tt ->
  isPlaying (eng (after startUp w)) = true /\
  chain_present (eng (after startUp w)).
Proof.
  intros Hok. split.
  - destruct (startUp_steps w) as [w3 [_ [[e He] | He]]].
    + unfold outcome in Hok. rewrite He in Hok. discriminate.
    + unfold after. rewrite He. apply (startUp_tail w3).
  - unfold startUp in *. rewrite outcome_bind in Hok. rewrite after_bind.
    destruct (outcome acquireContext w) as [a|] eqn:H1; [|discriminate].
    pose proof (acquireContext_ok w a H1) as Hctx.
    set (w1 := after acquireContext w) in *. clearbody w1.
    rewrite outcome_bind in Hok. rewrite after_bind.
    destruct (outcome buildAudioChain w1) as [a2|] eqn:H2; [|discriminate].
    pose proof (buildAudioChain_chain w1 Hctx) as Hchain.
    set (w2 := after buildAudioChain w1) in *. clearbody w2.
    refine (settled_chain _ (st_startUp_rest (pool:=False) (chain:=True)
                               (armed:=False) w2
                               (settled_refl False False True w2 _)) Hchain).
    intros [].
Qed.

Lemma scheduler_idle (w : World) :
  isPlaying (eng w) = false \/ audioContext (eng w) = None ->
  scheduler w = (Ok tt, w).
Proof.
  intros [H | H]; unfold scheduler; cbn [bind this]; rewrite H;
    [reflexivity | destruct (isPlaying (eng w)); reflexivity].
Qed.

Lemma scheduler_arms (w : World) :
  isPlaying (eng w) = true -> audioContext (eng w) <> None ->
  outcome scheduler w = Ok tt ->
  schedulerId (eng (after scheduler w)) <> None.
Proof.
  intros Hp Hctx. unfold scheduler.
  rewrite !outcome_this, !after_this, Hp.
  destruct (audioContext (eng w)) as [ctx|]; [clear Hctx|congruence].
  rewrite outcome_backend, after_backend. cbv zeta.
  rewrite outcome_this, after_this, outcome_bind, after_bind.
  match goal with
  | |- context [outcome ?hop w] =>
      destruct (outcome hop w); [|discriminate];
      set (w1 := after hop w); clearbody w1
  end.
  rewrite outcome_bind, after_bind.
  match goal with
  | |- context [outcome ?loop w1] =>
      destruct (outcome loop w1); [|discriminate];
      set (w2 := after loop w1); clearbody w2
  end.
  intros _. unfold after, setTimeout. cbn. discriminate.
Qed.

Lemma outcome_stop (w : World) : outcome stop w = Ok tt.
Proof. destruct stop_runs as [_ H]. unfold outcome. now rewrite H. Qed.

Lemma eng_after_stop (w : World) : eng (after stop w) = stopped (eng w).
Proof. destruct stop_runs as [_ H]. unfold after. now rewrite H. Qed.

(** How [start()] ends on an engine that is not playing: normally,
    after [startUp] and the first run of the scheduler, or with the
    exception one of them raised, after [stop()]. *)
Lemma start_cases (w : World) :
  isPlaying (eng w) = false ->
  (outcome startUp w = Ok tt /\
   outcome scheduler (after startUp w) = Ok tt /\
   outcome start w = Ok tt /\
   after start w = after scheduler (after startUp w)) \/
  (exists e w1,
     (w1 = after startUp w \/
      outcome startUp w = Ok tt /\ w1 = after scheduler (after startUp w)) /\
     outcome start w = Throw e /\
     after start w = after stop w1).
Proof.
  intros Hp. unfold start.
  rewrite outcome_this, after_this, Hp.
  rewrite outcome_try_catch, after_try_catch, outcome_bind, after_bind.
  destruct (outcome startUp w) as [[]|e] eqn:H1.
  - destruct (outcome scheduler (after startUp w)) as [[]|e] eqn:H2.
    + left. repeat split.
    + right. exists e, (after scheduler (after startUp w)).
      split; [right; split; reflexivity|].
      rewrite outcome_bind, after_bind, outcome_stop. split; reflexivity.
  - right. exists e, (after startUp w). split; [left; reflexivity|].
    rewrite outcome_bind, after_bind, outcome_stop. split; reflexivity.
Qed.

Lemma start_ok (w : World) :
  isPlaying (eng w) = false ->
  outcome start w = Ok tt ->
  isPlaying (eng (after start w)) = true /\
  chain_present (eng (after start w)) /\
  schedulerId (eng (after start w)) <> None /\
  bpm (eng (after start w)) = bpm (eng w).
Proof.
  intros Hp Hok.
  destruct (start_cases w Hp) as [(H1 & H2 & _ & Hafter) | (e & w1 & _ & He & _)];
    [|congruence].
  rewrite Hafter. clear Hafter.
  destruct (startUp_ok w H1) as [Hplay Hchain].
  pose proof (st_startUp (pool:=False) (armed:=False) w
                (settled_refl False False False w ltac:(intros []))) as Hs1.
  set (w1 := after startUp w) in *. clearbody w1.
  pose proof (st_scheduler (pool:=False) (playing:=True) (chain:=True)
                (armed:=False) w1
                (settled_refl False True True w1 ltac:(intros []))) as Hs2.
  assert (Hctx : audioContext (eng w1) <> None) by apply Hchain.
  pose proof (scheduler_arms w1 Hplay Hctx H2) as Harm.
  pose proof (settled_chain _ Hs2 Hchain) as Hchain2.
  destruct Hs1 as (Hb1 & _). destruct Hs2 as (Hb2 & _ & Hp2 & _).
  set (w2 := after scheduler w1) in *. clearbody w2.
  assert (Hplay2 : isPlaying (eng w2) = true) by (rewrite (Hp2 I); exact Hplay).
  repeat split; try assumption; try apply Hchain2. congruence.
Qed.

(** X3.  A [start()] that returns normally on an engine that was not
    playing leaves it playing, with the audio context, the master gain
    and the delay line in place and a scheduler timer stored, at the
    tempo it had; a second [start()] then does nothing. *)
Theorem start_establishes_playback (w : World) :
  isPlaying (eng w) = false ->
  outcome start w = Ok tt ->
  let w' := after start w in
  isPlaying (eng w') = true /\
  chain_present (eng w') /\
  schedulerId (eng w') <> None /\
  bpm (eng w') = bpm (eng w) /\
  start w' = (Ok tt, w').
Proof.
  intros Hp Hok w'.
  destruct (start_ok w Hp Hok) as (H1 & H2 & H3 & H4).
  fold w' in H1, H2, H3, H4. clearbody w'.
  repeat split; try assumption; try apply H2.
  unfold start. cbn [bind this]. now rewrite H1.
Qed.

(** What [acquireContext] returns, read off the engine and the platform:
    it throws what [new AudioContext()] throws when there is no context
    yet, and otherwise what [resume()] rejects with when the context is
    suspended. *)
Lemma acquireContext_outcome (w : World) :
  outcome acquireContext w =
    match audioContext (eng w), contextError (env w) with
    | None, Some e => Throw e
    | _, _ =>
        match contextState (env w), resumeError (env w) with
        | suspended, Some e => Throw e
        | _, _ => Ok tt
        end
    end.
Proof.
  destruct w as [e b]. unfold acquireContext, outcome.
  cbn [eng env bind this backend fst snd].
  destruct (audioContext e), (contextError b) eqn:E1; cbn; rewrite ?E1;
    destruct (contextState b) eqn:E2, (resumeError b) eqn:E3;
    repeat (cbn; rewrite ?E1, ?E2, ?E3); reflexivity.
Qed.

(** X4.  A [start()] that fails rethrows the exception after [stop()]:
    the engine is left in the Stopped state, not playing, with no
    voice, no effect node and no timer, at the tempo it had.  What
    [new AudioContext()] throws, and what [resume()] rejects with when
    the context is suspended, is what [start()] throws. *)
Theorem start_failure_stops (w : World) :
  isPlaying (eng w) = false ->
  (forall e, audioContext (eng w) = None -> contextError (env w) = Some e ->
     outcome start w = Throw e) /\
  (forall e, audioContext (eng w) <> None \/ contextError (env w) = None ->
     contextState (env w) = suspended -> resumeError (env w) = Some e ->
     outcome start w = Throw e) /\
  forall e, outcome start w = Throw e ->
    let w' := after start w in
    eng w' = stopped (eng w') /\
    isPlaying (eng w') = false /\
    voices (eng w') = [] /\
    schedulerId (eng w') = None /\
    masterGain (eng w') = None /\
    delayNode (eng w') = None /\
    delayFilters (eng w') = [] /\
    reverbNode (eng w') = None /\
    bpm (eng w') = bpm (eng w).
Proof.
  intros Hp.
  assert (Hthrow : forall e, outcome acquireContext w = Throw e ->
                             outcome start w = Throw e).
  { intros e He. unfold start. rewrite outcome_this, Hp.
    rewrite outcome_try_catch, outcome_bind. unfold startUp.
    rewrite outcome_bind, He, outcome_bind, outcome_stop. reflexivity. }
  split; [|split].
  - intros e Hctx Hcan. apply Hthrow.
    rewrite acquireContext_outcome, Hctx, Hcan. reflexivity.
  - intros e Hctx Hst Hres. apply Hthrow.
    rewrite acquireContext_outcome, Hst, Hres.
    destruct (audioContext (eng w)), (contextError (env w));
      try reflexivity.
    destruct Hctx; congruence.
  - intros e He w'. subst w'.
    destruct (start_cases w Hp) as [(_ & _ & Hok & _) | (e' & w1 & Hw1 & _ & Hafter)];
      [congruence|].
    rewrite Hafter, eng_after_stop.
    repeat split. cbn [bpm stopped].
    pose proof (st_startUp (pool:=False) (armed:=False) w
                  (settled_refl False False False w ltac:(intros []))) as Hs1.
    destruct Hw1 as [-> | [_ ->]]; [apply Hs1|].
    pose proof (st_scheduler (pool:=False) (playing:=False) (chain:=False)
                  (armed:=False) (after startUp w)
                  (settled_refl False False False _ ltac:(intros []))) as Hs2.
    destruct Hs1 as (Hb1 & _). destruct Hs2 as (Hb2 & _). congruence.
Qed.

(** X5.  [toggle()] stops a playing engine and starts a stopped one:
    when it returns normally the play state is flipped, and when it
    throws the engine was not playing and is not playing after. *)
Theorem toggle_flips (w : World) :
  let w' := after toggle w in
  (outcome toggle w = Ok tt -> isPlaying (eng w') = negb (isPlaying (eng w))) /\
  (forall e, outcome toggle w = Throw e ->
     isPlaying (eng w) = false /\ isPlaying (eng w') = false) /\
  (isPlaying (eng w) = true -> toggle w = stop w) /\
  (isPlaying (eng w) = false -> toggle w = start w).
Proof.
  cbv zeta. unfold toggle. rewrite outcome_this, after_this.
  destruct (isPlaying (eng w)) eqn:Hp; cbn [negb].
  - rewrite outcome_stop, eng_after_stop. repeat split; try discriminate.
    unfold toggle. cbn [bind this]. now rewrite Hp.
  - split; [|split; [|split]].
    + intros Hok. apply (start_ok w Hp Hok).
    + intros e He. split; [reflexivity|].
      destruct (start_cases w Hp) as [(_ & _ & Hok & _) | (e' & w1 & _ & _ & Hafter)];
        [congruence|].
      now rewrite Hafter, eng_after_stop.
    + discriminate.
    + intros _. unfold toggle. cbn [bind this]. now rewrite Hp.
Qed.

(** X6.  Once [stop()] has run, a scheduler callback that still fires
    does nothing: no note, no timer, no change.  [stop()] cancels the
    timer the scheduler stored; and the scheduler does nothing whenever
    the engine is not playing or has no audio context. *)
Theorem scheduler_after_stop (w : World) :
  scheduler (after stop w) = (Ok tt, after stop w) /\
  (forall id, schedulerId (eng w) = Some id ->
     In (ClearTimeout id) (log (env (after stop w)))) /\
  (isPlaying (eng w) = false \/ audioContext (eng w) = None ->
   scheduler w = (Ok tt, w)).
Proof.
  split; [|split].
  - apply scheduler_idle. left. now rewrite eng_after_stop.
  - intros id Hid. destruct stop_runs as [_ H]. unfold after. rewrite H.
    cbn [snd env log set_log]. apply in_or_app. left.
    unfold stop_commands. rewrite !in_app_iff, Hid.
    do 12 right. now left.
  - apply scheduler_idle.
Qed.

End Invariants.

(* ================================================================= *)
(** * Parameter updates *)

Section Parameters.
Context {P : Platform}.

(** An assignment that commutes with [stopped] keeps an engine in the
    Stopped state. *)
Lemma stopped_commute (f : Engine -> Engine) (e : Engine) :
  (forall e, f (stopped e) = stopped (f e)) ->
  e = stopped e -> f e = stopped (f e).
Proof. intros Hf He. transitivity (f (stopped e)); [now rewrite <- He | apply Hf]. Qed.

(** With no delay node, gain or filter to retune, [updateDelayParams]
    does nothing. *)
Lemma updateDelayParams_idle (w : World) :
  delayNode (eng w) = None ->
  delayFeedbackGain (eng w) = None ->
  delayDryGain (eng w) = None ->
  delayFilters (eng w) = [] ->
  updateDelayParams w = (Ok tt, w).
Proof.
  intros Hdn Hfb Hdry Hfs.
  destruct (audioContext (eng w)) as [ctx|] eqn:Hctx.
  2:{ unfold updateDelayParams. cbn [bind this]. now rewrite Hctx. }
  rewrite (updateDelayParams_run w ctx Hctx). cbv zeta.
  unfold delay_param_cmds. rewrite Hdn, Hfb, Hdry. cbn [app].
  rewrite logged_nil.
  unfold updateDelayFilters. cbn [bind this]. rewrite Hctx.
  cbn [bind this]. rewrite Hfs.
  destruct (negb _); [|reflexivity].
  unfold recreateDelayFilterChain. cbn [bind this]. rewrite Hctx, Hdn.
  reflexivity.
Qed.

(** A partial update whose delay group, if any, finds nothing to
    retune only stores the parameters. *)
Lemma setSynthParams_quiet (p : PartialSynthParams) (w : World) :
  (p_delay p = None \/
   delayNode (eng w) = None /\ delayFeedbackGain (eng w) = None /\
   delayDryGain (eng w) = None /\ delayFilters (eng w) = []) ->
  setSynthParams p w =
  (Ok tt,
   {| eng := set_synthParams (merge_params p (synthParams (eng w))) (eng w);
      env := env w |}).
Proof.
  intros Hq. destruct (p_delay p) as [d|] eqn:Hd.
  - destruct Hq as [Hq | (Hdn & Hfb & Hdry & Hfs)]; [discriminate|].
    erewrite (setSynthParams_delay p d w); [|exact Hd|].
    2:{ apply updateDelayParams_idle; assumption. }
    cbn [eng env]. unfold merge_params. rewrite Hd.
    destruct p as [pe pv pt pd pm].
    cbn [p_envelope p_vibrato p_tremolo p_delay p_maxNoteDuration].
    destruct pe, pv, pt, pm; reflexivity.
  - clear Hq. unfold setSynthParams, merge_params.
    destruct p as [pe pv pt pd pm].
    cbn [p_envelope p_vibrato p_tremolo p_delay p_maxNoteDuration] in *.
    subst pd. destruct w as [e b]. destruct e.
    destruct pe, pv, pt, pm; reflexivity.
Qed.

(** X7.  [setSynthParams] with no delay group replaces exactly the
    groups it is given and calls nothing on the audio backend: the
    envelope, vibrato, tremolo and maximal note duration that
    [getSynthParams] returns afterwards are the given ones where given
    and the old ones elsewhere, the delay parameters and every other
    field of the engine are as before. *)
Theorem setSynthParams_merges (p : PartialSynthParams) (w : World) :
  p_delay p = None ->
  let s := synthParams (eng w) in
  let w' := after (setSynthParams p) w in
  let s' := synthParams (eng w') in
  outcome (setSynthParams p) w = Ok tt /\
  env w' = env w /\
  eng w' = set_synthParams s' (eng w) /\
  outcome getSynthParams w' = Ok s' /\
  envelope s' = match p_envelope p with Some x => x | None => envelope s end /\
  vibrato s' = match p_vibrato p with Some x => x | None => vibrato s end /\
  tremolo s' = match p_tremolo p with Some x => x | None => tremolo s end /\
  maxNoteDuration s' =
    match p_maxNoteDuration p with Some x => x | None => maxNoteDuration s end /\
  delay s' = delay s.
Proof.
  intros Hd s w' s'. subst s' w'. unfold after, outcome.
  rewrite (setSynthParams_quiet p w (or_introl Hd)).
  cbn [fst snd eng env synthParams set_synthParams getSynthParams this].
  unfold merge_params. rewrite Hd. subst s.
  destruct (p_envelope p), (p_vibrato p), (p_tremolo p),
    (p_maxNoteDuration p); repeat split.
Qed.

(** X8.  On an engine in the Stopped state, and on one that never
    started, [setSynthParams] only stores the parameters, the delay
    group included: nothing is sent to the audio backend, and no filter
    is created although the filter order may have changed. *)
Theorem setSynthParams_while_stopped (p : PartialSynthParams) (w : World) :
  eng w = stopped (eng w) ->
  let w' := after (setSynthParams p) w in
  outcome (setSynthParams p) w = Ok tt /\
  env w' = env w /\
  eng w' = set_synthParams (merge_params p (synthParams (eng w))) (eng w) /\
  eng w' = stopped (eng w') /\
  (forall d, p_delay p = Some d -> delay (synthParams (eng w')) = d) /\
  delayFilters (eng w') = [].
Proof.
  intros Hs w'. subst w'. unfold after, outcome.
  assert (Hq : delayNode (eng w) = None /\ delayFeedbackGain (eng w) = None /\
               delayDryGain (eng w) = None /\ delayFilters (eng w) = [])
    by (rewrite Hs; repeat split).
  rewrite (setSynthParams_quiet p w (or_intror Hq)).
  cbn [fst snd eng env]. split; [reflexivity|]. split; [reflexivity|].
  split; [reflexivity|]. split; [|split].
  - apply (stopped_commute (set_synthParams _)); [intro; reflexivity | exact Hs].
  - intros d Hd. cbn [synthParams set_synthParams].
    apply delay_merge_params, Hd.
  - cbn [delayFilters set_synthParams]. apply Hq.
Qed.

End Parameters.

(* ================================================================= *)
(** * The states an engine can reach *)

Section Reachable.
Context {P : Platform}.

Lemma inv_fresh (b : Backend) : engine_inv (MusicEngine_new b).
Proof.
  unfold MusicEngine_new. destruct (PcsRelationGraph_new b) as [g b'].
  unfold engine_inv. cbn [eng voices bpm isPlaying List.length].
  split; [unfold MAX_VOICES; lia|]. split; [discriminate|].
  split; [discriminate|]. split; [reflexivity | discriminate].
Qed.

Lemma inv_stop (w : World) :
  20 <= bpm (eng w) -> bpm (eng w) <= 300 -> engine_inv (after stop w).
Proof.
  intros Hlo Hhi. unfold engine_inv. rewrite eng_after_stop.
  cbn [voices bpm isPlaying stopped List.length].
  split; [unfold MAX_VOICES; lia|]. split; [exact Hlo|]. split; [exact Hhi|].
  split; [reflexivity | discriminate].
Qed.

(** An assignment to a field that the invariant does not read. *)
Lemma inv_assign (f : Engine -> Engine) (w : World) :
  (forall e, f (stopped e) = stopped (f e)) ->
  (forall e, voices (f e) = voices e /\ bpm (f e) = bpm e /\
             isPlaying (f e) = isPlaying e /\ schedulerId (f e) = schedulerId e /\
             (chain_present e -> chain_present (f e))) ->
  engine_inv w -> engine_inv {| eng := f (eng w); env := env w |}.
Proof.
  intros Hc Hf (Hv & Hlo & Hhi & Hs & Hr).
  destruct (Hf (eng w)) as (E1 & E2 & E3 & E4 & E5).
  unfold engine_inv. cbn [eng]. rewrite E1, E2, E3, E4.
  split; [exact Hv|]. split; [exact Hlo|]. split; [exact Hhi|]. split.
  - intros Hp. apply stopped_commute; [exact Hc | exact (Hs Hp)].
  - intros Hp. destruct (Hr Hp) as [H1 H2]. split; [exact (E5 H1) | exact H2].
Qed.

(** While the engine plays, what [settled] keeps is what the invariant
    needs. *)
Lemma inv_settled (w w' : World) :
  engine_inv w -> isPlaying (eng w) = true ->
  settled True True True True (eng w) w' -> engine_inv w'.
Proof.
  intros (Hv & Hlo & Hhi & Hs & Hr) Hp (Hb & Hv' & Hp' & Hc & Ha).
  destruct (Hr Hp) as [Hchain Hid].
  assert (Hplay : isPlaying (eng w') = true) by (rewrite (Hp' I); exact Hp).
  unfold engine_inv. rewrite Hb, Hplay.
  split; [exact (Hv' I)|]. split; [exact Hlo|]. split; [exact Hhi|].
  split; [discriminate|]. intros _. split; [|exact (Ha I)].
  unfold chain_present. destruct (Hc I) as (E1 & E2 & E3 & E4 & E5 & E6 & E7).
  rewrite E1, E2, E3, E4, E5, E6, E7. exact Hchain.
Qed.

Lemma settled_start (w : World) :
  engine_inv w -> isPlaying (eng w) = true ->
  settled True True True True (eng w) w.
Proof.
  intros (Hv & _ & _ & _ & Hr) Hp. destruct (Hr Hp) as [_ Hid].
  repeat split; trivial.
Qed.

Lemma inv_start (w : World) : engine_inv w -> engine_inv (after start w).
Proof.
  intros Hinv. destruct (isPlaying (eng w)) eqn:Hp.
  { replace (after start w) with w; [exact Hinv|].
    unfold after, start. cbn [bind this]. now rewrite Hp. }
  pose proof Hinv as (Hv & Hlo & Hhi & _).
  pose proof (st_startUp (pool:=True) (armed:=False) w
                (settled_refl True False False w (fun _ => Hv))) as Hs1.
  assert (Hs2 : settled True False False False (eng w)
                  (after scheduler (after startUp w))).
  { apply st_scheduler, Hs1. }
  destruct (start_cases w Hp)
    as [(H1 & H2 & Hok & Hafter) | (e & w1 & Hw1 & _ & Hafter)].
  - destruct (start_ok w Hp Hok) as (Hplay & Hchain & Hid & Hb).
    unfold engine_inv. rewrite Hb, Hplay.
    split; [rewrite Hafter; apply Hs2; exact I|].
    split; [exact Hlo|]. split; [exact Hhi|]. split; [discriminate|].
    intros _. split; assumption.
  - rewrite Hafter.
    assert (Hb : bpm (eng w1) = bpm (eng w))
      by (destruct Hw1 as [-> | [_ ->]]; [apply Hs1 | apply Hs2]).
    apply inv_stop; rewrite Hb; assumption.
Qed.

Lemma inv_scheduler (w : World) : engine_inv w -> engine_inv (after scheduler w).
Proof.
  intros Hinv. destruct (isPlaying (eng w)) eqn:Hp.
  - apply (inv_settled w); [exact Hinv | exact Hp |].
    apply st_scheduler, settled_start; assumption.
  - unfold after. rewrite (scheduler_idle w (or_introl Hp)). exact Hinv.
Qed.

Lemma inv_setSynthParams (p : PartialSynthParams) (w : World) :
  engine_inv w -> engine_inv (after (setSynthParams p) w).
Proof.
  intros Hinv. destruct (isPlaying (eng w)) eqn:Hp.
  - apply (inv_settled w); [exact Hinv | exact Hp |].
    apply st_setSynthParams, settled_start; assumption.
  - pose proof Hinv as (_ & _ & _ & Hs & _). specialize (Hs Hp).
    assert (Hq : delayNode (eng w) = None /\ delayFeedbackGain (eng w) = None /\
                 delayDryGain (eng w) = None /\ delayFilters (eng w) = [])
      by (rewrite Hs; repeat split).
    unfold after. rewrite (setSynthParams_quiet p w (or_intror Hq)). cbn [snd].
    apply inv_assign; [intro; reflexivity | | exact Hinv].
    intro e. repeat split; apply H.
Qed.

Lemma inv_setBpm (b : Q) (w : World) :
  engine_inv w -> engine_inv (after (setBpm b) w).
Proof.
  intros (Hv & _ & _ & Hs & Hr). unfold engine_inv, after, setBpm.
  cbn [snd update eng voices bpm isPlaying schedulerId set_bpm].
  split; [exact Hv|].
  split; [apply Math_max_l|]. split.
  - destruct (Math_max_spec 20 (Math_min 300 b)) as [[_ ->] | [_ ->]];
      [|discriminate].
    destruct (Math_min_spec 300 b) as [[_ ->] | [H ->]];
      [discriminate | apply Qlt_le_weak, H].
  - split.
    + intros Hp. apply (stopped_commute (set_bpm _));
        [intro; reflexivity | exact (Hs Hp)].
    + exact Hr.
Qed.

(** The invariant holds after every event. *)
Lemma inv_perform (o : Op) (w : World) :
  engine_inv w -> engine_inv (after (perform o) w).
Proof.
  intros Hinv. destruct o; cbn [perform].
  - apply inv_start, Hinv.
  - apply inv_stop; apply Hinv.
  - unfold toggle. rewrite after_this.
    destruct (isPlaying (eng w));
      [apply inv_stop; apply Hinv | apply inv_start, Hinv].
  - apply inv_setBpm, Hinv.
  - apply (inv_assign (set_meanNotesPerBar _));
      [intro; reflexivity | | exact Hinv].
    intro e. repeat split; apply H.
  - apply inv_setSynthParams, Hinv.
  - apply (inv_assign (install_callbacks _ _ _));
      [intro; reflexivity | | exact Hinv].
    intro e. repeat split; apply H.
  - apply inv_scheduler, Hinv.
  - exact Hinv.
Qed.

Lemma inv_run_ops (ops : list Op) (w : World) :
  engine_inv w -> engine_inv (run_ops ops w).
Proof.
  revert w. induction ops as [|o ops IH]; intros w Hinv; cbn [run_ops].
  - exact Hinv.
  - apply IH, inv_perform, Hinv.
Qed.

(** X9.  Whatever is done to an engine after its construction (calls
    of [start], [stop], [toggle], [setBpm], [setLambda] and
    [setSynthParams] in any order and with any arguments, scheduler
    callbacks at any clock reading), it never tracks more than
    [MAX_VOICES] voices. *)
Theorem voices_never_exceed_pool (b : Backend) (ops : list Op) :
  (List.length (voices (eng (run_ops ops (MusicEngine_new b)))) <= MAX_VOICES)%nat.
Proof. apply (inv_run_ops ops _ (inv_fresh b)). Qed.

(** X10.  In every state an engine can reach the tempo is between 20
    and 300: the sixteenth note, the bar and a beat have a positive
    duration, and no timing getter divides by zero. *)
Theorem tempo_always_in_range (b : Backend) (ops : list Op) :
  let e := eng (run_ops ops (MusicEngine_new b)) in
  20 <= bpm e /\ bpm e <= 300 /\
  0 < sixteenthSeconds e /\ sixteenthSeconds e <= 3 / 4 /\
  0 < barSeconds e /\ barSeconds e == 16 * sixteenthSeconds e.
Proof.
  cbv zeta.
  destruct (inv_run_ops ops _ (inv_fresh b)) as (_ & Hlo & Hhi & _).
  set (e := eng (run_ops ops (MusicEngine_new b))) in *. clearbody e.
  assert (Hpos : 0 < bpm e) by lra.
  pose proof (beat_pos (bpm e) Hpos) as Hbeat.
  assert (Hmax : 60 / bpm e <= 3) by (apply Qle_shift_div_r; lra).
  unfold sixteenthSeconds, barSeconds.
  set (x := 60 / bpm e) in *. clearbody x.
  repeat split; qlra.
Qed.

(** X11.  In every state an engine can reach it is either stopped or
    running.  When it is not playing it is in the Stopped state: no
    tracked voice, no master gain, no delay node, no filter, no reverb,
    no timer.  When it is playing the audio context, the master gain
    and the delay line exist and a scheduler timer is stored. *)
Theorem stopped_or_running (b : Backend) (ops : list Op) :
  let e := eng (run_ops ops (MusicEngine_new b)) in
  (isPlaying e = false ->
   e = stopped e /\ voices e = [] /\ masterGain e = None /\
   delayNode e = None /\ delayFilters e = [] /\ reverbNode e = None /\
   schedulerId e = None) /\
  (isPlaying e = true ->
   chain_present e /\ schedulerId e <> None).
Proof.
  cbv zeta.
  destruct (inv_run_ops ops _ (inv_fresh b)) as (_ & _ & _ & Hs & Hr).
  split; [|exact Hr].
  intros Hp. specialize (Hs Hp). split; [exact Hs|].
  rewrite Hs. repeat split.
Qed.

End Reachable.

(* ================================================================= *)
(** * One run of the scheduler *)

Section SchedulerRun.
Context {P : Platform}.

Ltac notes_leaf :=
  let H := fresh "H" in
  intros (?vs & ?t & H);
  first [ do 2 eexists; exact H
        | do 2 eexists; cbn [after snd update eng]; rewrite H; reflexivity ].

Lemma only_notes_refl (w : World) : only_notes (eng w) w.
Proof.
  exists (voices (eng w)), (nextNoteTime (eng w)). now destruct (eng w).
Qed.

Lemma on_triggerNote e0 f t d w : keeps (only_notes e0) (triggerNote f t d) w.
Proof.
  intros (vs & t' & H).
  destruct (triggerNote_engine f t d w) as (vs' & He & _).
  exists vs', t'. rewrite He, H. reflexivity.
Qed.
#[local] Hint Extern 0 (keeps _ (triggerNote _ _ _) _) =>
  apply on_triggerNote : keeps.

Lemma on_triggerRandomNote e0 t w :
  keeps (only_notes e0) (triggerRandomNote t) w.
Proof. unfold triggerRandomNote. keep notes_leaf. Qed.
#[local] Hint Extern 0 (keeps _ (triggerRandomNote _) _) =>
  apply on_triggerRandomNote : keeps.

Lemma on_scheduleNextNote e0 t w :
  keeps (only_notes e0) (scheduleNextNote t) w.
Proof. unfold scheduleNextNote, generateExponentialDelay. keep notes_leaf. Qed.
#[local] Hint Extern 0 (keeps _ (scheduleNextNote _) _) =>
  apply on_scheduleNextNote : keeps.

Lemma on_noteLoop e0 n c la w : keeps (only_notes e0) (noteLoop n c la) w.
Proof.
  revert w. induction n as [|k IH]; intro w; cbn [noteLoop]; keep notes_leaf.
Qed.

(** The onsets of the note loop: at most [n], newest first, each in
    the window of the run; the clock is not moved. *)
Lemma noteLoop_onsets (c : Q) (n : nat) (w : World) :
  exists new,
    onsetsOf (log (env (after (noteLoop n c 0.2) w))) =
      new ++ onsetsOf (log (env w)) /\
    (List.length new <= n)%nat /\
    Forall (in_window c) new /\
    currentTime (env (after (noteLoop n c 0.2) w)) = currentTime (env w).
Proof.
  revert w. induction n as [|k IH]; intro w.
  - exists []. repeat split; [apply Nat.le_refl | constructor].
  - rewrite after_noteLoop_S.
    destruct (Qle_bool (nextNoteTime (eng w)) (c + 0.2)) eqn:Hdue.
    2:{ exists []. repeat split; [cbn; lia | constructor]. }
    set (o := Math_max (nextNoteTime (eng w)) (c + 0.02)).
    assert (Ho : in_window c o).
    { apply Qle_bool_iff in Hdue. unfold in_window, o.
      destruct (Math_max_spec (nextNoteTime (eng w)) (c + 0.02))
        as [[_ ->] | [? ->]]; lra. }
    rewrite after_bind.
    change (outcome (emit (CallTriggerRandomNote o)) w) with (@Ok unit tt).
    cbv iota.
    set (w1 := after (emit (CallTriggerRandomNote o)) w).
    assert (H1 : onsetsOf (log (env w1)) = o :: onsetsOf (log (env w)))
      by reflexivity.
    assert (C1 : currentTime (env w1) = currentTime (env w)) by reflexivity.
    clearbody w1. rewrite after_bind.
    pose proof (sf_triggerRandomNote o w1) as (_ & _ & _ & _ & C2 & _ & H2).
    set (w2 := after (triggerRandomNote o) w1) in *. clearbody w2.
    destruct (outcome (triggerRandomNote o) w1).
    2:{ exists [o]. rewrite H2, H1. repeat split; [cbn; lia | | congruence].
        constructor; [exact Ho | constructor]. }
    rewrite after_this, after_bind.
    assert (Hs : outcome (scheduleNextNote (nextNoteTime (eng w2))) w2 = Ok tt)
      by (unfold outcome; now rewrite scheduleNextNote_run).
    rewrite Hs.
    set (w3 := after (scheduleNextNote (nextNoteTime (eng w2))) w2).
    assert (H3 : onsetsOf (log (env w3)) = onsetsOf (log (env w2)))
      by (unfold w3, after; now rewrite scheduleNextNote_run).
    assert (C3 : currentTime (env w3) = currentTime (env w2))
      by (unfold w3, after; now rewrite scheduleNextNote_run).
    clearbody w3.
    destruct (IH w3) as (new & E & Hlen & Hall & C4).
    exists (new ++ [o]). rewrite E, C4, H3, H2, H1, <- app_assoc.
    split; [reflexivity|]. split; [|split].
    + rewrite length_app. cbn. lia.
    + apply Forall_app. split; [exact Hall|].
      constructor; [exact Ho | constructor].
    + congruence.
Qed.

Lemma graphHop_steady : steady_frame graphHop.
Proof. apply sf_hop. Qed.

(** The scheduler of a playing engine, statement by statement. *)
Lemma scheduler_playing (w : World) ctx :
  isPlaying (eng w) = true -> audioContext (eng w) = Some ctx ->
  scheduler w =
  ((if Qle_bool (nextGraphHopTime (eng w) - 0.2) (currentTime (env w))
    then graphHop else ret tt) ;;
   noteLoop 3 (currentTime (env w)) 0.2 ;;
   id <- setTimeout 50 ;;
   update (set_schedulerId (Some id))) w.
Proof.
  intros Hp Hctx. unfold scheduler. cbn [bind this]. rewrite Hp, Hctx.
  reflexivity.
Qed.

Lemma arm_run (w : World) :
  (id <- setTimeout 50 ;; update (set_schedulerId (Some id))) w =
  (Ok tt,
   {| eng := set_schedulerId (Some (nextTimerId (env w))) (eng w);
      env := set_log (SetTimeout (nextTimerId (env w)) 50 :: log (env w))
               (set_nextTimerId (S (nextTimerId (env w))) (env w)) |}).
Proof. reflexivity. Qed.

Lemma eng_after_arm (w : World) :
  eng (after (id <- setTimeout 50 ;; update (set_schedulerId (Some id))) w) =
  set_schedulerId (Some (nextTimerId (env w))) (eng w).
Proof. reflexivity. Qed.

(** X12.  One run of the scheduler triggers at most three notes, and
    each onset it passes to [triggerRandomNote] lies between 20 ms and
    200 ms after the clock reading of the run; the clock is not moved.
    When the run returns normally on a playing engine, its last action
    is to set one timer of 50 ms, whose id it stores. *)
Theorem scheduler_burst (w : World) :
  let c := currentTime (env w) in
  let w' := after scheduler w in
  (exists new,
     onsetsOf (log (env w')) = new ++ onsetsOf (log (env w)) /\
     (List.length new <= 3)%nat /\
     Forall (in_window c) new) /\
  currentTime (env w') = c /\
  (isPlaying (eng w) = true -> audioContext (eng w) <> None ->
   outcome scheduler w = Ok tt ->
   exists id,
     schedulerId (eng w') = Some id /\
     hd_error (log (env w')) = Some (SetTimeout id 50)).
Proof.
  cbv zeta.
  destruct (isPlaying (eng w)) eqn:Hp;
    [destruct (audioContext (eng w)) as [ctx|] eqn:Hctx|].
  2,3: (unfold outcome, after; rewrite scheduler_idle by tauto;
        cbn [fst snd]; repeat split;
        [ exists []; repeat split; [cbn; lia | constructor]
        | intros; congruence ]).
  unfold outcome, after. rewrite (scheduler_playing w ctx Hp Hctx).
  fold (outcome
          ((if Qle_bool (nextGraphHopTime (eng w) - 0.2) (currentTime (env w))
            then graphHop else ret tt) ;;
           noteLoop 3 (currentTime (env w)) 0.2 ;;
           id <- setTimeout 50 ;;
           update (set_schedulerId (Some id))) w).
  fold (after
          ((if Qle_bool (nextGraphHopTime (eng w) - 0.2) (currentTime (env w))
            then graphHop else ret tt) ;;
           noteLoop 3 (currentTime (env w)) 0.2 ;;
           id <- setTimeout 50 ;;
           update (set_schedulerId (Some id))) w).
  rewrite outcome_bind, after_bind.
  set (hop := if Qle_bool (nextGraphHopTime (eng w) - 0.2) (currentTime (env w))
              then graphHop else ret tt).
  assert (Hst : steady w (after hop w)).
  { subst hop.
    destruct (Qle_bool (nextGraphHopTime (eng w) - 0.2) (currentTime (env w)));
      [apply graphHop_steady | apply steady_refl]. }
  destruct Hst as (_ & _ & _ & _ & Hc1 & _ & Ho1).
  set (w1 := after hop w) in *. clearbody w1.
  destruct (outcome hop w).
  2:{ repeat split; [|exact Hc1 | discriminate].
      exists []. rewrite Ho1. repeat split; [cbn; lia | constructor]. }
  rewrite outcome_bind, after_bind.
  destruct (noteLoop_onsets (currentTime (env w)) 3 w1)
    as (new & E & Hlen & Hall & Hc2).
  set (w2 := after (noteLoop 3 (currentTime (env w)) 0.2) w1) in *. clearbody w2.
  destruct (outcome (noteLoop 3 (currentTime (env w)) 0.2) w1).
  2:{ repeat split; [|congruence | discriminate].
      exists new. rewrite E, Ho1. repeat split; assumption. }
  unfold outcome, after. rewrite arm_run. cbn [fst snd eng env].
  repeat split.
  - exists new. cbn [log set_log onsetsOf]. rewrite E, Ho1.
    repeat split; assumption.
  - cbn [currentTime set_log set_nextTimerId]. congruence.
  - intros _ _ _. eexists. split; reflexivity.
Qed.

Lemma graphHop_run (w : World) :
  outcome graphHop w = Ok tt ->
  exists g' pcs,
    fst (advance (pcsGraph (eng w)) (env w)) = Ok g' /\
    current g' = Some pcs /\
    eng (after graphHop w) =
      set_nextGraphHopTime
        (nextGraphHopTime (eng w) + barSeconds (eng w) * BARS_PER_CHANGE)
        (set_activePitchClasses (asSequence pcs) (set_pcsGraph g' (eng w))).
Proof.
  unfold graphHop, pcsGraph_advance, refreshPitchClasses, outcome, after.
  cbn [bind this].
  destruct (advance (pcsGraph (eng w)) (env w)) as [[g' | e] b'];
    cbn [fst snd bind this eng pcsGraph set_pcsGraph]; [|discriminate].
  destruct (current g') as [pcs|] eqn:Hc; cbn [bind update this throw fst];
    [|discriminate].
  intros _. exists g', pcs. split; [reflexivity|]. split; [exact Hc|].
  cbn [eng onChordChange set_activePitchClasses].
  destruct (onChordChange (set_pcsGraph g' (eng w))); reflexivity.
Qed.

(** X13.  A run of the scheduler that returns normally on a playing
    engine changes the chord at most once.  When the clock has come
    within 200 ms of [nextGraphHopTime], the graph advances one step,
    the active pitch classes become those of the new node and
    [nextGraphHopTime] moves on by exactly four bars, however late the
    clock is; otherwise graph, pitch classes and hop time stay.  Apart
    from these the run changes only the voice list, [nextNoteTime] and
    the stored timer id. *)
Theorem scheduler_graph_hop (w : World) :
  isPlaying (eng w) = true ->
  audioContext (eng w) <> None ->
  outcome scheduler w = Ok tt ->
  let now := currentTime (env w) in
  let hop := nextGraphHopTime (eng w) in
  let w' := after scheduler w in
  (now < hop - 0.2 ->
   nextGraphHopTime (eng w') = hop /\
   pcsGraph (eng w') = pcsGraph (eng w) /\
   activePitchClasses (eng w') = activePitchClasses (eng w) /\
   exists vs t id,
     eng w' = set_schedulerId (Some id)
                (set_nextNoteTime t (set_voices vs (eng w)))) /\
  (hop - 0.2 <= now ->
   nextGraphHopTime (eng w') = hop + barSeconds (eng w) * BARS_PER_CHANGE /\
   exists g' pcs,
     fst (advance (pcsGraph (eng w)) (env w)) = Ok g' /\
     current g' = Some pcs /\
     pcsGraph (eng w') = g' /\
     activePitchClasses (eng w') = asSequence pcs /\
     exists vs t id,
       eng w' = set_schedulerId (Some id)
                  (set_nextNoteTime t (set_voices vs
                     (set_nextGraphHopTime
                        (hop + barSeconds (eng w) * BARS_PER_CHANGE)
                        (set_activePitchClasses (asSequence pcs)
                           (set_pcsGraph g' (eng w))))))).
Proof.
  intros Hp Hctx Hok now hop w'. subst now hop w'.
  destruct (audioContext (eng w)) as [ctx|] eqn:Ectx; [clear Hctx|congruence].
  revert Hok. unfold outcome, after. rewrite (scheduler_playing w ctx Hp Ectx).
  set (prog := (if Qle_bool (nextGraphHopTime (eng w) - 0.2) (currentTime (env w))
                then graphHop else ret tt)).
  fold (outcome (prog ;;
                 noteLoop 3 (currentTime (env w)) 0.2 ;;
                 id <- setTimeout 50 ;;
                 update (set_schedulerId (Some id))) w).
  fold (after (prog ;;
               noteLoop 3 (currentTime (env w)) 0.2 ;;
               id <- setTimeout 50 ;;
               update (set_schedulerId (Some id))) w).
  rewrite outcome_bind, after_bind.
  destruct (outcome prog w) as [[]|] eqn:H1; [|discriminate].
  rewrite outcome_bind, after_bind.
  pose proof (on_noteLoop (eng (after prog w)) 3 (currentTime (env w)) 0.2
                (after prog w) (only_notes_refl _)) as (vs & t & H2).
  destruct (outcome (noteLoop 3 (currentTime (env w)) 0.2) (after prog w));
    [|discriminate].
  intros _. rewrite !eng_after_arm, H2.
  cbn [nextGraphHopTime pcsGraph activePitchClasses set_schedulerId
       set_nextNoteTime set_voices].
  subst prog. split.
  - intros Hlt. apply Qle_bool_false in Hlt. rewrite Hlt in *.
    repeat split. do 3 eexists. reflexivity.
  - intros Hle. apply Qle_bool_iff in Hle. rewrite Hle in *.
    destruct (graphHop_run w H1) as (g' & pcs & Ha & Hc & He).
    rewrite He. split; [reflexivity|]. exists g', pcs.
    repeat split; try assumption. do 3 eexists. reflexivity.
Qed.

End SchedulerRun.

(* ================================================================= *)
(** * The onsets of a session, run by run *)

Section SessionRuns.
Context {P : Platform}.

Lemma lambda_same (e1 e2 : Engine) :
  bpm e1 = bpm e2 -> meanNotesPerBar e1 = meanNotesPerBar e2 ->
  lambda e1 = lambda e2.
Proof. intros Hb Hm. unfold lambda, barSeconds. now rewrite Hb, Hm. Qed.

Lemma on_course_steady (e0 : Engine) (draws : nat -> Q) (w w' : World) :
  steady w w' -> on_course e0 draws w -> on_course e0 draws w'.
Proof.
  intros (Sb & Sm & _ & Sn & _ & Sr & _) (H1 & H2 & H3 & H4).
  unfold on_course. rewrite Sb, Sm, Sn, Sr. repeat split; assumption.
Qed.

Lemma outcome_noteLoop_S (k : nat) (c la : Q) (w : World) :
  outcome (noteLoop (S k) c la) w =
  if Qle_bool (nextNoteTime (eng w)) (c + la) then
    outcome (emit (CallTriggerRandomNote
                     (Math_max (nextNoteTime (eng w)) (c + 0.02))) ;;
             triggerRandomNote (Math_max (nextNoteTime (eng w)) (c + 0.02)) ;;
             next' <- this nextNoteTime ;;
             scheduleNextNote next' ;;
             noteLoop k c la) w
  else Ok tt.
Proof.
  unfold outcome. cbn [noteLoop bind this].
  destruct (Qle_bool (nextNoteTime (eng w)) (c + la)); reflexivity.
Qed.

(** The note loop of a run, note by note. *)
Lemma noteLoop_runs (e0 : Engine) (draws : nat -> Q) (c : Q) (n : nat) :
  forall w : World,
    on_course e0 draws w ->
    exists os,
      onsetsOf (log (env (after (noteLoop n c 0.2) w))) =
        rev os ++ onsetsOf (log (env w)) /\
      run_onsets e0 draws c n (nextNoteTime (eng w)) os
        (match outcome (noteLoop n c 0.2) w with
         | Ok _ => Some (nextNoteTime (eng (after (noteLoop n c 0.2) w)))
         | Throw _ => None
         end) /\
      (outcome (noteLoop n c 0.2) w = Ok tt ->
       on_course e0 draws (after (noteLoop n c 0.2) w)).
Proof.
  induction n as [|k IH]; intros w Hw.
  - exists []. split; [reflexivity|]. split; [apply run_full | intros _; exact Hw].
  - rewrite outcome_noteLoop_S, after_noteLoop_S.
    destruct (Qle_bool (nextNoteTime (eng w)) (c + 0.2)) eqn:Hdue.
    2:{ exists []. split; [reflexivity|].
        split; [|intros _; exact Hw]. apply run_ahead.
        now apply Qle_bool_false. }
    apply Qle_bool_iff in Hdue.
    set (g := nextNoteTime (eng w)) in *.
    set (o := Math_max g (c + 0.02)).
    assert (Hg : multiple_of (sixteenthSeconds e0) g) by apply Hw.
    rewrite outcome_bind, after_bind.
    change (outcome (emit (CallTriggerRandomNote o)) w) with (@Ok unit tt).
    cbv iota.
    set (w1 := after (emit (CallTriggerRandomNote o)) w).
    assert (H1 : onsetsOf (log (env w1)) = o :: onsetsOf (log (env w)))
      by reflexivity.
    assert (Hw1 : on_course e0 draws w1) by exact Hw.
    assert (G1 : nextNoteTime (eng w1) = g) by reflexivity.
    clearbody w1. rewrite outcome_bind, after_bind.
    pose proof (sf_triggerRandomNote o w1) as Hst.
    set (w2 := after (triggerRandomNote o) w1) in *.
    assert (Hw2 : on_course e0 draws w2)
      by (eapply on_course_steady; eassumption).
    destruct Hst as (_ & _ & _ & G2 & _ & _ & H2). clearbody w2.
    destruct (outcome (triggerRandomNote o) w1).
    2:{ exists [o]. rewrite H2, H1. split; [reflexivity|].
        split; [apply run_thrown; assumption | discriminate]. }
    rewrite outcome_this, after_this, outcome_bind, after_bind.
    assert (Hs : outcome (scheduleNextNote (nextNoteTime (eng w2))) w2 = Ok tt)
      by (unfold outcome; now rewrite scheduleNextNote_run).
    rewrite Hs.
    set (w3 := after (scheduleNextNote (nextNoteTime (eng w2))) w2).
    assert (H3 : onsetsOf (log (env w3)) = onsetsOf (log (env w2)))
      by (unfold w3, after; now rewrite scheduleNextNote_run).
    destruct Hw2 as (B2 & M2 & R2 & _).
    assert (G3 : rescheduled e0 draws g (nextNoteTime (eng w3))).
    { exists (randomPos (env w2)). unfold w3, after.
      rewrite scheduleNextNote_run. cbn [snd eng nextNoteTime set_nextNoteTime].
      rewrite (quantize_same_tempo (eng w2) e0) by exact B2.
      rewrite (lambda_same (eng w2) e0) by assumption.
      rewrite R2, G2, G1. reflexivity. }
    assert (Hw3 : on_course e0 draws w3).
    { unfold on_course. split; [|split; [|split]].
      - unfold w3, after. rewrite scheduleNextNote_run. exact B2.
      - unfold w3, after. rewrite scheduleNextNote_run. exact M2.
      - unfold w3, after. rewrite scheduleNextNote_run. exact R2.
      - destruct G3 as [k' ->]. apply quantize_multiple. }
    clearbody w3.
    destruct (IH w3 Hw3) as (os & E & Hrun & Hend).
    exists (o :: os). split; [|split; [|exact Hend]].
    + rewrite E, H3, H2, H1. cbn [rev]. now rewrite <- app_assoc.
    + apply (run_note e0 draws c k g (nextNoteTime (eng w3)));
        [exact Hdue | exact Hg | exact G3 | exact Hrun].
Qed.

(** A run of the scheduler on a playing engine. *)
Lemma scheduler_runs (e0 : Engine) (draws : nat -> Q) (w : World) :
  isPlaying (eng w) = true ->
  audioContext (eng w) <> None ->
  on_course e0 draws w ->
  let w' := after scheduler w in
  exists os,
    onsetsOf (log (env w')) = rev os ++ onsetsOf (log (env w)) /\
    match outcome scheduler w with
    | Ok _ =>
        run_onsets e0 draws (currentTime (env w)) 3 (nextNoteTime (eng w)) os
          (Some (nextNoteTime (eng w'))) /\
        on_course e0 draws w' /\
        isPlaying (eng w') = true /\
        audioContext (eng w') <> None
    | Throw _ =>
        os = [] \/
        run_onsets e0 draws (currentTime (env w)) 3 (nextNoteTime (eng w)) os
          None
    end.
Proof.
  intros Hp Hctx Hw w'.
  assert (Hkeep : isPlaying (eng w') = true /\ audioContext (eng w') <> None).
  { pose proof (st_scheduler (pool:=False) (playing:=True) (chain:=True)
                  (armed:=False) w
                  (settled_refl False True True w ltac:(intros [])))
      as (_ & _ & Hp' & Hc' & _).
    fold w' in Hp', Hc'. destruct (Hc' I) as [Hc'' _].
    rewrite (Hp' I), Hc''. split; assumption. }
  revert Hkeep. subst w'.
  destruct (audioContext (eng w)) as [ctx|] eqn:Ectx; [clear Hctx|congruence].
  unfold outcome, after. rewrite (scheduler_playing w ctx Hp Ectx).
  set (hop := if Qle_bool (nextGraphHopTime (eng w) - 0.2)
                   (currentTime (env w))
              then graphHop else ret tt).
  fold (outcome (hop ;;
                 noteLoop 3 (currentTime (env w)) 0.2 ;;
                 id <- setTimeout 50 ;;
                 update (set_schedulerId (Some id))) w).
  fold (after (hop ;;
               noteLoop 3 (currentTime (env w)) 0.2 ;;
               id <- setTimeout 50 ;;
               update (set_schedulerId (Some id))) w).
  rewrite outcome_bind, after_bind.
  assert (Hst : steady w (after hop w)).
  { subst hop.
    destruct (Qle_bool (nextGraphHopTime (eng w) - 0.2) (currentTime (env w)));
      [apply graphHop_steady | apply steady_refl]. }
  pose proof (on_course_steady e0 draws _ _ Hst Hw) as Hw1.
  destruct Hst as (_ & _ & _ & Hn1 & _ & _ & Ho1).
  set (w1 := after hop w) in *. clearbody w1.
  destruct (outcome hop w).
  2:{ intros _. exists []. split; [exact Ho1 | left; reflexivity]. }
  rewrite outcome_bind, after_bind.
  destruct (noteLoop_runs e0 draws (currentTime (env w)) 3 w1 Hw1)
    as (os & E & Hrun & Hw2).
  set (w2 := after (noteLoop 3 (currentTime (env w)) 0.2) w1) in *.
  clearbody w2.
  destruct (outcome (noteLoop 3 (currentTime (env w)) 0.2) w1) as [[]|].
  2:{ intros _. exists os. rewrite E, Ho1, <- Hn1.
      split; [reflexivity | right; exact Hrun]. }
  unfold outcome, after. rewrite arm_run. cbn [fst snd eng env].
  intros Hkeep. exists os.
  cbn [log set_log set_nextTimerId onsetsOf nextNoteTime set_schedulerId].
  rewrite E, Ho1, <- Hn1. split; [reflexivity|].
  split; [exact Hrun|]. split; [exact (Hw2 eq_refl) | exact Hkeep].
Qed.

Lemma outcome_tick (c : Q) (w : World) :
  outcome (tick c) w =
  outcome scheduler (after (update_backend (set_currentTime c)) w).
Proof. reflexivity. Qed.

Lemma after_tick (c : Q) (w : World) :
  after (tick c) w =
  after scheduler (after (update_backend (set_currentTime c)) w).
Proof. reflexivity. Qed.

(** The timer runs of a session, up to the first one that throws. *)
Lemma ticks_run (e0 : Engine) (draws : nat -> Q) (clocks : list Q) :
  forall w : World,
    isPlaying (eng w) = true ->
    audioContext (eng w) <> None ->
    on_course e0 draws w ->
    exists os,
      onsetsOf (log (env (after (for_of clocks tick) w))) =
        rev os ++ onsetsOf (log (env w)) /\
      session_runs e0 draws (nextNoteTime (eng w)) clocks os
        (returned (outcome (for_of clocks tick) w)).
Proof.
  induction clocks as [|c clocks IH]; intros w Hp Hctx Hw.
  - exists []. split; [reflexivity | apply runs_end].
  - cbn [for_of].
    rewrite outcome_bind, after_bind, outcome_tick, after_tick.
    set (w0 := after (update_backend (set_currentTime c)) w).
    assert (Hp0 : isPlaying (eng w0) = true) by exact Hp.
    assert (Hctx0 : audioContext (eng w0) <> None) by exact Hctx.
    assert (Hw0 : on_course e0 draws w0) by exact Hw.
    assert (Hc0 : currentTime (env w0) = c) by reflexivity.
    assert (Ho0 : onsetsOf (log (env w0)) = onsetsOf (log (env w)))
      by reflexivity.
    assert (Hn0 : nextNoteTime (eng w0) = nextNoteTime (eng w)) by reflexivity.
    clearbody w0.
    destruct (scheduler_runs e0 draws w0 Hp0 Hctx0 Hw0) as (os & E & Hrun).
    rewrite Hc0, Hn0, Ho0 in *.
    set (w1 := after scheduler w0) in *. clearbody w1.
    destruct (outcome scheduler w0) as [[]|].
    + destruct Hrun as (Hrun & Hw1 & Hp1 & Hctx1).
      destruct (IH w1 Hp1 Hctx1 Hw1) as (rest & E' & Hrest).
      exists (os ++ rest). split.
      * rewrite E', E, rev_app_distr, <- app_assoc. reflexivity.
      * apply (runs_next e0 draws _ c clocks os (nextNoteTime (eng w1)) rest);
          assumption.
    + exists os. split; [exact E|]. cbn [returned].
      destruct Hrun as [-> | Hrun];
        [apply runs_hop_thrown | apply runs_note_thrown, Hrun].
Qed.

(** What [startUp] leaves for the first run of the scheduler. *)
Lemma startUp_course (w : World) :
  outcome startUp w = Ok tt ->
  let w' := after startUp w in
  rescheduled (eng w) (randomSource (env w)) (currentTime (env w))
    (nextNoteTime (eng w')) /\
  on_course (eng w) (randomSource (env w)) w' /\
  currentTime (env w') = currentTime (env w).
Proof.
  intros Hok w'.
  destruct (startUp_steps w) as [w3 [Hst Hcase]].
  destruct Hst as (Sb & Sm & Sp & Sn & Sc & Sr & So).
  destruct Hcase as [[e He] | He].
  { unfold outcome in Hok. rewrite He in Hok. discriminate. }
  destruct (startUp_tail w3) as (_ & Hn & _ & _ & Hb & Hc & Ho).
  assert (Hmr : meanNotesPerBar
                  (eng (after
                     (setInitialTiming ;;
                      update (set_isPlaying true) ;;
                      updateMediaSessionState ;;
                      cb <- this onPlayStateChange ;;
                      if cb : bool then emit (PlayStateChange true)
                      else ret tt) w3)) = meanNotesPerBar (eng w3) /\
                randomSource
                  (env (after
                     (setInitialTiming ;;
                      update (set_isPlaying true) ;;
                      updateMediaSessionState ;;
                      cb <- this onPlayStateChange ;;
                      if cb : bool then emit (PlayStateChange true)
                      else ret tt) w3)) = randomSource (env w3)).
  { clear. destruct w3 as [e b]. destruct e, b.
    unfold after, setInitialTiming, updateMediaSessionState.
    cbn -[quantizeToSixteenth barSeconds lambda Math_max Qplus Qmult Qdiv
          Qopp Qminus].
    destruct_scrutinee;
      cbn -[quantizeToSixteenth barSeconds lambda Math_max Qplus Qmult Qdiv
            Qopp Qminus];
      destruct_scrutinee; split; reflexivity. }
  destruct Hmr as [Hm Hr].
  subst w'. unfold after in *. rewrite He.
  assert (Hq : nextNoteTime
                 (eng (snd ((setInitialTiming ;;
                             update (set_isPlaying true) ;;
                             updateMediaSessionState ;;
                             cb <- this onPlayStateChange ;;
                             if cb : bool then emit (PlayStateChange true)
                             else ret tt) w3))) =
               quantizeToSixteenth (eng w)
                 (currentTime (env w) +
                  Math_max 0.01
                    (- Math_log (1 - randomSource (env w) (randomPos (env w3)))
                     / lambda (eng w)))).
  { rewrite Hn, Sc, Sr, (quantize_same_tempo (eng w3) (eng w)) by exact Sb.
    rewrite (lambda_same (eng w3) (eng w)) by assumption. reflexivity. }
  split; [exists (randomPos (env w3)); exact Hq|].
  split; [|congruence].
  unfold on_course. split; [congruence|]. split; [congruence|].
  split; [congruence|]. rewrite Hq. apply quantize_multiple.
Qed.

(** [startUp] and [stop()] pass no onset to [triggerRandomNote]. *)
Lemma startUp_onsets (w : World) :
  onsetsOf (log (env (after startUp w))) = onsetsOf (log (env w)).
Proof.
  destruct (startUp_steps w) as [w3 [Hst Hcase]].
  destruct Hst as (_ & _ & _ & _ & _ & _ & So).
  destruct Hcase as [[e He] | He]; unfold after; rewrite He.
  - exact So.
  - destruct (startUp_tail w3) as (_ & _ & _ & _ & _ & _ & Ho).
    unfold after in Ho. congruence.
Qed.

Lemma stop_onsets (w : World) :
  onsetsOf (log (env (after stop w))) = onsetsOf (log (env w)).
Proof.
  destruct stop_runs as [_ Hrun]. unfold after. rewrite Hrun.
  cbn [snd env log set_log].
  rewrite onsetsOf_app, (onsetsOf_none (stop_commands (eng w) (env w)))
    by apply stop_commands_quiet.
  reflexivity.
Qed.

(** [start()] on an engine that is not playing, by the outcomes of
    [startUp] and of the first run of the scheduler. *)
Lemma start_unfold (w : World) :
  isPlaying (eng w) = false ->
  match outcome startUp w with
  | Ok _ =>
      match outcome scheduler (after startUp w) with
      | Ok _ =>
          outcome start w = Ok tt /\
          after start w = after scheduler (after startUp w)
      | Throw _ =>
          returned (outcome start w) = false /\
          after start w = after stop (after scheduler (after startUp w))
      end
  | Throw _ =>
      returned (outcome start w) = false /\
      after start w = after stop (after startUp w)
  end.
Proof.
  intros Hp. unfold start.
  rewrite outcome_this, after_this, Hp.
  rewrite outcome_try_catch, after_try_catch, outcome_bind, after_bind.
  destruct (outcome startUp w) as [[]|e].
  - destruct (outcome scheduler (after startUp w)) as [[]|e].
    + split; reflexivity.
    + rewrite outcome_bind, after_bind, outcome_stop. split; reflexivity.
  - rewrite outcome_bind, after_bind, outcome_stop. split; reflexivity.
Qed.

(** C1, as the code has it.  In a session of live playback at a fixed
    positive tempo and a positive rate of notes, on a clock that never
    runs backwards, the onset times passed to [triggerRandomNote] never
    decrease, and every onset is [Math.max(g, c + 0.02)], where [g] is
    the next note time when the note is triggered, a time on the
    sixteenth-note grid, and [c] is the clock reading of the scheduler
    run that triggers it: the onset is the grid time unless that is
    less than 20 ms ahead of the clock, and otherwise 20 ms after the
    clock reading.  The onsets are those of the runs in turn, the first
    run beginning with the note time that [start()] scheduled from its
    clock reading; each run triggers a note and reschedules while the
    next note time is at most 200 ms ahead of its clock reading, at
    most three times.  A session in which a call throws ends there:
    either [start()] fails before it schedules a note, and there is no
    onset, or the runs are those up to the one that throws. *)
Theorem session_onsets (w : World) (clocks : list Q) :
  0 < bpm (eng w) ->
  0 < lambda (eng w) ->
  isPlaying (eng w) = false ->
  onsetsOf (log (env w)) = [] ->
  clock_advances (currentTime (env w)) clocks ->
  let w' := after (session clocks) w in
  let now := currentTime (env w) in
  let ok := returned (outcome (session clocks) w) in
  non_decreasing (onsetTimes w') /\
  ((exists g0,
      rescheduled (eng w) (randomSource (env w)) now g0 /\
      session_runs (eng w) (randomSource (env w)) g0 (now :: clocks)
        (onsetTimes w') ok) \/
   (ok = false /\ onsetTimes w' = [])).
Proof.
  intros Htempo _ Hplay Hons Hadv w' now ok.
  assert (Hinv : session_inv (bpm (eng w)) (currentTime (env w) :: clocks) w').
  { subst w'. unfold session. rewrite after_bind.
    destruct (start_keeps (bpm (eng w)) (currentTime (env w) :: clocks) w
                Htempo eq_refl Hplay Hons (or_introl eq_refl)) as [Hinv1 Hc1].
    destruct (outcome start w); [|exact Hinv1].
    apply ticks_keep; [exact Htempo | exact Hinv1 | rewrite Hc1; exact Hadv |].
    intros c Hc. now right. }
  destruct Hinv as [_ [_ [Hsorted _]]].
  split; [apply non_increasing_rev, Hsorted|].
  subst w' ok. unfold onsetTimes, session. rewrite outcome_bind, after_bind.
  pose proof (start_unfold w Hplay) as Hstart.
  pose proof (startUp_onsets w) as Ho1. rewrite Hons in Ho1.
  destruct (outcome startUp w) as [[]|e1] eqn:H1.
  2:{ destruct Hstart as [Hr Ha]. right.
      destruct (outcome start w); [discriminate Hr|].
      split; [reflexivity|]. rewrite Ha, stop_onsets, Ho1. reflexivity. }
  destruct (startUp_course w H1) as (Hg0 & Hw1 & Hc1).
  destruct (startUp_ok w H1) as [Hp1 Hchain1].
  assert (Hctx1 : audioContext (eng (after startUp w)) <> None)
    by apply Hchain1.
  set (w1 := after startUp w) in *. clearbody w1.
  destruct (scheduler_runs (eng w) (randomSource (env w)) w1 Hp1 Hctx1 Hw1)
    as (os & E & Hrun).
  rewrite Hc1, Ho1, app_nil_r in *. fold now in Hrun.
  left. exists (nextNoteTime (eng w1)). split; [exact Hg0|].
  destruct (outcome scheduler w1) as [[]|e2].
  - destruct Hstart as [Hr Ha]. rewrite Hr, Ha.
    destruct Hrun as (Hrun & Hw2 & Hp2 & Hctx2).
    set (w2 := after scheduler w1) in *. clearbody w2.
    destruct (ticks_run (eng w) (randomSource (env w)) clocks w2 Hp2 Hctx2 Hw2)
      as (rest & E' & Hrest).
    rewrite E', E, <- rev_app_distr, rev_involutive.
    apply (runs_next (eng w) (randomSource (env w)) _ now clocks os
             (nextNoteTime (eng w2)) rest); assumption.
  - destruct Hstart as [Hr Ha].
    destruct (outcome start w); [discriminate Hr|].
    rewrite Ha, stop_onsets, E, rev_involutive. cbn [returned].
    destruct Hrun as [-> | Hrun];
      [apply runs_hop_thrown | apply runs_note_thrown, Hrun].
Qed.

End SessionRuns.

Lemma session_onsets_witness :
  let w := freshWorld 0.32 0 in
  let clocks := [0.37; 0.42; 0.47; 0.52] in
  let w' := after (@session examplePlatform clocks) w in
  let now := currentTime (env w) in
  (0 < bpm (eng w) /\ 0 < @lambda examplePlatform (eng w) /\
   isPlaying (eng w) = false /\ onsetsOf (log (env w)) = [] /\
   clock_advances (currentTime (env w)) clocks /\
   outcome (@session examplePlatform clocks) w = Ok tt) /\
  non_decreasing (@onsetTimes examplePlatform w') /\
  exists g0,
    @rescheduled examplePlatform (eng w) (randomSource (env w)) now g0 /\
    @session_runs examplePlatform (eng w) (randomSource (env w)) g0
      (now :: clocks) (@onsetTimes examplePlatform w') true.
Proof.
  assert (Hb : 0 < bpm (eng (freshWorld 0.32 0))) by (vm_compute; reflexivity).
  assert (Hl : 0 < @lambda examplePlatform (eng (freshWorld 0.32 0)))
    by (vm_compute; reflexivity).
  assert (Hp : isPlaying (eng (freshWorld 0.32 0)) = false)
    by (vm_compute; reflexivity).
  assert (Ho : onsetsOf (log (env (freshWorld 0.32 0))) = [])
    by (vm_compute; reflexivity).
  assert (Hc : clock_advances (currentTime (env (freshWorld 0.32 0)))
                 [0.37; 0.42; 0.47; 0.52]).
  { vm_compute. repeat split; discriminate. }
  assert (Hok : outcome (@session examplePlatform [0.37; 0.42; 0.47; 0.52])
                  (freshWorld 0.32 0) = Ok tt)
    by (vm_compute; reflexivity).
  cbv zeta.
  destruct (@session_onsets examplePlatform (freshWorld 0.32 0)
              [0.37; 0.42; 0.47; 0.52] Hb Hl Hp Ho Hc) as (H1 & H2).
  rewrite Hok in H2. cbn [returned] in H2.
  split.
  - repeat (split; [assumption|]). exact Hok.
  - split; [exact H1|].
    destruct H2 as [H2 | [H2 _]]; [exact H2 | discriminate H2].
Defined.


(* ================================================================= *)
(** * Voices *)

Section Voices.
Context {P : Platform}.

Lemma alive_iff (now : Q) (v : Voice) :
  alive now v = true <-> now - 0.5 <= endTime v.
Proof.
  unfold alive. rewrite negb_true_iff. apply js_lt_false.
Qed.

Lemma filter_alive_twice (now : Q) (vs : list Voice) :
  filter (alive now) (filter (alive now) vs) = filter (alive now) vs.
Proof.
  induction vs as [|v vs IH]; [reflexivity|]. cbn [filter].
  destruct (alive now v) eqn:E; [|exact IH].
  cbn [filter]. now rewrite E, IH.
Qed.

Lemma cleanup_cmds_alive (now : Q) (vs : list Voice) :
  (forall v, In v vs -> alive now v = true) ->
  flat_map (cleanup_cmds now) vs = [].
Proof.
  induction vs as [|v vs IH]; intros H; [reflexivity|].
  cbn [flat_map]. unfold cleanup_cmds at 1.
  rewrite (H v (or_introl eq_refl)). cbn [app].
  apply IH. intros v' Hv'. apply H. now right.
Qed.

(** X14.  [cleanupOldVoices] drops exactly the voices that ended more
    than half a second before the current clock time, disconnecting
    their nodes, and keeps all others in their order: it never drops a
    voice that still sounds.  Without an audio context it does nothing,
    and a second cleanup at the same clock time changes nothing. *)
Theorem cleanupOldVoices_keeps_sounding (w : World) :
  let now := currentTime (env w) in
  let w' := after cleanupOldVoices w in
  outcome cleanupOldVoices w = Ok tt /\
  (audioContext (eng w) = None -> w' = w) /\
  (audioContext (eng w) <> None ->
   voices (eng w') = filter (alive now) (voices (eng w)) /\
   log (env w') =
     flat_map (cleanup_cmds now) (rev (voices (eng w))) ++ log (env w)) /\
  (forall v, In v (voices (eng w)) -> now - 0.5 <= endTime v ->
     In v (voices (eng w'))) /\
  (forall v, In v (voices (eng w')) -> In v (voices (eng w))) /\
  (audioContext (eng w) <> None ->
   forall v, In v (voices (eng w)) -> endTime v < now - 0.5 ->
     ~ In v (voices (eng w')) /\
     (forall n, oscillator v = Some n -> In (Disconnect n) (log (env w'))) /\
     (forall n, gainNode v = Some n -> In (Disconnect n) (log (env w')))) /\
  cleanupOldVoices w' = (Ok tt, w').
Proof.
  cbv zeta. destruct (audioContext (eng w)) as [ctx|] eqn:Hctx.
  2:{ assert (Hrun : cleanupOldVoices w = (Ok tt, w))
        by (unfold cleanupOldVoices; cbn [bind this]; now rewrite Hctx).
      unfold after, outcome. rewrite Hrun. cbn [fst snd].
      repeat split; try congruence; tauto. }
  pose proof (cleanupOldVoices_run w ctx Hctx) as Hrun.
  unfold after, outcome. rewrite Hrun. cbn [fst snd eng env voices set_voices
                                             log set_log].
  split; [reflexivity|]. split; [discriminate|]. split; [split; reflexivity|].
  split; [|split; [|split]].
  - intros v Hin Hle. apply filter_In. split; [exact Hin|].
    now apply alive_iff.
  - intros v Hin. apply filter_In in Hin. apply Hin.
  - intros _ v Hin Hlt.
    assert (Hdead : alive (currentTime (env w)) v = false).
    { destruct (alive (currentTime (env w)) v) eqn:E; [|reflexivity].
      apply alive_iff in E. lra. }
    split; [|split].
    + intros Hin'. apply filter_In in Hin'. destruct Hin' as [_ E]. congruence.
    + intros n Hn. apply in_or_app. left. apply in_flat_map.
      exists v. split; [now apply in_rev in Hin|].
      unfold cleanup_cmds. rewrite Hdead, Hn. apply in_or_app. right. now left.
    + intros n Hn. apply in_or_app. left. apply in_flat_map.
      exists v. split; [now apply in_rev in Hin|].
      unfold cleanup_cmds. rewrite Hdead, Hn. apply in_or_app. left. now left.
  - match goal with
    | |- cleanupOldVoices ?w1 = _ =>
        rewrite (cleanupOldVoices_run w1 ctx Hctx)
    end.
    cbn [eng env voices set_voices log set_log currentTime].
    rewrite filter_alive_twice, cleanup_cmds_alive; [reflexivity|].
    intros v Hv. apply in_rev in Hv. apply filter_In in Hv. apply Hv.
Qed.

End Voices.

(* ================================================================= *)
(** * The choice of a note *)

Section NoteChoice.
Context {P : Platform}.

Lemma floor_four (u : Q) :
  0 <= u -> u < 1 ->
  0 <= Math_floor (u * (OCTAVE_MAX - OCTAVE_MIN + 1)) /\
  Math_floor (u * (OCTAVE_MAX - OCTAVE_MIN + 1)) <= 3.
Proof.
  intros H0 H1. unfold Math_floor, OCTAVE_MAX, OCTAVE_MIN.
  set (x := u * (7 - 4 + 1)).
  assert (Hx0 : 0 <= x) by (unfold x; lra).
  assert (Hx4 : x < 4) by (unfold x; lra).
  pose proof (Qfloor_le x) as Hle. pose proof (Qlt_floor x) as Hlt.
  assert (Hlo : (0 <= Qfloor x)%Z).
  { apply Z.lt_succ_r. rewrite Zlt_Qlt. change (0 < inject_Z (Z.succ (Qfloor x))).
    unfold Z.succ. lra. }
  assert (Hhi : (Qfloor x <= 3)%Z).
  { apply Z.lt_succ_r. rewrite Zlt_Qlt.
    change (inject_Z (Z.succ 3)) with 4. lra. }
  split.
  - change 0 with (inject_Z 0). now rewrite <- Zle_Qle.
  - change 3 with (inject_Z 3). now rewrite <- Zle_Qle.
Qed.

(** X15.  With a non-empty set of active pitch classes and draws of
    [Math.random()] in [0, 1), [triggerRandomNote] makes exactly three
    draws and triggers one note: its pitch class is a member of the
    active set, its octave is a whole number from 4 to 7, and its
    duration is at least half of [maxNoteDuration] and at most
    [maxNoteDuration]; the [onNoteTriggered] callback, if installed,
    is then called with the pitch class. *)
Theorem triggerRandomNote_choice (w : World) (whenTime : Q) :
  activePitchClasses (eng w) <> [] ->
  (forall k, 0 <= randomSource (env w) k /\ randomSource (env w) k < 1) ->
  0 < maxNoteDuration (synthParams (eng w)) ->
  let pcs := activePitchClasses (eng w) in
  let k := randomPos (env w) in
  let u1 := randomSource (env w) k in
  let u2 := randomSource (env w) (S k) in
  let u3 := randomSource (env w) (S (S k)) in
  let octave := OCTAVE_MIN + Math_floor (u2 * (OCTAVE_MAX - OCTAVE_MIN + 1)) in
  let duration := maxNoteDuration (synthParams (eng w)) * (0.5 + u3 * 0.5) in
  exists pitchClass,
    js_index pcs (random_index u1 (js_length pcs)) = Some pitchClass /\
    In pitchClass pcs /\
    (exists n : Z, (4 <= n <= 7)%Z /\ octave == inject_Z n) /\
    maxNoteDuration (synthParams (eng w)) / 2 <= duration /\
    duration <= maxNoteDuration (synthParams (eng w)) /\
    triggerRandomNote whenTime w =
    (triggerNote (midiToFreq (octave * 12 + inject_Z pitchClass))
       whenTime duration ;;
     cb <- this onNoteTriggered ;;
     if cb : bool then emit (NoteTriggered pitchClass) else ret tt)
      {| eng := eng w; env := set_randomPos (3 + k)%nat (env w) |}.
Proof.
  intros Hne Hu Hmax pcs k u1 u2 u3 octave duration.
  destruct (Hu k) as [H10 H11]. destruct (Hu (S k)) as [H20 H21].
  destruct (Hu (S (S k))) as [H30 H31].
  assert (Hlen : (0 < List.length pcs)%nat).
  { subst pcs. destruct (activePitchClasses (eng w)); [congruence | cbn; lia]. }
  pose proof (random_index_range u1 (List.length pcs) H10 H11 Hlen) as Hidx.
  destruct (js_index_Some pcs _ Hidx) as (pc & Hpc & Hin).
  exists pc. split; [exact Hpc|]. split; [exact Hin|].
  split; [|split; [|split]].
  - destruct (floor_four u2 H20 H21) as [Hf0 Hf3].
    exists (4 + Qfloor (u2 * (OCTAVE_MAX - OCTAVE_MIN + 1)))%Z. split.
    + unfold Math_floor in Hf0, Hf3.
      change 0 with (inject_Z 0) in Hf0. change 3 with (inject_Z 3) in Hf3.
      rewrite <- Zle_Qle in Hf0, Hf3. lia.
    + unfold octave, Math_floor, OCTAVE_MIN. now rewrite inject_Z_plus.
  - assert (0 <= maxNoteDuration (synthParams (eng w)) * u3)
      by (apply Qmult_le_0_compat; [apply Qlt_le_weak, Hmax | exact H30]).
    unfold duration. qlra.
  - assert (maxNoteDuration (synthParams (eng w)) * u3
            < maxNoteDuration (synthParams (eng w)) * 1)
      by (apply Qmult_lt_l; [exact Hmax | exact H31]).
    unfold duration. qlra.
  - unfold triggerRandomNote. cbn [bind this].
    assert (E0 : (List.length (activePitchClasses (eng w)) =? 0)%nat = false).
    { apply Nat.eqb_neq. fold pcs. lia. }
    rewrite E0. unfold Math_random at 1. cbn [bind draw eng env].
    fold pcs k u1. unfold js_length in Hpc |- *. rewrite Hpc.
    reflexivity.
Qed.

End NoteChoice.

(* ================================================================= *)
(** * The levels of the delay effect *)

Section DelayLevels.
Context {P : Platform}.

(** A command that was sent stays in the log. *)
Ltac sent_leaf :=
  let H := fresh "H" in
  intro H; first [ exact H | right; exact H ].

Lemma sent_createFilters c count type frequency resonance w :
  keeps (fun w => In c (log (env w)))
    (createFilters count type frequency resonance) w.
Proof.
  revert w. induction count as [|k IH]; intro w; cbn [createFilters];
    keep sent_leaf.
Qed.
#[local] Hint Extern 0 (keeps _ (createFilters _ _ _ _) _) =>
  apply sent_createFilters : keeps.

Lemma sent_connectCascade c filters w :
  keeps (fun w => In c (log (env w))) (connectCascade filters) w.
Proof.
  revert w. induction filters as [|a [|b rest] IH]; intro w;
    cbn [connectCascade]; keep sent_leaf.
Qed.
#[local] Hint Extern 0 (keeps _ (connectCascade _) _) =>
  apply sent_connectCascade : keeps.

Lemma sent_updateDelayFilters c type frequency resonance order w :
  keeps (fun w => In c (log (env w)))
    (updateDelayFilters type frequency resonance order) w.
Proof.
  unfold updateDelayFilters, recreateDelayFilterChain, connectFilters.
  keep sent_leaf.
Qed.

(** The backend after a delay update is the one [updateDelayParams]
    leaves on the engine with the merged parameters. *)
Lemma setSynthParams_delay_env (p : PartialSynthParams) (d : DelayParams)
    (w : World) :
  p_delay p = Some d ->
  env (after (setSynthParams p) w) =
  env (after updateDelayParams
         {| eng := set_synthParams
                     (merge_params
                        {| p_envelope := p_envelope p; p_vibrato := p_vibrato p;
                           p_tremolo := p_tremolo p; p_delay := p_delay p;
                           p_maxNoteDuration := None |}
                        (synthParams (eng w))) (eng w);
            env := env w |}).
Proof.
  intros Hd. unfold setSynthParams, merge_params, after.
  destruct p as [pe pv pt pd pm].
  cbn [p_envelope p_vibrato p_tremolo p_delay p_maxNoteDuration] in *.
  subst pd. destruct w as [e b].
  destruct pe, pv, pt;
    cbn [when_some bind update ret eng env];
    match goal with
    | |- _ = env (snd (updateDelayParams ?W0)) =>
        match goal with
        | |- context [match updateDelayParams ?W with _ => _ end] =>
            change W with W0
        end;
        destruct (updateDelayParams W0) as [[[] | err] w2]
    end;
    destruct pm; reflexivity.
Qed.

(** X16.  A delay update on an engine whose effect chain is built
    retargets the feedback gain to [min(feedback, 0.95)], the wet gain
    to [mix] and the dry gain to [1 - mix], and the delay time to the
    musical duration at the current tempo, all at the current clock
    time with a 50 ms time constant.  The feedback level never exceeds
    0.95, dry and wet levels sum to one, and with the delay disabled
    feedback and wet level are 0 and the dry level is 1. *)
Theorem setSynthParams_delay_levels (p : PartialSynthParams) (d : DelayParams)
    (w : World) ctx dn fb dry wet :
  audioContext (eng w) = Some ctx ->
  delayNode (eng w) = Some dn ->
  delayFeedbackGain (eng w) = Some fb ->
  delayDryGain (eng w) = Some dry ->
  delayWetGain (eng w) = Some wet ->
  p_delay p = Some d ->
  let now := currentTime (env w) in
  let wetLevel := if enabled d then mix d else 0 in
  let feedbackLevel := if enabled d then Math_min (feedback d) 0.95 else 0 in
  let sent := log (env (after (setSynthParams p) w)) in
  In (SetTargetAtTime fb gain_param feedbackLevel now 0.05) sent /\
  In (SetTargetAtTime dry gain_param (1 - wetLevel) now 0.05) sent /\
  In (SetTargetAtTime wet gain_param wetLevel now 0.05) sent /\
  In (SetTargetAtTime dn delayTime_param
        (musicalDurationToSeconds (duration d) (bpm (eng w))) now 0.05) sent /\
  feedbackLevel <= 0.95 /\
  (1 - wetLevel) + wetLevel == 1 /\
  (enabled d = false -> feedbackLevel = 0 /\ wetLevel = 0 /\ 1 - wetLevel == 1).
Proof.
  intros Hctx Hdn Hfb Hdry Hwet Hd now wetLevel feedbackLevel sent.
  assert (Hsent : forall c,
             In c (delay_param_cmds
                     (set_synthParams
                        (merge_params
                           {| p_envelope := p_envelope p;
                              p_vibrato := p_vibrato p;
                              p_tremolo := p_tremolo p; p_delay := p_delay p;
                              p_maxNoteDuration := None |}
                           (synthParams (eng w))) (eng w)) now) ->
             In c sent).
  { intros c Hc. subst sent. rewrite (setSynthParams_delay_env p d w Hd).
    unfold after. rewrite (updateDelayParams_run _ ctx) by exact Hctx.
    cbv zeta. apply sent_updateDelayFilters.
    cbn [logged env log set_log eng]. apply in_or_app. left. exact Hc. }
  assert (Hdelay : delay (merge_params
                     {| p_envelope := p_envelope p; p_vibrato := p_vibrato p;
                        p_tremolo := p_tremolo p; p_delay := p_delay p;
                        p_maxNoteDuration := None |} (synthParams (eng w))) = d)
    by (apply delay_merge_params; exact Hd).
  unfold delay_param_cmds in Hsent.
  cbn [synthParams set_synthParams delayDryGain delayWetGain delayFeedbackGain
       delayNode bpm] in Hsent.
  rewrite Hdelay, Hdn, Hfb, Hdry, Hwet in Hsent.
  split; [apply Hsent; cbn; tauto|]. split; [apply Hsent; cbn; tauto|].
  split; [apply Hsent; cbn; tauto|]. split; [apply Hsent; cbn; tauto|].
  subst feedbackLevel wetLevel. split; [|split].
  - destruct (enabled d); [|discriminate].
    destruct (Math_min_spec (feedback d) 0.95) as [[H ->] | [_ ->]];
      [exact H | discriminate].
  - ring.
  - intros ->. repeat split.
Qed.

End DelayLevels.

(* ================================================================= *)
(** * Note rate and delay time *)

Section Rates.
Context {P : Platform}.

(** X17.  [setLambda(m)] stores the mean number of notes per bar and
    changes nothing else; at a positive tempo the rate [lambda] of the
    exponential delays is then [m * bpm / 240] notes per second, that
    is [m] notes per bar whatever the tempo. *)
Theorem setLambda_rate (w : World) (m : Q) :
  0 < bpm (eng w) ->
  let w' := after (setLambda m) w in
  outcome (setLambda m) w = Ok tt /\
  eng w' = set_meanNotesPerBar m (eng w) /\
  env w' = env w /\
  lambda (eng w') * barSeconds (eng w') == m /\
  lambda (eng w') == m * bpm (eng w) / 240.
Proof.
  intros Hb. cbv zeta. unfold after, outcome, setLambda.
  cbn [fst snd update eng env]. repeat split.
  - unfold lambda, barSeconds. cbn [meanNotesPerBar bpm set_meanNotesPerBar].
    field; repeat split; lra.
  - unfold lambda, barSeconds. cbn [meanNotesPerBar bpm set_meanNotesPerBar].
    field; repeat split; lra.
Qed.

Lemma whole_note_seconds (tempo : Q) :
  0 < tempo -> musicalDurationToSeconds "1/1" tempo == 240 / tempo.
Proof.
  intros Ht. pose proof (beat_pos tempo Ht). duration_value.
  cbn [String.eqb Ascii.eqb Bool.eqb]. field; repeat split; lra.
Qed.

(** X18.  [createDelayEffect] creates the delay node with a maximal
    delay of 5 seconds and sets its delay time to the musical duration
    at the current tempo.  For a whole note that is [240 / bpm]
    seconds, which is more than the 5 seconds of the node whenever the
    tempo is below 48, as it is at the default tempo of 45. *)
Theorem createDelayEffect_delay_time (w : World) ctx mg :
  audioContext (eng w) = Some ctx ->
  masterGain (eng w) = Some mg ->
  0 < bpm (eng w) ->
  let d := delay (synthParams (eng w)) in
  let n := nextNodeId (env w) in
  let w' := after createDelayEffect w in
  let seconds := musicalDurationToSeconds (duration d) (bpm (eng w)) in
  delayNode (eng w') = Some n /\
  In (CreateDelay n 5.0) (log (env w')) /\
  In (SetValue n delayTime_param seconds) (log (env w')) /\
  (duration d = "1/1"%string ->
   seconds == 240 / bpm (eng w) /\
   (5 < seconds <-> bpm (eng w) < 48)) /\
  5 < musicalDurationToSeconds "1/1" DEFAULT_BPM.
Proof.
  intros Hctx Hmg Hb d n w' seconds. subst w'. unfold after.
  rewrite (createDelayEffect_run w ctx mg Hctx Hmg). cbv zeta.
  cbn [snd eng env log set_log delayNode set_delayFilters set_delayInputGain
       set_delayWetGain set_delayDryGain set_delayFeedbackGain set_delayNode].
  split; [reflexivity|].
  assert (Hin : forall c,
             In c [ SetValue n delayTime_param seconds; CreateDelay n 5.0 ] ->
             In c (delay_effect_cmds (eng w) mg n ++ log (env w))).
  { intros c Hc. apply in_or_app. left. unfold delay_effect_cmds.
    apply in_or_app. right. apply in_or_app. right.
    cbn in Hc |- *. tauto. }
  split; [apply Hin; cbn; tauto|]. split; [apply Hin; cbn; tauto|].
  split.
  - intros Hd. subst seconds. rewrite Hd.
    pose proof (whole_note_seconds (bpm (eng w)) Hb) as Hs.
    split; [exact Hs|]. rewrite Hs. split; intros H.
    + apply (Qmult_lt_r _ _ (bpm (eng w)) Hb) in H.
      assert (E : 240 / bpm (eng w) * bpm (eng w) == 240) by (field; lra).
      rewrite E in H. lra.
    + apply Qlt_shift_div_l; [exact Hb | lra].
  - reflexivity.
Qed.

End Rates.

(* ================================================================= *)
(** * What can throw *)

Section Runs.
Context {P : Platform}.
Variable I : World -> Prop.

Lemma runs_keeps {A} (c : M A) w : runs I c w -> keeps I c w.
Proof. intros H HI. apply H, HI. Qed.

Lemma runs_ret {A} (a : A) w : runs I (ret a) w.
Proof. intro H. split; [exact H | now exists a]. Qed.

Lemma runs_this {A} (f : Engine -> A) w : runs I (this f) w.
Proof. intro H. split; [exact H | eexists; reflexivity]. Qed.

Lemma runs_backend {A} (f : Backend -> A) w : runs I (backend f) w.
Proof. intro H. split; [exact H | eexists; reflexivity]. Qed.

Lemma runs_bind {A B} (c : M A) (k : A -> M B) w :
  runs I c w -> (forall a w1, runs I (k a) w1) -> runs I (bind c k) w.
Proof.
  intros Hc Hk H. destruct (Hc H) as [H1 [a Ha]].
  rewrite after_bind, outcome_bind, Ha. apply Hk, H1.
Qed.

Lemma runs_bind_this {A B} (f : Engine -> A) (k : A -> M B) w :
  runs I (k (f (eng w))) w -> runs I (bind (this f) k) w.
Proof. intro H. exact H. Qed.

Lemma runs_bind_backend {A B} (f : Backend -> A) (k : A -> M B) w :
  runs I (k (f (env w))) w -> runs I (bind (backend f) k) w.
Proof. intro H. exact H. Qed.

Lemma runs_bind_run {A B} (c : M A) (k : A -> M B) w a w1 :
  c w = (Ok a, w1) -> (I w -> I w1) -> runs I (k a) w1 -> runs I (bind c k) w.
Proof.
  intros Hrun HI Hk H. rewrite after_bind, outcome_bind.
  assert (Ho : outcome c w = Ok a) by (unfold outcome; now rewrite Hrun).
  assert (Ha : after c w = w1) by (unfold after; now rewrite Hrun).
  rewrite Ho, Ha. apply Hk, HI, H.
Qed.

Lemma runs_try_catch {A} (c : M A) (h : string -> M A) w :
  keeps I c w -> (forall e w1, runs I (h e) w1) -> runs I (try_catch c h) w.
Proof.
  intros Hc Hh H. rewrite after_try_catch, outcome_try_catch.
  destruct (outcome c w) as [a|e].
  - split; [apply Hc, H | now exists a].
  - apply Hh, Hc, H.
Qed.

Lemma runs_when_some {A} (x : option A) (f : A -> M unit) w :
  (forall a, runs I (f a) w) -> runs I (when_some x f) w.
Proof. intros Hf. destruct x; [apply Hf | apply runs_ret]. Qed.

Lemma runs_for_of {A} (l : list A) (f : A -> M unit) :
  (forall a w, runs I (f a) w) -> forall w, runs I (for_of l f) w.
Proof.
  intros Hf. induction l as [|x l IH]; intro w; cbn [for_of].
  - apply runs_ret.
  - apply runs_bind; [apply Hf | intros _ w1; apply IH].
Qed.

End Runs.

Ltac run_step leaf :=
  lazymatch goal with
  | |- runs _ (bind (this _) _) _ => apply runs_bind_this; cbv beta
  | |- runs _ (bind (backend _) _) _ => apply runs_bind_backend; cbv beta
  | |- runs _ (bind _ _) _ => apply runs_bind; [ | intros ? ? ]
  | |- runs _ (ret _) _ => apply runs_ret
  | |- runs _ (this _) _ => apply runs_this
  | |- runs _ (backend _) _ => apply runs_backend
  | |- runs _ (when_some _ _) _ => apply runs_when_some; intro
  | |- runs _ (for_of _ _) _ => apply runs_for_of; intros ? ?
  | |- runs _ (try_catch _ _) _ => apply runs_try_catch; [ | intros ? ? ]
  | |- runs _ (update _) _ => leaf
  | |- runs _ (update_backend _) _ => leaf
  | |- runs _ (emit _) _ => leaf
  | |- runs _ Math_random _ => leaf
  | |- runs _ (new_node _) _ => unfold new_node
  | |- runs _ (setTargetAtTime _ _ _ _) _ => unfold setTargetAtTime
  | |- runs _ (releaseNode _ _) _ => unfold releaseNode
  | |- runs _ (match ?x with _ => _ end) _ => destruct x
  | |- runs _ (let _ := _ in _) _ => cbv zeta
  end.

Create HintDb runs discriminated.

Ltac same_leaf := let H := fresh "H" in intro H; exact H.

Ltac run leaf :=
  repeat first [ solve [auto with runs] | run_step leaf | keep_step same_leaf ].

(** The leaves of [playable]: no assignment but that of the graph
    touches what it reads. *)
Ltac playable_leaf :=
  let H := fresh "H" in
  intro H; split; [ exact H | eexists; reflexivity ].

Section GraphInvariants.
Context {P : Platform}.
Variable J : PcsRelationGraph -> (nat -> Q) -> Prop.

Lemma gi_createFilters count type frequency resonance w :
  runs (graph_inv J) (createFilters count type frequency resonance) w.
Proof.
  revert w. induction count as [|k IH]; intro w; cbn [createFilters];
    run playable_leaf.
Qed.
#[local] Hint Extern 0 (runs _ (createFilters _ _ _ _) _) =>
  apply gi_createFilters : runs.

Lemma gi_connectCascade filters w : runs (graph_inv J) (connectCascade filters) w.
Proof.
  revert w. induction filters as [|a [|b rest] IH]; intro w;
    cbn [connectCascade]; run playable_leaf.
Qed.
#[local] Hint Extern 0 (runs _ (connectCascade _) _) =>
  apply gi_connectCascade : runs.

Lemma gi_connectFilters dn fb wet w :
  runs (graph_inv J) (connectFilters dn fb wet) w.
Proof. unfold connectFilters. run playable_leaf. Qed.
#[local] Hint Extern 0 (runs _ (connectFilters _ _ _) _) =>
  apply gi_connectFilters : runs.

Lemma gi_updateDelayParams w : runs (graph_inv J) updateDelayParams w.
Proof.
  unfold updateDelayParams, updateDelayFilters, recreateDelayFilterChain.
  run playable_leaf.
Qed.
#[local] Hint Extern 0 (runs _ updateDelayParams _) =>
  apply gi_updateDelayParams : runs.

Lemma gi_setSynthParams p w : runs (graph_inv J) (setSynthParams p) w.
Proof. unfold setSynthParams. run playable_leaf. Qed.

Lemma gi_createDelayEffect w : runs (graph_inv J) createDelayEffect w.
Proof. unfold createDelayEffect. run playable_leaf. Qed.
#[local] Hint Extern 0 (runs _ createDelayEffect _) =>
  apply gi_createDelayEffect : runs.

Lemma gi_createSimpleReverb w : runs (graph_inv J) createSimpleReverb w.
Proof. unfold createSimpleReverb. run playable_leaf. Qed.
#[local] Hint Extern 0 (runs _ createSimpleReverb _) =>
  apply gi_createSimpleReverb : runs.

Lemma gi_createDelayMixNode w : runs (graph_inv J) createDelayMixNode w.
Proof. unfold createDelayMixNode. run playable_leaf. Qed.
#[local] Hint Extern 0 (runs _ createDelayMixNode _) =>
  apply gi_createDelayMixNode : runs.

Lemma gi_buildAudioChain w : runs (graph_inv J) buildAudioChain w.
Proof. unfold buildAudioChain. run playable_leaf. Qed.
#[local] Hint Extern 0 (runs _ buildAudioChain _) =>
  apply gi_buildAudioChain : runs.

Lemma gi_scheduleNextNote t w : runs (graph_inv J) (scheduleNextNote t) w.
Proof. unfold scheduleNextNote, generateExponentialDelay. run playable_leaf. Qed.
#[local] Hint Extern 0 (runs _ (scheduleNextNote _) _) =>
  apply gi_scheduleNextNote : runs.

Lemma gi_updateMediaSessionState w : runs (graph_inv J) updateMediaSessionState w.
Proof. unfold updateMediaSessionState. run playable_leaf. Qed.
#[local] Hint Extern 0 (runs _ updateMediaSessionState _) =>
  apply gi_updateMediaSessionState : runs.

Lemma gi_filterVoices now vs w : runs (graph_inv J) (filterVoices now vs) w.
Proof.
  revert w. induction vs as [|v vs IH]; intro w; cbn [filterVoices];
    unfold keepVoice; run playable_leaf.
Qed.
#[local] Hint Extern 0 (runs _ (filterVoices _ _) _) =>
  apply gi_filterVoices : runs.

Lemma gi_triggerNote f t d w : runs (graph_inv J) (triggerNote f t d) w.
Proof.
  unfold triggerNote, cleanupOldVoices, limitVoices, evictOldest, silenceVoice,
    synthesizeVoice.
  run playable_leaf.
Qed.
#[local] Hint Extern 0 (runs _ (triggerNote _ _ _) _) =>
  apply gi_triggerNote : runs.

Lemma gi_stop w : runs (graph_inv J) stop w.
Proof. unfold stop, silenceVoice. run playable_leaf. Qed.
#[local] Hint Extern 0 (runs _ stop _) => apply gi_stop : runs.

End GraphInvariants.

Section Playable.
Context {P : Platform}.

#[local] Hint Extern 0 (runs _ (scheduleNextNote _) _) =>
  apply gi_scheduleNextNote : runs.
#[local] Hint Extern 0 (runs _ (triggerNote _ _ _) _) =>
  apply gi_triggerNote : runs.

Lemma advance_ok (g : PcsRelationGraph) (b : Backend) :
  nodes g <> [] -> well_formed g -> valid_index g ->
  0 <= randomSource b (randomPos b) -> randomSource b (randomPos b) < 1 ->
  exists g',
    advance g b = (Ok g', snd (draw b)) /\
    nodes g' = nodes g /\ adjacency g' = adjacency g /\ valid_index g'.
Proof.
  intros Hne [Hlen Hadj] [i [Hci Hi]] Hlo Hhi.
  assert (Hn : (0 < List.length (nodes g))%nat).
  { destruct (nodes g); [contradiction | cbn; lia]. }
  destruct (js_index_Some (adjacency g) i) as [neighbors [Hnb Hin]];
    [rewrite Hlen; exact Hi|].
  unfold advance. rewrite Hci, Hnb.
  destruct (List.length (nodes g) =? 0)%nat eqn:E0;
    [apply Nat.eqb_eq in E0; lia|].
  destruct (0 <? List.length neighbors)%nat eqn:E1.
  - apply Nat.ltb_lt in E1. cbn [draw fst snd].
    destruct (js_index_Some neighbors
                (random_index (randomSource b (randomPos b))
                   (js_length neighbors)))
      as [j [Hj Hjin]]; [apply random_index_range; assumption|].
    eexists. split; [reflexivity|]. split; [reflexivity|].
    split; [reflexivity|]. rewrite Hj. apply valid_index_set.
    eapply Hadj; eassumption.
  - cbn [draw fst snd]. eexists. split; [reflexivity|].
    split; [reflexivity|]. split; [reflexivity|].
    apply valid_index_set, random_index_range; assumption.
Qed.

Lemma Math_random_run (w : World) :
  Math_random w =
  (Ok (randomSource (env w) (randomPos (env w))),
   {| eng := eng w; env := set_randomPos (S (randomPos (env w))) (env w) |}).
Proof. reflexivity. Qed.

Lemma pl_pcsGraph_advance w : runs playable pcsGraph_advance w.
Proof.
  intros (Hne & Hwf & Hvi & Hu).
  destruct (Hu (randomPos (env w))) as [Hlo Hhi].
  destruct (advance_ok _ (env w) Hne Hwf Hvi Hlo Hhi)
    as (g' & Hrun & Hn & Ha & Hv).
  unfold after, outcome, pcsGraph_advance. rewrite Hrun. cbn [fst snd].
  split; [|now exists tt].
  unfold playable, graph_inv, playable_graph. cbn [eng env pcsGraph set_pcsGraph draw snd randomSource
                        set_randomPos].
  split; [now rewrite Hn|]. split; [|split; [exact Hv | exact Hu]].
  destruct Hwf as [Hlen Hadj]. unfold well_formed. rewrite Hn, Ha.
  split; assumption.
Qed.
#[local] Hint Extern 0 (runs _ pcsGraph_advance _) =>
  apply pl_pcsGraph_advance : runs.

Lemma current_valid (g : PcsRelationGraph) :
  valid_index g -> exists pcs, current g = Some pcs.
Proof.
  intros [i [Hci Hi]]. unfold current. rewrite Hci.
  destruct (js_index_Some (nodes g) i Hi) as [pcs [Hp _]]. now exists pcs.
Qed.

Lemma pl_refreshPitchClasses w : runs playable refreshPitchClasses w.
Proof.
  intros H. pose proof H as (_ & _ & Hvi & _).
  destruct (current_valid _ Hvi) as [pcs Hpcs].
  revert H. unfold refreshPitchClasses. apply runs_bind_this. rewrite Hpcs.
  run playable_leaf.
Qed.
#[local] Hint Extern 0 (runs _ refreshPitchClasses _) =>
  apply pl_refreshPitchClasses : runs.

Lemma pl_triggerRandomNote t w : runs playable (triggerRandomNote t) w.
Proof.
  intros H. pose proof H as (_ & _ & _ & Hu).
  destruct (Hu (randomPos (env w))) as [Hlo Hhi].
  revert H. unfold triggerRandomNote. apply runs_bind_this.
  destruct (List.length (activePitchClasses (eng w)) =? 0)%nat eqn:E0;
    [apply runs_ret|].
  apply Nat.eqb_neq in E0.
  assert (Hlen : (0 < List.length (activePitchClasses (eng w)))%nat) by lia.
  destruct (js_index_Some (activePitchClasses (eng w)) _
              (random_index_range _ _ Hlo Hhi Hlen)) as [pc [Hpc _]].
  apply (runs_bind_run _ _ _ _ _ _ (Math_random_run w));
    [intro H; exact H|].
  unfold js_length. rewrite Hpc. run playable_leaf.
Qed.
#[local] Hint Extern 0 (runs _ (triggerRandomNote _) _) =>
  apply pl_triggerRandomNote : runs.

Lemma pl_noteLoop n c la w : runs playable (noteLoop n c la) w.
Proof.
  revert w. induction n as [|k IH]; intro w; cbn [noteLoop];
    run playable_leaf.
Qed.
#[local] Hint Extern 0 (runs _ (noteLoop _ _ _) _) =>
  apply pl_noteLoop : runs.

Lemma pl_scheduler w : runs playable scheduler w.
Proof. unfold scheduler, setTimeout. run playable_leaf. Qed.
#[local] Hint Extern 0 (runs _ scheduler _) => apply pl_scheduler : runs.

End Playable.

Section CanThrow.
Context {P : Platform}.

#[local] Hint Extern 0 (runs _ buildAudioChain _) =>
  apply gi_buildAudioChain : runs.
#[local] Hint Extern 0 (runs _ (scheduleNextNote _) _) =>
  apply gi_scheduleNextNote : runs.
#[local] Hint Extern 0 (runs _ updateMediaSessionState _) =>
  apply gi_updateMediaSessionState : runs.
#[local] Hint Extern 0 (runs _ refreshPitchClasses _) =>
  apply pl_refreshPitchClasses : runs.

(** An exception of [acquireContext] is the one [new AudioContext()]
    threw, or the one [resume()] rejected with. *)
Lemma acquireContext_errors (w : World) (e : string) :
  outcome acquireContext w = Throw e ->
  (audioContext (eng w) = None /\ contextError (env w) = Some e) \/
  (contextState (env w) = suspended /\ resumeError (env w) = Some e).
Proof.
  rewrite acquireContext_outcome.
  destruct (audioContext (eng w)), (contextError (env w)),
    (contextState (env w)), (resumeError (env w));
    intros H; inversion H; subst; auto.
Qed.

Lemma gi_acquireContext J (w : World) : keeps (graph_inv J) acquireContext w.
Proof. unfold acquireContext. keep same_leaf. Qed.

(** [startUp] is the acquisition of the context followed by the rest
    of the body of [start()]. *)
Lemma outcome_startUp (w : World) :
  outcome startUp w =
  match outcome acquireContext w with
  | Ok _ =>
      outcome
        (buildAudioChain ;;
         refreshPitchClasses ;;
         setInitialTiming ;;
         update (set_isPlaying true) ;;
         updateMediaSessionState ;;
         cb <- this onPlayStateChange ;;
         if cb : bool then emit (PlayStateChange true) else ret tt)
        (after acquireContext w)
  | Throw e => Throw e
  end.
Proof. unfold startUp. apply outcome_bind. Qed.

Lemma after_startUp (w : World) :
  after startUp w =
  match outcome acquireContext w with
  | Ok _ =>
      after
        (buildAudioChain ;;
         refreshPitchClasses ;;
         setInitialTiming ;;
         update (set_isPlaying true) ;;
         updateMediaSessionState ;;
         cb <- this onPlayStateChange ;;
         if cb : bool then emit (PlayStateChange true) else ret tt)
        (after acquireContext w)
  | Throw _ => after acquireContext w
  end.
Proof. unfold startUp. apply after_bind. Qed.

Lemma pl_startUp_rest (w : World) :
  runs playable
    (buildAudioChain ;;
     refreshPitchClasses ;;
     setInitialTiming ;;
     update (set_isPlaying true) ;;
     updateMediaSessionState ;;
     cb <- this onPlayStateChange ;;
     if cb : bool then emit (PlayStateChange true) else ret tt) w.
Proof. unfold setInitialTiming. run playable_leaf. Qed.

Lemma outcome_unit (c : M unit) (w : World) :
  (exists a, outcome c w = Ok a) -> outcome c w = Ok tt.
Proof. intros [[] H]. exact H. Qed.

(** How [start()] ends on a playable engine that is not playing. *)
Lemma start_playable (w : World) :
  playable w -> isPlaying (eng w) = false ->
  playable (after start w) /\
  match outcome acquireContext w with
  | Ok _ => outcome start w = Ok tt
  | Throw e => outcome start w = Throw e
  end.
Proof.
  intros Hpl Hp. unfold start.
  rewrite outcome_this, after_this, Hp.
  rewrite outcome_try_catch, after_try_catch, outcome_bind, after_bind.
  rewrite outcome_startUp, after_startUp.
  pose proof (gi_acquireContext _ w Hpl) as H1.
  destruct (outcome acquireContext w) as [a|e].
  - destruct (pl_startUp_rest _ H1) as [H2 Ho2].
    rewrite (outcome_unit _ _ Ho2).
    destruct (pl_scheduler _ H2) as [H3 Ho3].
    rewrite (outcome_unit _ _ Ho3). split; [exact H3 | reflexivity].
  - rewrite outcome_bind, after_bind, outcome_stop.
    split; [|reflexivity]. apply (gi_stop _ _ H1).
Qed.

(** X19.  On a graph with at least one node, well-formed adjacency
    data and a valid current index, and with every draw of
    [Math.random()] in [0, 1), a run of the scheduler never throws and
    leaves the graph in such a state; neither does [triggerRandomNote],
    a delay update or [stop()]. *)
Theorem scheduler_never_throws (w : World) :
  playable w ->
  outcome scheduler w = Ok tt /\
  playable (after scheduler w) /\
  (forall t, outcome (triggerRandomNote t) w = Ok tt) /\
  (forall p, outcome (setSynthParams p) w = Ok tt) /\
  outcome stop w = Ok tt.
Proof.
  intros Hpl. split; [|split; [|split; [|split]]].
  - apply outcome_unit, (pl_scheduler w Hpl).
  - apply (pl_scheduler w Hpl).
  - intros t. apply outcome_unit, (pl_triggerRandomNote t w Hpl).
  - intros p. apply outcome_unit, (gi_setSynthParams _ p w Hpl).
  - apply outcome_stop.
Qed.

(** X20.  On such a graph [start()] on an engine that is not playing
    fails only when the audio context cannot be had: it returns
    normally whenever the context is created and resumed, and an
    exception it throws is the one [new AudioContext()] threw or the
    one [resume()] rejected with. *)
Theorem start_throws_only_context_errors (w : World) :
  playable w ->
  isPlaying (eng w) = false ->
  playable (after start w) /\
  (outcome acquireContext w = Ok tt -> outcome start w = Ok tt) /\
  (forall e, outcome start w = Throw e ->
     outcome acquireContext w = Throw e /\
     ((audioContext (eng w) = None /\ contextError (env w) = Some e) \/
      (contextState (env w) = suspended /\ resumeError (env w) = Some e))).
Proof.
  intros Hpl Hp. destruct (start_playable w Hpl Hp) as [H1 H2].
  split; [exact H1|]. split.
  - intros Ha. now rewrite Ha in H2.
  - intros e He. destruct (outcome acquireContext w) as [a|e'] eqn:Ha;
      [congruence|].
    assert (e' = e) by congruence. subst e'.
    split; [reflexivity | apply (acquireContext_errors w e Ha)].
Qed.

Lemma current_empty (g : PcsRelationGraph) : nodes g = [] -> current g = None.
Proof.
  intros Hn. unfold current. destruct (currentIndex g) as [i|]; [|reflexivity].
  rewrite Hn. unfold js_index. destruct (i <? 0)%Z; [reflexivity|].
  now destruct (Z.to_nat i).
Qed.

(** X21.  On a graph without nodes [start()] cannot succeed: once the
    audio context is there and the effect chain is built, the refresh
    of the pitch classes calls [asSequence] on the undefined current
    node, and [start()] rethrows the [TypeError]. *)
Theorem start_fails_on_empty_graph (w : World) :
  nodes (pcsGraph (eng w)) = [] ->
  isPlaying (eng w) = false ->
  (outcome acquireContext w = Ok tt -> outcome start w = Throw "TypeError") /\
  (exists e, outcome start w = Throw e) /\
  outcome refreshPitchClasses w = Throw "TypeError".
Proof.
  intros Hn Hp.
  set (J := fun (g : PcsRelationGraph) (_ : nat -> Q) => nodes g = []).
  assert (H0 : graph_inv J w) by exact Hn.
  pose proof (gi_acquireContext J w H0) as H1.
  assert (Hstart : match outcome acquireContext w with
                   | Ok _ => outcome start w = Throw "TypeError"
                   | Throw e => outcome start w = Throw e
                   end).
  { unfold start. rewrite outcome_this, Hp.
    rewrite outcome_try_catch, outcome_bind, outcome_startUp.
    destruct (outcome acquireContext w) as [a|e].
    - rewrite outcome_bind.
      destruct (gi_buildAudioChain J _ H1) as [H2 Ho2].
      rewrite (outcome_unit _ _ Ho2), outcome_bind.
      unfold refreshPitchClasses at 1. rewrite outcome_this.
      rewrite (current_empty _ H2).
      change (outcome (throw "TypeError") (after buildAudioChain
                                             (after acquireContext w)))
        with (@Throw unit "TypeError").
      cbv iota. rewrite outcome_bind, outcome_stop. reflexivity.
    - rewrite outcome_bind, outcome_stop. reflexivity. }
  split; [|split].
  - intros Ha. now rewrite Ha in Hstart.
  - destruct (outcome acquireContext w); eexists; exact Hstart.
  - unfold refreshPitchClasses. rewrite outcome_this, (current_empty _ Hn).
    reflexivity.
Qed.

End CanThrow.

Section ReachablePlayable.
Context {P : Platform}.

Lemma playable_start (w : World) : playable w -> playable (after start w).
Proof.
  intros Hpl. destruct (isPlaying (eng w)) eqn:Hp.
  - unfold start. rewrite after_this, Hp. exact Hpl.
  - apply (start_playable w Hpl Hp).
Qed.

Lemma playable_startUp (w : World) : playable w -> playable (after startUp w).
Proof.
  intros Hpl. rewrite after_startUp.
  pose proof (gi_acquireContext _ w Hpl) as H1.
  destruct (outcome acquireContext w);
    [exact (proj1 (pl_startUp_rest _ H1)) | exact H1].
Qed.

Lemma playable_perform (o : Op) (w : World) :
  playable w -> playable (after (perform o) w).
Proof.
  intros Hpl. destruct o; cbn [perform].
  - apply playable_start, Hpl.
  - apply (gi_stop _ w Hpl).
  - unfold toggle. rewrite after_this.
    destruct (isPlaying (eng w));
      [apply (gi_stop _ w Hpl) | apply playable_start, Hpl].
  - exact Hpl.
  - exact Hpl.
  - apply (gi_setSynthParams _ _ w Hpl).
  - exact Hpl.
  - apply (pl_scheduler w Hpl).
  - exact Hpl.
Qed.

Lemma playable_run_ops (ops : list Op) (w : World) :
  playable w -> playable (run_ops ops w).
Proof.
  revert w. induction ops as [|o ops IH]; intros w Hpl; cbn [run_ops].
  - exact Hpl.
  - apply IH, playable_perform, Hpl.
Qed.

Lemma playable_new (b : Backend) :
  data_well_formed ->
  (forall k, 0 <= randomSource b k /\ randomSource b k < 1) ->
  playable (MusicEngine_new b).
Proof.
  intros (Hne & Hlen & Hadj) Hdraws.
  unfold playable, graph_inv, playable_graph, MusicEngine_new,
    PcsRelationGraph_new, draw.
  cbn [eng env pcsGraph nodes].
  assert (Hl : List.length (map Pcs12_fromBinaryString pcsGraphData_nodes)
               = List.length pcsGraphData_nodes) by apply length_map.
  split; [|split; [|split]].
  - intros Hnil. apply Hne. now apply map_eq_nil in Hnil.
  - unfold well_formed. cbn [adjacency nodes]. rewrite Hl. split; assumption.
  - unfold valid_index. cbn [currentIndex nodes]. eexists. split; [reflexivity|].
    unfold js_length. rewrite Hl.
    apply random_index_range; try apply Hdraws.
    destruct pcsGraphData_nodes; [congruence | cbn; lia].
  - unfold setupMediaSession.
    destruct (hasMediaSession _); cbn; exact Hdraws.
Qed.

(** X22.  With graph data that has a node, one neighbour list per node
    and only node indices as neighbours, and with [Math.random()] in
    [0, 1), no call of the engine after its construction ever fails on
    the graph: in every reachable state a run of the scheduler returns
    normally, and [start()] and [toggle()] throw nothing but what
    [new AudioContext()] throws or [resume()] rejects with. *)
Theorem reachable_never_throws (b : Backend) (ops : list Op) :
  data_well_formed ->
  (forall k, 0 <= randomSource b k /\ randomSource b k < 1) ->
  let w := run_ops ops (MusicEngine_new b) in
  outcome scheduler w = Ok tt /\
  outcome stop w = Ok tt /\
  (forall p, outcome (setSynthParams p) w = Ok tt) /\
  (forall e, outcome start w = Throw e ->
     contextError (env w) = Some e \/ resumeError (env w) = Some e) /\
  (forall e, outcome toggle w = Throw e ->
     contextError (env w) = Some e \/ resumeError (env w) = Some e).
Proof.
  intros Hdata Hdraws w.
  assert (Hpl : playable w)
    by (apply playable_run_ops, playable_new; [exact Hdata | exact Hdraws]).
  clearbody w.
  assert (Hstart : forall e, outcome start w = Throw e ->
                     contextError (env w) = Some e \/ resumeError (env w) = Some e).
  { intros e He. destruct (isPlaying (eng w)) eqn:Hp.
    - unfold start in He. rewrite outcome_this, Hp in He. discriminate He.
    - destruct (start_playable w Hpl Hp) as [_ H].
      destruct (outcome acquireContext w) as [a|e'] eqn:Ha; [congruence|].
      assert (e' = e) by congruence. subst e'.
      destruct (acquireContext_errors w e Ha) as [[_ H1] | [_ H1]]; auto. }
  split; [|split; [|split; [|split]]].
  - apply outcome_unit, (pl_scheduler w Hpl).
  - apply outcome_stop.
  - intros p. apply outcome_unit, (gi_setSynthParams _ p w Hpl).
  - exact Hstart.
  - intros e. unfold toggle. rewrite outcome_this.
    destruct (isPlaying (eng w)) eqn:Hp.
    + rewrite outcome_stop. discriminate.
    + apply Hstart.
Qed.

End ReachablePlayable.

Section Output.
Context {P : Platform}.

Lemma no_output_flat_map {A} (f : A -> list Command) (l : list A) :
  (forall a, destination_inputs (f a) = []) ->
  destination_inputs (flat_map f l) = [].
Proof.
  intros Hf. induction l as [|a l IH]; [reflexivity|].
  cbn [flat_map]. unfold destination_inputs in *.
  rewrite flat_map_app, Hf, IH. reflexivity.
Qed.

Lemma no_output_cascade (filters : list NodeId) :
  destination_inputs (cascade_cmds filters) = [].
Proof.
  induction filters as [|a [|b rest] IH]; try reflexivity.
  change (cascade_cmds (a :: b :: rest))
    with (cascade_cmds (b :: rest) ++ [Connect a b]).
  unfold destination_inputs in *. rewrite flat_map_app, IH. reflexivity.
Qed.

Lemma no_output_delay (e : Engine) (mg n : NodeId) :
  destination_inputs (delay_effect_cmds e mg n) = [].
Proof.
  unfold delay_effect_cmds, connect_cmds, filter_cmds.
  pose proof no_output_cascade as Hc.
  pose proof (@no_output_flat_map NodeId) as Hf.
  unfold destination_inputs in *.
  destruct (seq (5 + n) (stage_count (filterOrder (delay (synthParams e)))))
    as [|a l] eqn:Hseq.
  - cbn [app flat_map]. rewrite !flat_map_app, Hf; [reflexivity|].
    intros; reflexivity.
  - cbn [app flat_map]. rewrite !flat_map_app, Hc, Hf; [reflexivity|].
    intros; reflexivity.
Qed.

Lemma delay_effect_cmds_masterGain (m : option NodeId) (e : Engine)
    (mg n : NodeId) :
  delay_effect_cmds (set_masterGain m e) mg n = delay_effect_cmds e mg n.
Proof. reflexivity. Qed.

(** The part of [buildAudioChain] after the delay effect, on an engine
    that has the dry and wet gains of the delay. *)
Lemma chain_output_run (mg : NodeId) (w : World) ctx dry wet :
  audioContext (eng w) = Some ctx ->
  delayDryGain (eng w) = Some dry ->
  delayWetGain (eng w) = Some wet ->
  let reverb := canCreateReverb (env w) in
  let n := nextNodeId (env w) in
  (rv <- createSimpleReverb ;;
   update (set_reverbNode rv) ;;
   dry <- this delayDryGain ;;
   wet <- this delayWetGain ;;
   signalSource <-
     match dry, wet with
     | Some _, Some _ => createDelayMixNode
     | _, _ => ret (Some mg)
     end ;;
   match rv, signalSource with
   | Some rv, Some src =>
       dryGain <- new_node CreateGain ;;
       wetGain <- new_node CreateGain ;;
       emit (SetValue dryGain gain_param 0.7) ;;
       emit (SetValue wetGain gain_param 0.3) ;;
       emit (Connect src dryGain) ;;
       emit (Connect src rv) ;;
       emit (Connect rv wetGain) ;;
       emit (ConnectDestination dryGain) ;;
       emit (ConnectDestination wetGain)
   | None, Some src => emit (ConnectDestination src)
   | _, None => ret tt
   end) w =
  (Ok tt,
   {| eng := set_reverbNode (if reverb then Some n else None) (eng w);
      env := set_log (output_cmds reverb dry wet n ++ log (env w))
               (set_nextNodeId (if reverb then 4 + n else 2 + n)%nat
                  (if reverb
                   then set_randomPos (randomPos (env w) + impulseDraws (env w))
                          (env w)
                   else env w)) |}).
Proof.
  intros Hctx Hdry Hwet reverb n. subst reverb n.
  unfold createSimpleReverb, createDelayMixNode, output_cmds.
  destruct w as [e b]. cbn [eng env] in *.
  destruct (canCreateReverb b) eqn:Hr;
    repeat (cbn; rewrite ?Hctx, ?Hr, ?Hdry, ?Hwet); reflexivity.
Qed.

Lemma buildAudioChain_run (w : World) ctx :
  audioContext (eng w) = Some ctx ->
  let mg := nextNodeId (env w) in
  let k := stage_count (filterOrder (delay (synthParams (eng w)))) in
  let rv := (k + (6 + mg))%nat in
  exists w',
    buildAudioChain w = (Ok tt, w') /\
    masterGain (eng w') = Some mg /\
    delayDryGain (eng w') = Some (3 + mg)%nat /\
    delayWetGain (eng w') = Some (4 + mg)%nat /\
    reverbNode (eng w') =
      (if canCreateReverb (env w) then Some rv else None) /\
    log (env w') =
      output_cmds (canCreateReverb (env w)) (3 + mg)%nat (4 + mg)%nat rv ++
      delay_effect_cmds (eng w) mg (S mg) ++
      [ SetValue mg gain_param 0.5; CreateGain mg ] ++ log (env w).
Proof.
  intros Hctx mg k rv. unfold buildAudioChain.
  rewrite (bind_run _ _ _ _ _ (new_node_run _ _)).
  rewrite (bind_run _ _ _ _ _ (update_run _ _)).
  rewrite (bind_run _ _ _ _ _ (emit_run _ _)).
  match goal with
  | |- exists _, bind createDelayEffect _ ?w2 = _ /\ _ =>
      assert (H1 : audioContext (eng w2) = Some ctx) by exact Hctx;
      assert (H2 : masterGain (eng w2) = Some mg) by reflexivity;
      rewrite (bind_run _ _ _ _ _ (createDelayEffect_run w2 ctx _ H1 H2))
  end.
  clear H1 H2. cbv beta.
  match goal with
  | |- exists _, _ ?w4 = _ /\ _ =>
      rewrite (chain_output_run (nextNodeId (env w)) w4 ctx
                 (3 + mg)%nat (4 + mg)%nat Hctx eq_refl eq_refl)
  end.
  eexists. split; [reflexivity|].
  repeat (split; [reflexivity|]).
  cbn [env log set_log logged eng]. rewrite delay_effect_cmds_masterGain.
  reflexivity.
Qed.

(** X23.  The output stage that [start()] builds: the master gain is
    never connected to the destination itself.  The delay's dry and wet
    gains feed a mix node; with the reverb the mix node reaches the
    destination through a dry gain of 0.7 and, through the convolver, a
    wet gain of 0.3, and when the reverb cannot be created the mix node
    is connected to the destination directly. *)
Theorem buildAudioChain_output (w : World) ctx :
  audioContext (eng w) = Some ctx ->
  let w' := after buildAudioChain w in
  let mg := nextNodeId (env w) in
  let k := stage_count (filterOrder (delay (synthParams (eng w)))) in
  let rv := (k + (6 + mg))%nat in
  let mixNode := (1 + rv)%nat in
  outcome buildAudioChain w = Ok tt /\
  masterGain (eng w') = Some mg /\
  reverbNode (eng w') = (if canCreateReverb (env w) then Some rv else None) /\
  exists cmds,
    log (env w') = cmds ++ log (env w) /\
    destination_inputs cmds =
      (if canCreateReverb (env w) then [(3 + rv)%nat; (2 + rv)%nat]
       else [mixNode]) /\
    ~ In mg (destination_inputs cmds) /\
    (forall dry wet, delayDryGain (eng w') = Some dry ->
                     delayWetGain (eng w') = Some wet ->
       In (Connect dry mixNode) cmds /\ In (Connect wet mixNode) cmds) /\
    (canCreateReverb (env w) = true ->
       In (Connect mixNode (2 + rv)%nat) cmds /\
       In (SetValue (2 + rv)%nat gain_param 0.7) cmds /\
       In (Connect mixNode rv) cmds /\
       In (Connect rv (3 + rv)%nat) cmds /\
       In (SetValue (3 + rv)%nat gain_param 0.3) cmds).
Proof.
  intros Hctx w' mg k rv mixNode.
  destruct (buildAudioChain_run w ctx Hctx)
    as (w1 & Hrun & Hmg & Hdry & Hwet & Hrv & Hlog).
  assert (Hw' : w' = w1) by (unfold w', after; now rewrite Hrun).
  clearbody w'. subst w'. fold mg k rv in Hmg, Hdry, Hwet, Hrv, Hlog.
  split; [unfold outcome; now rewrite Hrun|].
  split; [exact Hmg|]. split; [exact Hrv|].
  eexists. split; [rewrite Hlog, !app_assoc; reflexivity|].
  assert (Hout : destination_inputs
            (((output_cmds (canCreateReverb (env w)) (3 + mg)%nat (4 + mg)%nat rv ++
               delay_effect_cmds (eng w) mg (S mg)) ++
              [SetValue mg gain_param 0.5; CreateGain mg])) =
          (if canCreateReverb (env w) then [(3 + rv)%nat; (2 + rv)%nat]
           else [mixNode])).
  { pose proof (no_output_delay (eng w) mg (S mg)) as Hd.
    unfold destination_inputs in *. rewrite !flat_map_app, Hd.
    destruct (canCreateReverb (env w)); reflexivity. }
  split; [exact Hout|]. split.
  - rewrite Hout. subst rv mixNode.
    destruct (canCreateReverb (env w)); cbn [In]; lia.
  - split.
    + intros dry wet Ed Ew.
      assert (dry = (3 + mg)%nat) by congruence.
      assert (wet = (4 + mg)%nat) by congruence. subst dry wet.
      split; apply in_or_app; left; apply in_or_app; left;
        unfold output_cmds; apply in_or_app; right; cbn [In app]; tauto.
    + intros Hr. rewrite Hr.
      repeat split; apply in_or_app; left; apply in_or_app; left;
        unfold output_cmds; apply in_or_app; left; cbn [In]; tauto.
Qed.

End Output.

Section VoiceLifetime.
Context {P : Platform}.

Lemma no_start_release (x : option NodeId) osc t :
  ~ In (StartAt osc t) (release_cmds x).
Proof.
  destruct x; cbn; [intros [H | []]; discriminate H | intros []].
Qed.

Lemma no_start_silence (v : Voice) osc t :
  ~ In (StartAt osc t) (silence_cmds v).
Proof.
  unfold silence_cmds. intros H. apply in_app_or in H. destruct H as [H | H].
  - exact (no_start_release _ _ _ H).
  - destruct (oscillator v); cbn in H; [|exact H].
    destruct H as [H | [H | []]]; discriminate H.
Qed.

Lemma no_start_cleanup (now : Q) (vs : list Voice) osc t :
  ~ In (StartAt osc t) (flat_map (cleanup_cmds now) vs).
Proof.
  intros H. apply in_flat_map in H. destruct H as (v & _ & H).
  unfold cleanup_cmds in H. destruct (alive now v); [exact H|].
  apply in_app_or in H. destruct H as [H | H];
    exact (no_start_release _ _ _ H).
Qed.

(** [triggerNote] on an engine with a context and a master gain: what
    it tracks and what it sends. *)
Lemma triggerNote_run (w : World) (frequency when duration : Q) ctx mg :
  audioContext (eng w) = Some ctx ->
  masterGain (eng w) = Some mg ->
  let n := nextNodeId (env w) in
  exists kept older,
    (forall osc t, ~ In (StartAt osc t) older) /\
    triggerNote frequency when duration w =
    (Ok tt,
     {| eng := set_voices
                 (kept ++ [newVoice n when duration
                             (release (envelope (synthParams (eng w))))])
                 (eng w);
        env := set_log (voice_commands (synthParams (eng w)) mg n frequency
                          when duration ++ older ++ log (env w))
                 (set_nextNodeId (7 + n)%nat (env w)) |}).
Proof.
  intros Hctx Hmg n.
  assert (Hrun : triggerNote frequency when duration w
                 = (cleanupOldVoices ;; limitVoices ;;
                    synthesizeVoice mg frequency when duration) w).
  { unfold triggerNote. cbn [bind this]. now rewrite Hctx, Hmg. }
  pose proof (cleanupOldVoices_run w ctx Hctx) as Hclean.
  set (now := currentTime (env w)) in *.
  set (kept := filter (alive now) (voices (eng w))) in *.
  set (cleaned := flat_map (cleanup_cmds now) (rev (voices (eng w)))) in *.
  destruct (Nat.lt_ge_cases (List.length kept) MAX_VOICES) as [Hlt | Hge].
  - exists kept, cleaned. split; [intros; apply no_start_cleanup|].
    rewrite Hrun, (bind_run _ _ _ _ _ Hclean).
    rewrite (bind_run _ _ _ _ _
               (limitVoices_below
                  {| eng := set_voices kept (eng w);
                     env := set_log (cleaned ++ log (env w)) (env w) |} Hlt)).
    rewrite synthesizeVoice_run. reflexivity.
  - destruct kept as [|oldest rest] eqn:Ek;
      [cbn in Hge; unfold MAX_VOICES in Hge; lia|].
    exists rest, (silence_cmds oldest ++ cleaned). split.
    { intros osc t H. apply in_app_or in H. destruct H as [H | H];
        [exact (no_start_silence _ _ _ H) | exact (no_start_cleanup _ _ _ _ H)]. }
    rewrite Hrun, (bind_run _ _ _ _ _ Hclean).
    rewrite (bind_run _ _ _ _ _
               (limitVoices_full
                  {| eng := set_voices (oldest :: rest) (eng w);
                     env := set_log (cleaned ++ log (env w)) (env w) |}
                  oldest rest eq_refl Hge)).
    rewrite synthesizeVoice_run. unfold logged.
    cbn [eng env log set_log set_voices voices synthParams nextNodeId
         set_nextNodeId].
    rewrite <- app_assoc. reflexivity.
Qed.

(** X24.  Every note is switched off.  [triggerNote] on an engine with
    a context and a master gain tracks the new voice last and starts
    exactly the oscillators it creates (the main one and the two LFOs),
    all at the onset; each of them is scheduled to stop 0.1 s after the
    end time of the voice, which is the onset plus the duration plus
    the release.  So a voice that [cleanupOldVoices] drops has been
    silent for at least 0.4 s. *)
Theorem triggerNote_voice_lifetime (w : World) (frequency when duration : Q)
    ctx mg :
  audioContext (eng w) = Some ctx ->
  masterGain (eng w) = Some mg ->
  let adsr := envelope (synthParams (eng w)) in
  let n := nextNodeId (env w) in
  let v := newVoice n when duration (release adsr) in
  let stopTime := endTime v + 0.1 in
  let cmds := voice_commands (synthParams (eng w)) mg n frequency when duration in
  let w' := after (triggerNote frequency when duration) w in
  (exists kept older,
     voices (eng w') = kept ++ [v] /\
     log (env w') = cmds ++ older ++ log (env w) /\
     forall osc t, ~ In (StartAt osc t) older) /\
  endTime v = when + duration + release adsr /\
  (forall osc, In (CreateOscillator osc) cmds <-> In (StartAt osc when) cmds) /\
  (forall osc t, In (StartAt osc t) cmds ->
     t = when /\ In (StopAt osc stopTime) cmds) /\
  (forall osc t, In (StopAt osc t) cmds ->
     t = stopTime /\ In (StartAt osc when) cmds) /\
  (0 <= duration -> 0 <= release adsr -> when < stopTime) /\
  (forall now, alive now v = false -> stopTime + 0.4 < now).
Proof.
  intros Hctx Hmg adsr n v stopTime cmds w'.
  split.
  { destruct (triggerNote_run w frequency when duration ctx mg Hctx Hmg)
      as (kept & older & Hno & Hrun).
    exists kept, older. subst w'. unfold after. rewrite Hrun.
    repeat split; [exact Hno]. }
  split; [reflexivity|].
  assert (Hcmds : cmds =
    voice_commands (synthParams (eng w)) mg n frequency when duration)
    by reflexivity.
  unfold voice_commands in Hcmds. cbn [rev app] in Hcmds.
  split; [|split; [|split; [|split]]].
  - intros osc. rewrite Hcmds. cbn [In]. split; intros H;
      repeat (destruct H as [H | H]; try discriminate H);
      try (exfalso; exact H); inversion H; subst; tauto.
  - intros osc t H. rewrite Hcmds in H |- *. cbn [In] in H |- *.
    repeat (destruct H as [H | H]; try discriminate H);
      try (exfalso; exact H); inversion H; subst; (split; [reflexivity | tauto]).
  - intros osc t H. rewrite Hcmds in H |- *. cbn [In] in H |- *.
    repeat (destruct H as [H | H]; try discriminate H);
      try (exfalso; exact H); inversion H; subst; (split; [reflexivity | tauto]).
  - intros Hd Hr. subst stopTime v. cbn [endTime newVoice]. lra.
  - intros now Ha. unfold alive in Ha. apply negb_false_iff in Ha.
    apply js_lt_true in Ha. subst stopTime. lra.
Qed.

End VoiceLifetime.

Section Durations.

(** The value [baseValues[base] || wholeNote / 4] for any key. *)
Lemma base_value (wholeNote : Q) (base : string) :
  0 < wholeNote ->
  exists k,
    In k [1; 2; 4; 8; 16; 32] /\
    js_or (js_get (baseValues wholeNote) base) (wholeNote / 4)
      == wholeNote / k /\
    (~ In base BASE_DURATIONS -> k = 4).
Proof.
  intros Hw. unfold baseValues, BASE_DURATIONS. cbn [js_get].
  destruct (String.eqb "1/1" base) eqn:E1;
    [apply String.eqb_eq in E1; exists 1;
     rewrite js_or_Some by (intro; qlra);
     repeat split; [cbn; tauto | field | cbn; tauto]|].
  destruct (String.eqb "1/2" base) eqn:E2;
    [apply String.eqb_eq in E2; exists 2;
     rewrite js_or_Some by (intro; qlra);
     repeat split; [cbn; tauto | cbn; tauto]|].
  destruct (String.eqb "1/4" base) eqn:E3;
    [apply String.eqb_eq in E3; exists 4;
     rewrite js_or_Some by (intro; qlra);
     repeat split; cbn; tauto|].
  destruct (String.eqb "1/8" base) eqn:E4;
    [apply String.eqb_eq in E4; exists 8;
     rewrite js_or_Some by (intro; qlra);
     repeat split; [cbn; tauto | cbn; tauto]|].
  destruct (String.eqb "1/16" base) eqn:E5;
    [apply String.eqb_eq in E5; exists 16;
     rewrite js_or_Some by (intro; qlra);
     repeat split; [cbn; tauto | cbn; tauto]|].
  destruct (String.eqb "1/32" base) eqn:E6;
    [apply String.eqb_eq in E6; exists 32;
     rewrite js_or_Some by (intro; qlra);
     repeat split; [cbn; tauto | cbn; tauto]|].
  exists 4. cbn [js_or In]. repeat split; tauto.
Qed.

(** X25.  [musicalDurationToSeconds] on strings outside its table.  At
    a positive tempo every string whose base (the string without a
    final [T] or [D]) is not a property name inherited from
    [Object.prototype] gives one of the 18 durations of the table: a
    whole note divided by 1, 2, 4, 8, 16 or 32, as it is, as a triplet
    or dotted.  The result is positive and at most six beats.  A string
    whose base is not in the table counts as a quarter note, and a
    final [T] or [D] still makes it a triplet or dotted. *)
Theorem musicalDurationToSeconds_any_string (duration : string) (tempo : Q) :
  0 < tempo ->
  ~ In (replace_TD_suffix duration) Object_prototype_keys ->
  let beat := 60 / tempo in
  let s := musicalDurationToSeconds duration tempo in
  (exists k m,
     In k [1; 2; 4; 8; 16; 32] /\ In m [1; 2 / 3; 1.5] /\
     s == m * (4 * beat / k) /\
     (~ In (replace_TD_suffix duration) BASE_DURATIONS -> k = 4) /\
     (m = 2 / 3 <-> slice_last duration = "T"%string) /\
     (m = 1.5 <-> slice_last duration = "D"%string)) /\
  0 < s /\ s <= 6 * beat.
Proof.
  intros Hb _ beat s. pose proof (beat_pos tempo Hb) as Hp. fold beat in Hp.
  assert (Hw : 0 < beat * 4) by qlra.
  destruct (base_value (beat * 4) (replace_TD_suffix duration) Hw)
    as (k & Hk & Hv & Hfall).
  assert (Hs : exists m,
             In m [1; 2 / 3; 1.5] /\ s == m * (4 * beat / k) /\
             (m = 2 / 3 <-> slice_last duration = "T"%string) /\
             (m = 1.5 <-> slice_last duration = "D"%string)).
  { subst s. unfold musicalDurationToSeconds. fold beat.
    assert (Hk0 : ~ k == 0)
      by (cbn in Hk; intuition (subst k; discriminate)).
    destruct (String.eqb (slice_last duration) "T") eqn:ET.
    - apply String.eqb_eq in ET. exists (2 / 3). split; [cbn; tauto|].
      split; [rewrite Hv; field; exact Hk0|].
      split; [tauto|]. rewrite ET. split; discriminate.
    - apply String.eqb_neq in ET.
      destruct (String.eqb (slice_last duration) "D") eqn:ED.
      + apply String.eqb_eq in ED. exists 1.5. split; [cbn; tauto|].
        split; [rewrite Hv; field; exact Hk0|].
        split; [|tauto]. rewrite ED. split; discriminate.
      + apply String.eqb_neq in ED. exists 1. split; [cbn; tauto|].
        split; [rewrite Hv; field; exact Hk0|].
        split; split; intros H; try discriminate H; contradiction. }
  destruct Hs as (m & Hm & Hs & HT & HD).
  split; [exists k, m; tauto|].
  rewrite Hs. cbn [In] in Hk, Hm.
  destruct Hk as [<- | [<- | [<- | [<- | [<- | [<- | []]]]]]];
    destruct Hm as [<- | [<- | [<- | []]]]; split; qlra.
Qed.

End Durations.

(* ================================================================= *)
(** ** The properties at concrete engines *)

#[local] Existing Instance examplePlatform.

Lemma example_data_well_formed : @data_well_formed examplePlatform.
Proof.
  split; [discriminate|]. split; [reflexivity|].
  intros neighbors v Hn Hv. cbn in Hn.
  destruct Hn as [<- | [<- | []]]; cbn in Hv; destruct Hv as [<- | []];
    cbn; lia.
Qed.

Lemma freshWorld_playable : playable (freshWorld 0 0).
Proof.
  apply playable_new; [exact example_data_well_formed|].
  intro k. vm_compute. split; [discriminate | reflexivity].
Qed.

Lemma startedWorld_playable : playable (startedWorld 0 0).
Proof. apply playable_startUp, freshWorld_playable. Qed.

Lemma quantizeToSixteenth_monotone_witness :
  let e := eng (freshWorld 0 0) in
  let t1 := 1 in
  let t2 := 2 in
  (0 < bpm e /\ t1 <= t2) /\
  quantizeToSixteenth e t1 <= quantizeToSixteenth e t2.
Proof.
  intros e t1 t2.
  assert (H1 : 0 < bpm e)
    by (vm_compute; reflexivity).
  assert (H2 : t1 <= t2)
    by (vm_compute; discriminate).
  exact (conj (conj H1 H2)
           (@quantizeToSixteenth_monotone examplePlatform e t1 t2 H1 H2)).
Defined.


Lemma start_establishes_playback_witness :
  let w := freshWorld 0 0 in
  (isPlaying (eng w) = false /\
   outcome start w = Ok tt) /\
  (let w' := after start w in
  isPlaying (eng w') = true /\
  chain_present (eng w') /\
  schedulerId (eng w') <> None /\
  bpm (eng w') = bpm (eng w) /\
  start w' = (Ok tt, w')).
Proof.
  intros w.
  assert (H1 : isPlaying (eng w) = false)
    by (vm_compute; reflexivity).
  assert (H2 : outcome start w = Ok tt)
    by (vm_compute; reflexivity).
  exact (conj (conj H1 H2)
           (@start_establishes_playback examplePlatform w H1 H2)).
Defined.

Lemma start_failure_stops_witness :
  let w := unsupportedWorld in
  (isPlaying (eng w) = false) /\
  ((forall e, audioContext (eng w) = None -> contextError (env w) = Some e ->
     outcome start w = Throw e) /\
  (forall e, audioContext (eng w) <> None \/ contextError (env w) = None ->
     contextState (env w) = suspended -> resumeError (env w) = Some e ->
     outcome start w = Throw e) /\
  forall e, outcome start w = Throw e ->
    let w' := after start w in
    eng w' = stopped (eng w') /\
    isPlaying (eng w') = false /\
    voices (eng w') = [] /\
    schedulerId (eng w') = None /\
    masterGain (eng w') = None /\
    delayNode (eng w') = None /\
    delayFilters (eng w') = [] /\
    reverbNode (eng w') = None /\
    bpm (eng w') = bpm (eng w)).
Proof.
  intros w.
  assert (H1 : isPlaying (eng w) = false)
    by (vm_compute; reflexivity).
  exact (conj H1
           (@start_failure_stops examplePlatform w H1)).
Defined.

Lemma setSynthParams_merges_witness :
  let p := durationUpdate 2 in
  let w := startedWorld 0 0 in
  (p_delay p = None) /\
  (let s := synthParams (eng w) in
  let w' := after (setSynthParams p) w in
  let s' := synthParams (eng w') in
  outcome (setSynthParams p) w = Ok tt /\
  env w' = env w /\
  eng w' = set_synthParams s' (eng w) /\
  outcome getSynthParams w' = Ok s' /\
  envelope s' = match p_envelope p with Some x => x | None => envelope s end /\
  vibrato s' = match p_vibrato p with Some x => x | None => vibrato s end /\
  tremolo s' = match p_tremolo p with Some x => x | None => tremolo s end /\
  maxNoteDuration s' =
    match p_maxNoteDuration p with Some x => x | None => maxNoteDuration s end /\
  delay s' = delay s).
Proof.
  intros p w.
  assert (H1 : p_delay p = None)
    by (vm_compute; reflexivity).
  exact (conj H1
           (@setSynthParams_merges examplePlatform p w H1)).
Defined.

Lemma setSynthParams_while_stopped_witness :
  let p := delayUpdate steepDelay in
  let w := freshWorld 0 0 in
  (eng w = stopped (eng w)) /\
  (let w' := after (setSynthParams p) w in
  outcome (setSynthParams p) w = Ok tt /\
  env w' = env w /\
  eng w' = set_synthParams (merge_params p (synthParams (eng w))) (eng w) /\
  eng w' = stopped (eng w') /\
  (forall d, p_delay p = Some d -> delay (synthParams (eng w')) = d) /\
  delayFilters (eng w') = []).
Proof.
  intros p w.
  assert (H1 : eng w = stopped (eng w))
    by (vm_compute; reflexivity).
  exact (conj H1
           (@setSynthParams_while_stopped examplePlatform p w H1)).
Defined.

Lemma scheduler_graph_hop_witness :
  let w := startedWorld 0 0 in
  (isPlaying (eng w) = true /\
   audioContext (eng w) <> None /\
   outcome scheduler w = Ok tt) /\
  (let now := currentTime (env w) in
  let hop := nextGraphHopTime (eng w) in
  let w' := after scheduler w in
  (now < hop - 0.2 ->
   nextGraphHopTime (eng w') = hop /\
   pcsGraph (eng w') = pcsGraph (eng w) /\
   activePitchClasses (eng w') = activePitchClasses (eng w) /\
   exists vs t id,
     eng w' = set_schedulerId (Some id)
                (set_nextNoteTime t (set_voices vs (eng w)))) /\
  (hop - 0.2 <= now ->
   nextGraphHopTime (eng w') = hop + barSeconds (eng w) * BARS_PER_CHANGE /\
   exists g' pcs,
     fst (advance (pcsGraph (eng w)) (env w)) = Ok g' /\
     current g' = Some pcs /\
     pcsGraph (eng w') = g' /\
     activePitchClasses (eng w') = asSequence pcs /\
     exists vs t id,
       eng w' = set_schedulerId (Some id)
                  (set_nextNoteTime t (set_voices vs
                     (set_nextGraphHopTime
                        (hop + barSeconds (eng w) * BARS_PER_CHANGE)
                        (set_activePitchClasses (asSequence pcs)
                           (set_pcsGraph g' (eng w)))))))).
Proof.
  intros w.
  assert (H1 : isPlaying (eng w) = true)
    by (vm_compute; reflexivity).
  assert (H2 : audioContext (eng w) <> None)
    by (vm_compute; discriminate).
  assert (H3 : outcome scheduler w = Ok tt)
    by (vm_compute; reflexivity).
  exact (conj (conj H1 (conj H2 H3))
           (@scheduler_graph_hop examplePlatform w H1 H2 H3)).
Defined.

Lemma triggerRandomNote_choice_witness :
  let w := startedWorld 0 0 in
  let whenTime := 1 in
  (activePitchClasses (eng w) <> [] /\
   (forall k, 0 <= randomSource (env w) k /\ randomSource (env w) k < 1) /\
   0 < maxNoteDuration (synthParams (eng w))) /\
  (let pcs := activePitchClasses (eng w) in
  let k := randomPos (env w) in
  let u1 := randomSource (env w) k in
  let u2 := randomSource (env w) (S k) in
  let u3 := randomSource (env w) (S (S k)) in
  let octave := OCTAVE_MIN + Math_floor (u2 * (OCTAVE_MAX - OCTAVE_MIN + 1)) in
  let duration := maxNoteDuration (synthParams (eng w)) * (0.5 + u3 * 0.5) in
  exists pitchClass,
    js_index pcs (random_index u1 (js_length pcs)) = Some pitchClass /\
    In pitchClass pcs /\
    (exists n : Z, (4 <= n <= 7)%Z /\ octave == inject_Z n) /\
    maxNoteDuration (synthParams (eng w)) / 2 <= duration /\
    duration <= maxNoteDuration (synthParams (eng w)) /\
    triggerRandomNote whenTime w =
    (triggerNote (midiToFreq (octave * 12 + inject_Z pitchClass))
       whenTime duration ;;
     cb <- this onNoteTriggered ;;
     if cb : bool then emit (NoteTriggered pitchClass) else ret tt)
      {| eng := eng w; env := set_randomPos (3 + k)%nat (env w) |}).
Proof.
  intros w whenTime.
  assert (H1 : activePitchClasses (eng w) <> [])
    by (vm_compute; discriminate).
  assert (H2 : (forall k, 0 <= randomSource (env w) k /\ randomSource (env w) k < 1))
    by (intro k; vm_compute; split; [discriminate | reflexivity]).
  assert (H3 : 0 < maxNoteDuration (synthParams (eng w)))
    by (vm_compute; reflexivity).
  exact (conj (conj H1 (conj H2 H3))
           (@triggerRandomNote_choice examplePlatform w whenTime H1 H2 H3)).
Defined.

Lemma setSynthParams_delay_levels_witness :
  let p := delayUpdate steepDelay in
  let d := steepDelay in
  let w := startedWorld 0 0 in
  let ctx := the_audioContext in
  let dn := 1%nat in
  let fb := 2%nat in
  let dry := 3%nat in
  let wet := 4%nat in
  (audioContext (eng w) = Some ctx /\
   delayNode (eng w) = Some dn /\
   delayFeedbackGain (eng w) = Some fb /\
   delayDryGain (eng w) = Some dry /\
   delayWetGain (eng w) = Some wet /\
   p_delay p = Some d) /\
  (let now := currentTime (env w) in
  let wetLevel := if enabled d then mix d else 0 in
  let feedbackLevel := if enabled d then Math_min (feedback d) 0.95 else 0 in
  let sent := log (env (after (setSynthParams p) w)) in
  In (SetTargetAtTime fb gain_param feedbackLevel now 0.05) sent /\
  In (SetTargetAtTime dry gain_param (1 - wetLevel) now 0.05) sent /\
  In (SetTargetAtTime wet gain_param wetLevel now 0.05) sent /\
  In (SetTargetAtTime dn delayTime_param
        (musicalDurationToSeconds (duration d) (bpm (eng w))) now 0.05) sent /\
  feedbackLevel <= 0.95 /\
  (1 - wetLevel) + wetLevel == 1 /\
  (enabled d = false -> feedbackLevel = 0 /\ wetLevel = 0 /\ 1 - wetLevel == 1)).
Proof.
  intros p d w ctx dn fb dry wet.
  assert (H1 : audioContext (eng w) = Some ctx)
    by (vm_compute; reflexivity).
  assert (H2 : delayNode (eng w) = Some dn)
    by (vm_compute; reflexivity).
  assert (H3 : delayFeedbackGain (eng w) = Some fb)
    by (vm_compute; reflexivity).
  assert (H4 : delayDryGain (eng w) = Some dry)
    by (vm_compute; reflexivity).
  assert (H5 : delayWetGain (eng w) = Some wet)
    by (vm_compute; reflexivity).
  assert (H6 : p_delay p = Some d)
    by (vm_compute; reflexivity).
  exact (conj (conj H1 (conj H2 (conj H3 (conj H4 (conj H5 H6)))))
           (@setSynthParams_delay_levels examplePlatform p d w ctx dn fb dry wet H1 H2 H3 H4 H5 H6)).
Defined.

Lemma setLambda_rate_witness :
  let w := freshWorld 0 0 in
  let m := 8 in
  (0 < bpm (eng w)) /\
  (let w' := after (setLambda m) w in
  outcome (setLambda m) w = Ok tt /\
  eng w' = set_meanNotesPerBar m (eng w) /\
  env w' = env w /\
  lambda (eng w') * barSeconds (eng w') == m /\
  lambda (eng w') == m * bpm (eng w) / 240).
Proof.
  intros w m.
  assert (H1 : 0 < bpm (eng w))
    by (vm_compute; reflexivity).
  exact (conj H1
           (@setLambda_rate examplePlatform w m H1)).
Defined.

Lemma createDelayEffect_delay_time_witness :
  let w := startedWorld 0 0 in
  let ctx := the_audioContext in
  let mg := 0%nat in
  (audioContext (eng w) = Some ctx /\
   masterGain (eng w) = Some mg /\
   0 < bpm (eng w)) /\
  (let d := delay (synthParams (eng w)) in
  let n := nextNodeId (env w) in
  let w' := after createDelayEffect w in
  let seconds := musicalDurationToSeconds (duration d) (bpm (eng w)) in
  delayNode (eng w') = Some n /\
  In (CreateDelay n 5.0) (log (env w')) /\
  In (SetValue n delayTime_param seconds) (log (env w')) /\
  (duration d = "1/1"%string ->
   seconds == 240 / bpm (eng w) /\
   (5 < seconds <-> bpm (eng w) < 48)) /\
  5 < musicalDurationToSeconds "1/1" DEFAULT_BPM).
Proof.
  intros w ctx mg.
  assert (H1 : audioContext (eng w) = Some ctx)
    by (vm_compute; reflexivity).
  assert (H2 : masterGain (eng w) = Some mg)
    by (vm_compute; reflexivity).
  assert (H3 : 0 < bpm (eng w))
    by (vm_compute; reflexivity).
  exact (conj (conj H1 (conj H2 H3))
           (@createDelayEffect_delay_time examplePlatform w ctx mg H1 H2 H3)).
Defined.

Lemma scheduler_never_throws_witness :
  let w := startedWorld 0 0 in
  (playable w) /\
  (outcome scheduler w = Ok tt /\
  playable (after scheduler w) /\
  (forall t, outcome (triggerRandomNote t) w = Ok tt) /\
  (forall p, outcome (setSynthParams p) w = Ok tt) /\
  outcome stop w = Ok tt).
Proof.
  intros w.
  assert (H1 : playable w)
    by exact startedWorld_playable.
  exact (conj H1
           (@scheduler_never_throws examplePlatform w H1)).
Defined.

Lemma start_throws_only_context_errors_witness :
  let w := freshWorld 0 0 in
  (playable w /\
   isPlaying (eng w) = false) /\
  (playable (after start w) /\
  (outcome acquireContext w = Ok tt -> outcome start w = Ok tt) /\
  (forall e, outcome start w = Throw e ->
     outcome acquireContext w = Throw e /\
     ((audioContext (eng w) = None /\ contextError (env w) = Some e) \/
      (contextState (env w) = suspended /\ resumeError (env w) = Some e)))).
Proof.
  intros w.
  assert (H1 : playable w)
    by exact freshWorld_playable.
  assert (H2 : isPlaying (eng w) = false)
    by (vm_compute; reflexivity).
  exact (conj (conj H1 H2)
           (@start_throws_only_context_errors examplePlatform w H1 H2)).
Defined.

Lemma start_fails_on_empty_graph_witness :
  let w := emptyWorld 0 0 in
  (nodes (pcsGraph (eng w)) = [] /\
   isPlaying (eng w) = false) /\
  ((outcome acquireContext w = Ok tt -> outcome start w = Throw "TypeError") /\
  (exists e, outcome start w = Throw e) /\
  outcome refreshPitchClasses w = Throw "TypeError").
Proof.
  intros w.
  assert (H1 : nodes (pcsGraph (eng w)) = [])
    by (vm_compute; reflexivity).
  assert (H2 : isPlaying (eng w) = false)
    by (vm_compute; reflexivity).
  exact (conj (conj H1 H2)
           (@start_fails_on_empty_graph emptyPlatform w H1 H2)).
Defined.

Lemma reachable_never_throws_witness :
  let b := exampleBackend 0 0 in
  let ops := [OpStart; OpTimer; OpSetBpm 120; OpTimer; OpStop] in
  (data_well_formed /\
   (forall k, 0 <= randomSource b k /\ randomSource b k < 1)) /\
  (let w := run_ops ops (MusicEngine_new b) in
  outcome scheduler w = Ok tt /\
  outcome stop w = Ok tt /\
  (forall p, outcome (setSynthParams p) w = Ok tt) /\
  (forall e, outcome start w = Throw e ->
     contextError (env w) = Some e \/ resumeError (env w) = Some e) /\
  (forall e, outcome toggle w = Throw e ->
     contextError (env w) = Some e \/ resumeError (env w) = Some e)).
Proof.
  intros b ops.
  assert (H1 : data_well_formed)
    by exact example_data_well_formed.
  assert (H2 : (forall k, 0 <= randomSource b k /\ randomSource b k < 1))
    by (intro k; vm_compute; split; [discriminate | reflexivity]).
  exact (conj (conj H1 H2)
           (@reachable_never_throws examplePlatform b ops H1 H2)).
Defined.

Lemma buildAudioChain_output_witness :
  let w := after (@acquireContext examplePlatform) (freshWorld 0 0) in
  let ctx := the_audioContext in
  (audioContext (eng w) = Some ctx) /\
  (let w' := after buildAudioChain w in
  let mg := nextNodeId (env w) in
  let k := stage_count (filterOrder (delay (synthParams (eng w)))) in
  let rv := (k + (6 + mg))%nat in
  let mixNode := (1 + rv)%nat in
  outcome buildAudioChain w = Ok tt /\
  masterGain (eng w') = Some mg /\
  reverbNode (eng w') = (if canCreateReverb (env w) then Some rv else None) /\
  exists cmds,
    log (env w') = cmds ++ log (env w) /\
    destination_inputs cmds =
      (if canCreateReverb (env w) then [(3 + rv)%nat; (2 + rv)%nat]
       else [mixNode]) /\
    ~ In mg (destination_inputs cmds) /\
    (forall dry wet, delayDryGain (eng w') = Some dry ->
                     delayWetGain (eng w') = Some wet ->
       In (Connect dry mixNode) cmds /\ In (Connect wet mixNode) cmds) /\
    (canCreateReverb (env w) = true ->
       In (Connect mixNode (2 + rv)%nat) cmds /\
       In (SetValue (2 + rv)%nat gain_param 0.7) cmds /\
       In (Connect mixNode rv) cmds /\
       In (Connect rv (3 + rv)%nat) cmds /\
       In (SetValue (3 + rv)%nat gain_param 0.3) cmds)).
Proof.
  intros w ctx.
  assert (H1 : audioContext (eng w) = Some ctx)
    by (vm_compute; reflexivity).
  exact (conj H1
           (@buildAudioChain_output examplePlatform w ctx H1)).
Defined.

Lemma triggerNote_voice_lifetime_witness :
  let w := startedWorld 0 0 in
  let frequency := 440 in
  let when := 1 in
  let duration := 1 in
  let ctx := the_audioContext in
  let mg := 0%nat in
  (audioContext (eng w) = Some ctx /\
   masterGain (eng w) = Some mg) /\
  (let adsr := envelope (synthParams (eng w)) in
  let n := nextNodeId (env w) in
  let v := newVoice n when duration (release adsr) in
  let stopTime := endTime v + 0.1 in
  let cmds := voice_commands (synthParams (eng w)) mg n frequency when duration in
  let w' := after (triggerNote frequency when duration) w in
  (exists kept older,
     voices (eng w') = kept ++ [v] /\
     log (env w') = cmds ++ older ++ log (env w) /\
     forall osc t, ~ In (StartAt osc t) older) /\
  endTime v = when + duration + release adsr /\
  (forall osc, In (CreateOscillator osc) cmds <-> In (StartAt osc when) cmds) /\
  (forall osc t, In (StartAt osc t) cmds ->
     t = when /\ In (StopAt osc stopTime) cmds) /\
  (forall osc t, In (StopAt osc t) cmds ->
     t = stopTime /\ In (StartAt osc when) cmds) /\
  (0 <= duration -> 0 <= release adsr -> when < stopTime) /\
  (forall now, alive now v = false -> stopTime + 0.4 < now)).
Proof.
  intros w frequency when duration ctx mg.
  assert (H1 : audioContext (eng w) = Some ctx)
    by (vm_compute; reflexivity).
  assert (H2 : masterGain (eng w) = Some mg)
    by (vm_compute; reflexivity).
  exact (conj (conj H1 H2)
           (@triggerNote_voice_lifetime examplePlatform w frequency when duration ctx mg H1 H2)).
Defined.

Lemma musicalDurationToSeconds_any_string_witness :
  let duration := "1/3T"%string in
  let tempo := 120 in
  (0 < tempo /\ ~ In (replace_TD_suffix duration) Object_prototype_keys) /\
  (let beat := 60 / tempo in
  let s := musicalDurationToSeconds duration tempo in
  (exists k m,
     In k [1; 2; 4; 8; 16; 32] /\ In m [1; 2 / 3; 1.5] /\
     s == m * (4 * beat / k) /\
     (~ In (replace_TD_suffix duration) BASE_DURATIONS -> k = 4) /\
     (m = 2 / 3 <-> slice_last duration = "T"%string) /\
     (m = 1.5 <-> slice_last duration = "D"%string)) /\
  0 < s /\ s <= 6 * beat).
Proof.
  intros duration tempo.
  assert (H1 : 0 < tempo)
    by (vm_compute; reflexivity).
  assert (H2 : ~ In (replace_TD_suffix duration) Object_prototype_keys)
    by (cbn; intuition discriminate).
  exact (conj (conj H1 H2)
           (musicalDurationToSeconds_any_string duration tempo H1 H2)).
Defined.
